(** * EasyXML: a shallow embedding of [easyxml.py]

    The Python class [EasyXML] builds an element tree through attribute
    syntax ([root.a.b.c(x=1)]) and prints it with [xml.dom.minidom].
    Objects are mutable and shared, so the embedding keeps an explicit
    store: a heap of node records addressed by allocation index.  Every
    method becomes a function on heaps; the [while] loop of [__call__]
    takes fuel and counts its iterations. *)

From Stdlib Require Import ZArith Lia Ascii.
From stdpp Require Import gmap strings list fin_maps pretty.

Open Scope string_scope.
Open Scope list_scope.
Open Scope nat_scope.

#[local] Arguments String.append !_ _ / : simpl nomatch.

(** * The model *)

(** ** Python values, dictionaries, exceptions *)

(** Objects live in a store and are named by their allocation index. *)
Abbreviation addr := nat.

(** The values that occur as keyword arguments.  A string is a sequence
    of code points below 256.  [VNode a] is the [EasyXML] object at [a]
    itself, passed as a value.  [VObject shown] is any other object (a
    float, a list, an instance of another class), given by what [str()]
    of it does: [Some s] when its [__str__] returns the text [s], [None]
    when it raises. *)
Inductive value :=
  | VInt (z : Z)
  | VStr (s : string)
  | VBool (b : bool)
  | VNone
  | VNode (a : addr)
  | VObject (shown : option string).

(** A [dict] with string keys, in insertion order.  A well-formed dict has
    no repeated key. *)
Abbreviation dict := (list (string * value)).

Definition dict_keys (d : dict) : list string := d.*1.

Fixpoint dict_get (k : string) (d : dict) : option value :=
  match d with
  | [] => None
  | (k', v) :: d' => if decide (k' = k) then Some v else dict_get k d'
  end.

Definition is_dict (d : dict) : Prop := NoDup (dict_keys d).

(** Ways in which an operation can fail.  [StrError] is whatever
    exception the [__str__] of an attribute value raises.  [DanglingRef]
    and [OutOfFuel] belong to the embedding: Python has no dangling
    references, and a loop or a recursion that needs more than its fuel
    has not been run to its end. *)
Inductive error :=
  AttributeError | TypeError | StrError | DanglingRef | OutOfFuel.

Definition result (A : Type) : Type := error + A.
Abbreviation Ok := inr.
Abbreviation Raise := inl.

#[global] Instance result_ret : MRet result := fun A a => inr a.
#[global] Instance result_bind : MBind result :=
  fun A B f m => match m with inl e => inl e | inr a => f a end.

(** [name.startswith('_')] *)
Definition startswith_underscore (name : string) : bool :=
  match name with
  | String c _ => bool_decide (c = "_"%char)
  | EmptyString => false
  end.

(** ** The object store *)

(** The instance dictionary of one [EasyXML] object. *)
Record EasyXML := mkEasyXML {
  _parent : option addr;
  _name : string;
  _elements : list addr;
  _attributes : dict;
  _element_map : gmap string addr
}.

Abbreviation heap := (list EasyXML).

Definition deref (h : heap) (a : addr) : result EasyXML :=
  match h !! a with
  | Some nd => Ok nd
  | None => Raise DanglingRef
  end.

Definition set_parent (p : option addr) (nd : EasyXML) : EasyXML :=
  {| _parent := p; _name := _name nd; _elements := _elements nd;
     _attributes := _attributes nd; _element_map := _element_map nd |}.

Definition set_attributes (d : dict) (nd : EasyXML) : EasyXML :=
  {| _parent := _parent nd; _name := _name nd; _elements := _elements nd;
     _attributes := d; _element_map := _element_map nd |}.

Definition set_elements (l : list addr) (nd : EasyXML) : EasyXML :=
  {| _parent := _parent nd; _name := _name nd; _elements := l;
     _attributes := _attributes nd; _element_map := _element_map nd |}.

Definition set_element_map (m : gmap string addr) (nd : EasyXML) : EasyXML :=
  {| _parent := _parent nd; _name := _name nd; _elements := _elements nd;
     _attributes := _attributes nd; _element_map := m |}.

(** ** [__init__] *)

(** The body of [__init__(self, name)]. *)
Definition __init__ (name : string) : EasyXML :=
  {| _parent := None; _name := name; _elements := [];
     _attributes := []; _element_map := ∅ |}.

(** The constructor call [EasyXML(name, **kwargs)].  The signature of
    [__init__] has the single parameter [name], so Python rejects any
    keyword argument with a [TypeError] before the body runs. *)
Definition construct (name : string) (kwargs : dict) : result EasyXML :=
  match kwargs with
  | [] => Ok (__init__ name)
  | _ :: _ => Raise TypeError
  end.

(** [EasyXML(name)] as an allocation: the new object and the grown heap. *)
Definition new_object (h : heap) (nd : EasyXML) : heap * addr :=
  (h ++ [nd], length h).

(** ** [__getattr__] and attribute access *)

(** [__getattr__(self, name)].  [object] has no [__getattr__], so the
    first branch raises [AttributeError] whatever [name] is. *)
Definition __getattr__ (h : heap) (self : addr) (name : string)
  : result (heap * addr) :=
  if startswith_underscore name then Raise AttributeError
  else
    nd ← deref h self;
    match _element_map nd !! name with
    | Some c => Ok (h, c)
    | None => Ok (new_object h (set_parent (Some self) (__init__ name)))
    end.

(** What an attribute access can evaluate to. *)
Inductive field_value :=
  | FParent (p : option addr)
  | FName (s : string)
  | FElements (l : list addr)
  | FAttributes (d : dict)
  | FElementMap (m : gmap string addr).

Inductive attribute :=
  | Child (c : addr)
  | Field (f : field_value)
  | ClassAttr (name : string).

(** The instance dictionary: the five fields assigned in [__init__]. *)
Definition instance_dict (nd : EasyXML) (name : string) : option field_value :=
  if decide (name = "_parent") then Some (FParent (_parent nd))
  else if decide (name = "_name") then Some (FName (_name nd))
  else if decide (name = "_elements") then Some (FElements (_elements nd))
  else if decide (name = "_attributes") then Some (FAttributes (_attributes nd))
  else if decide (name = "_element_map") then Some (FElementMap (_element_map nd))
  else None.

(** The names bound by the [class] statement itself. *)
Definition class_body_names : list string :=
  ["__module__"; "__doc__"; "__init__"; "__getattr__"; "__call__"; "__str__"].

(** The names that ordinary lookup finds although the [class] statement
    does not bind them: the two slots that a class without [__slots__]
    receives, and the attributes inherited from the base class [object]
    (as [dir] lists them in CPython 3.11).  All of them begin with an
    underscore. *)
Definition object_names : list string :=
  ["__dict__"; "__weakref__"; "__class__"; "__delattr__"; "__dir__"; "__eq__";
   "__format__"; "__ge__"; "__getattribute__"; "__getstate__"; "__gt__";
   "__hash__"; "__init_subclass__"; "__le__"; "__lt__"; "__ne__"; "__new__";
   "__reduce__"; "__reduce_ex__"; "__repr__"; "__setattr__"; "__sizeof__";
   "__subclasshook__"].

(** Every name that ordinary lookup finds on the class or on [object]. *)
Definition class_namespace : list string := class_body_names ++ object_names.

(** The expression [self.name]: Python looks in the instance dictionary
    and in the class with its base [object], and calls [__getattr__] only
    when the name is in neither.  [ClassAttr name] stands for whatever
    member the class or [object] has under [name]. *)
Definition getattribute (h : heap) (self : addr) (name : string)
  : result (heap * attribute) :=
  nd ← deref h self;
  match instance_dict nd name with
  | Some f => Ok (h, Field f)
  | None =>
      if bool_decide (name ∈ class_namespace) then Ok (h, ClassAttr name)
      else '(h', c) ← __getattr__ h self name; Ok (h', Child c)
  end.

(** ** [__call__] *)

(** The values of a dict, for [e in m.values()]; instances have no
    [__eq__], so membership is by identity. *)
Definition dict_values (m : gmap string addr) : list addr := (map_to_list m).*2.

(** The loop test [e._parent and e not in e._parent._element_map.values()]:
    [Some p] when the body is to run, with [p] the parent. *)
Definition loop_test (h : heap) (e : addr) : result (option addr) :=
  nd ← deref h e;
  match _parent nd with
  | None => Ok None
  | Some p =>
      pn ← deref h p;
      if bool_decide (e ∈ dict_values (_element_map pn)) then Ok None
      else Ok (Some p)
  end.

(** The two statements of the loop body that write to the parent [p] of [e]. *)
Definition loop_body (h : heap) (e p : addr) : result heap :=
  nd ← deref h e;
  pn ← deref h p;
  let pn1 := set_elements (_elements pn ++ [e]) pn in
  let pn2 := set_element_map (<[_name nd := e]> (_element_map pn1)) pn1 in
  Ok (<[p := pn2]> h).

(** The [while] loop; the second component counts the iterations done. *)
Fixpoint attach (fuel : nat) (h : heap) (e : addr) : result (heap * nat) :=
  t ← loop_test h e;
  match t with
  | None => Ok (h, 0)
  | Some p =>
      match fuel with
      | 0 => Raise OutOfFuel
      | S fuel' =>
          h' ← loop_body h e p;
          '(h'', n) ← attach fuel' h' p;
          Ok (h'', S n)
      end
  end.

(** The signature [__call__(self, **kwargs)] names its first parameter
    [self]; that parameter is bound to the object itself, so a keyword
    argument called [self] gives it a second value. *)
Definition binds_self (kwargs : dict) : bool :=
  bool_decide ("self" ∈ dict_keys kwargs).

(** The call [self(x=1, ...)] with the keyword arguments [kwargs].  Python
    rejects a second value for [self] with a [TypeError] before the body
    runs.  The body makes a new object with the name and the parent of
    [self] and with [kwargs] as its attributes, then runs the loop.  The
    result carries the iteration count of the loop. *)
Definition call_counted (fuel : nat) (h : heap) (self : addr) (kwargs : dict)
  : result (heap * nat) :=
  if binds_self kwargs then Raise TypeError
  else
    nd ← deref h self;
    let '(h1, e) := new_object h (__init__ (_name nd)) in
    let h2 := alter (set_parent (_parent nd)) e h1 in
    let h3 := alter (set_attributes kwargs) e h2 in
    attach fuel h3 e.

(** [__call__(self, **kwargs)], which returns nothing: its effect is the
    new store. *)
Definition __call__ (fuel : nat) (h : heap) (self : addr) (kwargs : dict)
  : result heap :=
  '(h', _) ← call_counted fuel h self kwargs; Ok h'.

(** ** The markup collaborator *)

Definition dquote : string := String (ascii_of_nat 34) "".
Definition newline : string := String (ascii_of_nat 10) "".

Module minidom.

(** Modelled from the spec: [xml.dom.minidom] is the external markup
    collaborator, of which the repository has no source.  It offers
    element creation by tag name, attribute assignment by key and string
    value, child append preserving order, and pretty-printing of the
    whole document with a given indent unit.  An element keeps its
    attributes in assignment order. *)
#[warnings="-register-all"]
Inductive Element :=
  | Elem (tagName : string) (attrs : list (string * string))
         (childNodes : list Element).

Definition createElement (tagName : string) : Element := Elem tagName [] [].

Fixpoint assign (k v : string) (attrs : list (string * string))
  : list (string * string) :=
  match attrs with
  | [] => [(k, v)]
  | (k', v') :: rest =>
      if decide (k' = k) then (k, v) :: rest else (k', v') :: assign k v rest
  end.

Definition setAttribute (k v : string) (el : Element) : Element :=
  match el with
  | Elem t attrs kids => Elem t (assign k v attrs) kids
  end.

Definition appendChild (el child : Element) : Element :=
  match el with
  | Elem t attrs kids => Elem t attrs (kids ++ [child])
  end.

(** Modelled from the spec: the escaping that the core delegates to the
    collaborator; the four markup characters of an attribute value are
    written as entities. *)
Definition escape_char (c : ascii) : string :=
  if bool_decide (c = "&"%char) then "&amp;"
  else if bool_decide (c = "<"%char) then "&lt;"
  else if bool_decide (c = ascii_of_nat 34) then "&quot;"
  else if bool_decide (c = ">"%char) then "&gt;"
  else String c "".

Fixpoint write_data (s : string) : string :=
  match s with
  | EmptyString => ""
  | String c s' => escape_char c +:+ write_data s'
  end.

Definition write_attr (kv : string * string) : string :=
  " " +:+ kv.1 +:+ "=" +:+ dquote +:+ write_data kv.2 +:+ dquote.

Definition write_attrs (attrs : list (string * string)) : string :=
  foldr (fun kv acc => write_attr kv +:+ acc) "" attrs.

(** Modelled from the spec: the pretty-printer writes an element at the
    current indent, its attributes in order, then either the
    self-closing form or its children one indent unit deeper followed by
    the end tag; every tag ends its line. *)
Fixpoint writexml (indent addindent newl : string) (el : Element) : string :=
  match el with
  | Elem t attrs kids =>
      indent +:+ "<" +:+ t +:+ write_attrs attrs +:+
      match kids with
      | [] => "/>" +:+ newl
      | _ :: _ =>
          ">" +:+ newl +:+
          foldr (fun k acc => writexml (indent +:+ addindent) addindent newl k +:+ acc)
                "" kids +:+
          indent +:+ "</" +:+ t +:+ ">" +:+ newl
      end
  end.

Definition xml_declaration : string :=
  "<?xml version=" +:+ dquote +:+ "1.0" +:+ dquote +:+ " ?>".

(** Modelled from the spec: a document with the single element [el],
    printed with the document header on a line of its own. *)
Definition toprettyxml (indent : string) (el : Element) : string :=
  xml_declaration +:+ newline +:+ writexml "" indent newline el.

End minidom.

(** ** [__str__] *)

(** *** The regular expression [<\?xml.*\?>] *)

Fixpoint starts_with (p s : string) : bool :=
  match p, s with
  | EmptyString, _ => true
  | String a p', String b s' => bool_decide (a = b) && starts_with p' s'
  | String _ _, EmptyString => false
  end.

Fixpoint string_drop (n : nat) (s : string) : string :=
  match n, s with
  | 0, _ => s
  | S n', String _ s' => string_drop n' s'
  | S _, EmptyString => ""
  end.

(** The part of [s] before its first newline: [.] matches no newline. *)
Fixpoint line_of (s : string) : string :=
  match s with
  | EmptyString => ""
  | String c s' =>
      if bool_decide (c = ascii_of_nat 10) then "" else String c (line_of s')
  end.

(** The index just after the last [?>] of [s]: [.*] is greedy. *)
Fixpoint last_close (s : string) : option nat :=
  match s with
  | EmptyString => None
  | String c s' =>
      match last_close s' with
      | Some n => Some (S n)
      | None => if starts_with "?>" s then Some 2 else None
      end
  end.

(** The length of the match of the pattern at the start of [s], if any. *)
Definition match_length (s : string) : option nat :=
  if starts_with "<?xml" s
  then n ← last_close (line_of (string_drop 5 s)); Some (5 + n)
  else None.

(** [re.sub(pattern, '', s)]: every match, leftmost first, is deleted;
    [skip] counts the characters of the current match still to delete. *)
Fixpoint sub_from (skip : nat) (s : string) : string :=
  match s with
  | EmptyString => ""
  | String c s' =>
      match skip with
      | S k => sub_from k s'
      | 0 =>
          match match_length s with
          | Some (S n) => sub_from n s'
          | _ => String c (sub_from 0 s')
          end
      end
  end.

Definition re_sub_declaration (s : string) : string := sub_from 0 s.

(** *** [strip] *)

(** The code points below 256 that [str.isspace] accepts: tab to carriage
    return, the four separators 28 to 31, the space, and the two Latin-1
    spaces 133 and 160. *)
Definition is_space (c : ascii) : bool :=
  let n := nat_of_ascii c in
  (n =? 32)%nat || ((9 <=? n)%nat && (n <=? 13)%nat)
  || ((28 <=? n)%nat && (n <=? 31)%nat) || (n =? 133)%nat || (n =? 160)%nat.

Fixpoint lstrip (s : string) : string :=
  match s with
  | EmptyString => ""
  | String c s' => if is_space c then lstrip s' else s
  end.

Fixpoint rstrip (s : string) : string :=
  match s with
  | EmptyString => ""
  | String c s' =>
      match rstrip s' with
      | EmptyString => if is_space c then "" else String c ""
      | r => String c r
      end
  end.

Definition strip (s : string) : string := rstrip (lstrip s).

(** *** [to_xml] and [__str__] *)

(** What [__str__] does with the element that [to_xml] returns: the
    pretty-printed document, without the matches of the header pattern,
    stripped. *)
Definition render (doc : minidom.Element) : string :=
  strip (re_sub_declaration (minidom.toprettyxml "  " doc)).

(** Python's [str(v)].  For an [EasyXML] object it is that object's
    [__str__], which is passed in as [node_str] because it reads the
    store. *)
Definition py_str (node_str : addr -> result string) (v : value)
  : result string :=
  match v with
  | VInt z => Ok (pretty z)
  | VStr s => Ok s
  | VBool b => Ok (if b then "True" else "False")
  | VNone => Ok "None"
  | VNode a => node_str a
  | VObject (Some s) => Ok s
  | VObject None => Raise StrError
  end.

(** The first loop of [to_xml]: for each key of the dict, in order, assign
    the string form of its value; an exception of [str] ends the loop. *)
Definition copy_attributes (to_str : value -> result string) (d : dict)
    (element : minidom.Element) : result minidom.Element :=
  fold_left
    (fun acc k =>
       el ← acc;
       match dict_get k d with
       | Some v => s ← to_str v; Ok (minidom.setAttribute k s el)
       | None => Ok el
       end)
    (dict_keys d) (Ok element).

(** The inner function [to_xml(obj)]; it recurses through the heap, and
    through [__str__] for an attribute value that is a node, so it takes
    fuel: one unit per nested call. *)
Fixpoint to_xml (fuel : nat) (h : heap) (obj : addr) : result minidom.Element :=
  match fuel with
  | 0 => Raise OutOfFuel
  | S fuel' =>
      nd ← deref h obj;
      let node_str a := doc ← to_xml fuel' h a; Ok (render doc) in
      element ← copy_attributes (py_str node_str) (_attributes nd)
                  (minidom.createElement (_name nd));
      fold_left
        (fun acc e =>
           el ← acc; child ← to_xml fuel' h e; Ok (minidom.appendChild el child))
        (_elements nd) (Ok element)
  end.

(** [__str__(self)] *)
Definition __str__ (fuel : nat) (h : heap) (self : addr) : result string :=
  doc ← to_xml fuel h self; Ok (render doc).

(** ** Programs over the public surface *)

(** A chain of attribute accesses [cur.n1.n2...]; a step that does not
    evaluate to a node ends the chain with [AttributeError]. *)
Fixpoint resolve (h : heap) (cur : addr) (path : list string)
  : result (heap * addr) :=
  match path with
  | [] => Ok (h, cur)
  | n :: rest =>
      '(h', a) ← getattribute h cur n;
      match a with
      | Child c => resolve h' c rest
      | _ => Raise AttributeError
      end
  end.

(** The statement [root.n1.n2...nk(x=..., ...)], with the root at address 0. *)
Definition commit_path (fuel : nat) (h : heap) (path : list string) (kwargs : dict)
  : result heap :=
  '(h', t) ← resolve h 0 path; __call__ fuel h' t kwargs.

(** A sequence of such statements, all with the same path. *)
Fixpoint commit_all (fuel : nat) (h : heap) (path : list string) (ks : list dict)
  : result heap :=
  match ks with
  | [] => Ok h
  | k :: ks' => h' ← commit_path fuel h path k; commit_all fuel h' path ks'
  end.

(** A program keeps the references it has obtained; an instruction names
    one of them by position. *)
Inductive op :=
  | Access (i : nat) (name : string)
  | Commit (i : nat) (kwargs : dict).

Record state := mkState { st_heap : heap; st_refs : list addr }.

(** The state after [root = EasyXML(r)]. *)
Definition fresh (r : string) : state :=
  {| st_heap := [__init__ r]; st_refs := [0] |}.

Definition exec_op (fuel : nat) (st : state) (o : op) : result state :=
  match o with
  | Access i name =>
      match st_refs st !! i with
      | Some a =>
          '(h', v) ← getattribute (st_heap st) a name;
          match v with
          | Child c => Ok {| st_heap := h'; st_refs := st_refs st ++ [c] |}
          | _ => Ok {| st_heap := h'; st_refs := st_refs st |}
          end
      | None => Raise DanglingRef
      end
  | Commit i kwargs =>
      match st_refs st !! i with
      | Some a =>
          h' ← __call__ fuel (st_heap st) a kwargs;
          Ok {| st_heap := h'; st_refs := st_refs st |}
      | None => Raise DanglingRef
      end
  end.

Fixpoint exec (fuel : nat) (st : state) (prog : list op) : result state :=
  match prog with
  | [] => Ok st
  | o :: prog' => st' ← exec_op fuel st o; exec fuel st' prog'
  end.

(** The states a program can reach from a fresh root. *)
Inductive reachable (r : string) : state -> Prop :=
  | reach_fresh : reachable r (fresh r)
  | reach_step st o fuel st' :
      reachable r st -> exec_op fuel st o = Ok st' -> reachable r st'.

(** ** The examples of the docstrings *)

(** The program of the docstring of [__call__], printed. *)
Definition call_docstring_example : result string :=
  h ← commit_path 3 [__init__ "root"] ["a"; "b"; "c"] [];
  h ← commit_path 3 h ["a"; "b"; "c"] [];
  h ← commit_path 3 h ["a"] [];
  h ← commit_path 3 h ["a"; "b"; "c"] [];
  h ← commit_path 3 h ["a"; "b"; "c"] [];
  __str__ 4 h 0.

Definition call_docstring_text : string :=
  "<root>
  <a>
    <b>
      <c/>
      <c/>
    </b>
  </a>
  <a>
    <b>
      <c/>
      <c/>
    </b>
  </a>
</root>".

(** The program of the docstring of the class, printed. *)
Definition class_docstring_example : result string :=
  h ← commit_path 2 [__init__ "books"] ["book"] [("title", VStr "Example A")];
  h ← commit_path 2 h ["book"; "author"]
        [("name", VStr "John Smith"); ("age", VInt 57)];
  h ← commit_path 2 h ["book"; "publisher"] [("name", VStr "Publisher A")];
  h ← commit_path 2 h ["book"] [("title", VStr "Example B")];
  h ← commit_path 2 h ["book"; "author"]
        [("name", VStr "Jane Doe"); ("age", VInt 30)];
  h ← commit_path 2 h ["book"; "author"]
        [("name", VStr "James Cutter"); ("age", VInt 45)];
  h ← commit_path 2 h ["book"; "publisher"] [("name", VStr "Publisher B")];
  __str__ 3 h 0.

Definition quoted (s : string) : string := dquote +:+ s +:+ dquote.

Definition class_docstring_text : string :=
  "<books>
  <book title=" +:+ quoted "Example A" +:+ ">
    <author name=" +:+ quoted "John Smith" +:+ " age=" +:+ quoted "57" +:+ "/>
    <publisher name=" +:+ quoted "Publisher A" +:+ "/>
  </book>
  <book title=" +:+ quoted "Example B" +:+ ">
    <author name=" +:+ quoted "Jane Doe" +:+ " age=" +:+ quoted "30" +:+ "/>
    <author name=" +:+ quoted "James Cutter" +:+ " age=" +:+ quoted "45" +:+ "/>
    <publisher name=" +:+ quoted "Publisher B" +:+ "/>
  </book>
</books>".

(** * The vocabulary of the properties *)

(** ** The loop of [__call__] *)

(** The object that [__call__] allocates. *)
Definition called_object (nd : EasyXML) (kwargs : dict) : EasyXML :=
  set_attributes kwargs (set_parent (_parent nd) (__init__ (_name nd))).

(** The parent [pn] after one run of the loop body for a child [e] named [nm]. *)
Definition attached (pn : EasyXML) (nm : string) (e : addr) : EasyXML :=
  set_element_map (<[nm := e]> (_element_map pn))
                  (set_elements (_elements pn ++ [e]) pn).

(** ** Reserved names *)

(** C8 as the spec states it: an access to a name that begins with an
    underscore builds no cursor and evaluates to something the node
    already has, a field of its own or a member of its class. *)
Definition reserved_names_resolve_to_state : Prop :=
  ∀ (h : heap) self nd name,
    h !! self = Some nd ->
    startswith_underscore name = true ->
    ∃ v, getattribute h self name = Ok (h, v) ∧ ∀ c, v ≠ Child c.

(** ** Two commits of one path *)

(** [root.a.b.c(x=1)] followed by [root.a.b.c(x=2)]. *)
Definition commit_abc_twice (fuel : nat) (r : string) : result heap :=
  h ← commit_path fuel [__init__ r] ["a"; "b"; "c"] [("x", VInt 1)];
  commit_path fuel h ["a"; "b"; "c"] [("x", VInt 2)].

Definition abc_text : string :=
  "<root>
  <a>
    <b>
      <c x=" +:+ dquote +:+ "1" +:+ dquote +:+ "/>
      <c x=" +:+ dquote +:+ "2" +:+ dquote +:+ "/>
    </b>
  </a>
</root>".

(** ** Well-formed stores *)

Definition name_of (h : heap) (a : addr) : option string := _name <$> h !! a.

(** The most recently appended element of [l] whose name is [n]. *)
Fixpoint last_named (h : heap) (n : string) (l : list addr) : option addr :=
  match l with
  | [] => None
  | c :: l' =>
      match last_named h n l' with
      | Some b => Some b
      | None => if bool_decide (name_of h c = Some n) then Some c else None
      end
  end.

(** The invariant of the stores that the public operations build. *)
Record wf (h : heap) : Prop := mkWf {
  wf_root : ∃ nd, h !! 0 = Some nd ∧ _parent nd = None;
  wf_parent : ∀ a nd p, h !! a = Some nd -> _parent nd = Some p -> p < a;
  wf_child : ∀ p pn c, h !! p = Some pn -> c ∈ _elements pn ->
                       ∃ cn, h !! c = Some cn ∧ _parent cn = Some p;
  wf_map : ∀ p pn n, h !! p = Some pn ->
                     _element_map pn !! n = last_named h n (_elements pn);
  wf_name : ∀ a nd p, h !! a = Some nd -> _parent nd = Some p ->
                      startswith_underscore (_name nd) = false
}.

(** The state after [x = root.a; x(); y = root.a; y()]. *)
Definition two_siblings : state :=
  match exec 1 (fresh "root") [Access 0 "a"; Commit 1 []; Access 0 "a"; Commit 2 []] with
  | inr st => st
  | inl _ => fresh "root"
  end.

(** ** Cursors and committed nodes *)

Definition in_some_children (h : heap) (a : addr) : Prop :=
  ∃ p pn, h !! p = Some pn ∧ a ∈ _elements pn.

Definition in_some_map (h : heap) (a : addr) : Prop :=
  ∃ p pn, h !! p = Some pn ∧ a ∈ dict_values (_element_map pn).

(** An uncommitted cursor occurs in no children list and in no child map. *)
Definition uncommitted (h : heap) (a : addr) : Prop :=
  ¬ in_some_children h a ∧ ¬ in_some_map h a.

(** C5 as the spec states it: a committed node occurs in the children list
    of exactly one node and is the value stored under its own name in the
    child map of that node. *)
Definition committed_and_mapped (h : heap) (a : addr) (nd : EasyXML) : Prop :=
  ∃ p pn, h !! p = Some pn ∧ a ∈ _elements pn
          ∧ (∀ q qn, h !! q = Some qn -> a ∈ _elements qn -> q = p)
          ∧ _element_map pn !! _name nd = Some a.

(** C5 as the spec states it: every node other than the root is an
    uncommitted cursor or such a committed node. *)
Definition cursor_or_mapped_child (h : heap) : Prop :=
  ∀ a nd, a ≠ 0 -> h !! a = Some nd ->
          uncommitted h a ∨ committed_and_mapped h a nd.

(** ** Termination of the attach loop *)

(** [parent_chain h a n]: following [_parent] from [a] reaches, after [n]
    links, an object without parent; such a chain is finite and acyclic. *)
Inductive parent_chain (h : heap) : addr -> nat -> Prop :=
  | chain_top a nd :
      h !! a = Some nd -> _parent nd = None -> parent_chain h a 0
  | chain_link a nd p n :
      h !! a = Some nd -> _parent nd = Some p -> parent_chain h p n ->
      parent_chain h a (S n).

(** ** The committed tree and its text, as the spec describes them *)

(** The tree below a node: its name, the attribute mapping supplied at
    commit, and the trees of its children in stored order. *)
#[warnings="-register-all"]
Inductive Tree :=
  | TNode (name : string) (attributes : dict) (children : list Tree).

(** [tree_of h a t]: unfolding the store from [a] gives the finite tree [t]. *)
#[warnings="-register-all"]
Inductive tree_of (h : heap) : addr -> Tree -> Prop :=
  | tree_of_node a nd ts :
      h !! a = Some nd ->
      Forall2 (tree_of h) (_elements nd) ts ->
      tree_of h a (TNode (_name nd) (_attributes nd) ts).

Fixpoint height (t : Tree) : nat :=
  match t with
  | TNode _ _ ts => S (foldr (fun c acc => Nat.max (height c) acc) 0 ts)
  end.

(** Two spaces per nesting depth. *)
Fixpoint indent_of (depth : nat) : string :=
  match depth with
  | 0 => ""
  | S d => "  " +:+ indent_of d
  end.

(** A value that prints by itself: [str()] of it returns a text and
    reads nothing of the store.  A node prints through [__str__], and an
    object whose [__str__] raises has no string form. *)
Definition scalar (v : value) : bool :=
  match v with
  | VNode _ | VObject None => false
  | _ => true
  end.

(** The string form of a value that prints by itself; the other values
    have none of their own and are given the empty text. *)
Definition str (v : value) : string :=
  match v with
  | VInt z => pretty z
  | VStr s => s
  | VBool b => if b then "True" else "False"
  | VNone => "None"
  | VObject (Some s) => s
  | VNode _ | VObject None => ""
  end.

(** One attribute of a start tag: the value in its string form, escaped
    by the collaborator. *)
Definition attr_text (kv : string * value) : string :=
  " " +:+ kv.1 +:+ "=" +:+ dquote +:+ minidom.write_data (str kv.2) +:+ dquote.

Definition attrs_text (d : dict) : string :=
  foldr (fun kv acc => attr_text kv +:+ acc) "" d.

(** The lines of the depth-first pre-order rendering of [t] at nesting
    depth [depth]: the start tag with all attributes in insertion order,
    the children in stored order one level deeper, the end tag; a
    childless node is the single self-closing line. *)
Fixpoint spec_lines (depth : nat) (t : Tree) : list string :=
  match t with
  | TNode name attrs kids =>
      match kids with
      | [] => [indent_of depth +:+ "<" +:+ name +:+ attrs_text attrs +:+ "/>"]
      | _ :: _ =>
          [indent_of depth +:+ "<" +:+ name +:+ attrs_text attrs +:+ ">"]
          ++ flat_map (spec_lines (S depth)) kids
          ++ [indent_of depth +:+ "</" +:+ name +:+ ">"]
      end
  end.

Fixpoint join_lines (ls : list string) : string :=
  match ls with
  | [] => ""
  | [l] => l
  | l :: ls' => l +:+ newline +:+ join_lines ls'
  end.

(** The text of a tree: its lines separated by newlines, with no header
    and no white space before or after. *)
Definition spec_text (t : Tree) : string := join_lines (spec_lines 0 t).

(** A tree in which every attribute value prints by itself. *)
Fixpoint scalar_tree (t : Tree) : Prop :=
  match t with
  | TNode _ attrs kids =>
      Forall (fun kv => scalar kv.2 = true) attrs
      ∧ foldr (fun c acc => scalar_tree c ∧ acc) True kids
  end.

(** A tree whose attribute mappings are dicts. *)
Fixpoint dict_tree (t : Tree) : Prop :=
  match t with
  | TNode _ attrs kids =>
      is_dict attrs ∧ foldr (fun c acc => dict_tree c ∧ acc) True kids
  end.

(** The header pattern matches nowhere in [s]: at no position does
    [<?xml] begin with a [?>] after it on the same line. *)
Fixpoint pattern_free (s : string) : Prop :=
  match s with
  | EmptyString => True
  | String c s' => match_length (String c s') = None ∧ pattern_free s'
  end.

(** ** The element and the text that the code produces for a tree *)

(** The pairs of a dict with the values in string form. *)
Definition str_pairs (d : dict) : list (string * string) :=
  (fun kv => (kv.1, str kv.2)) <$> d.

(** The attributes that the first loop of [to_xml] leaves on an element. *)
Definition copied_attrs (d : dict) : list (string * string) :=
  fold_left
    (fun attrs k =>
       match dict_get k d with
       | Some v => minidom.assign k (str v) attrs
       | None => attrs
       end)
    (dict_keys d) [].

(** The DOM element that [to_xml] builds for a tree. *)
Fixpoint dom_of (t : Tree) : minidom.Element :=
  match t with
  | TNode name attrs kids => minidom.Elem name (copied_attrs attrs) (map dom_of kids)
  end.

(** Lines, each ended by a newline, as the pretty-printer writes them. *)
Definition lines_text (ls : list string) : string :=
  foldr (fun l acc => l +:+ newline +:+ acc) "" ls.

Fixpoint last_char (s : string) : option ascii :=
  match s with
  | EmptyString => None
  | String c s' =>
      match last_char s' with
      | Some c' => Some c'
      | None => Some c
      end
  end.

(** ** Serialization, as the spec states it *)

(** C6 as the spec states it: the text of every committed tree, with
    attribute values that have a string form, is the pre-order rendering
    of that tree. *)
Definition renders_every_tree : Prop :=
  ∀ (h : heap) a t fuel,
    tree_of h a t -> dict_tree t -> scalar_tree t -> height t ≤ fuel ->
    __str__ fuel h a = Ok (spec_text t).

(** ** Invoking the root, as the spec states it *)

(** C3 as the spec states it: after [root(A)] on a fresh root the text is
    the single element named [r] carrying the pairs of [A]. *)
Definition root_call_sets_attributes : Prop :=
  ∀ r (A : dict) fuel (h : heap),
    is_dict A -> Forall (fun kv => scalar kv.2 = true) A ->
    __call__ fuel [__init__ r] 0 A = Ok h ->
    __str__ 1 h 0 = Ok (spec_text (TNode r A [])).

(** ** Invoking a parentless node, as the spec states it *)

(** C4 as the spec states it: a call on a parentless node succeeds
    whatever the attribute mapping is. *)
Definition parentless_call_succeeds : Prop :=
  ∀ fuel (h : heap) self nd (kwargs : dict),
    h !! self = Some nd -> _parent nd = None ->
    ∃ h', __call__ fuel h self kwargs = Ok h'.

(** ** Repeated commits of one path *)

(** The expected tree: the ancestors nested one inside the other, the
    leaves below the last of them. *)
Fixpoint nest (ps : list string) (kids : list Tree) : list Tree :=
  match ps with
  | [] => kids
  | p :: ps' => [TNode p [] (nest ps' kids)]
  end.

Definition leaves (leaf : string) (ks : list dict) : list Tree :=
  (fun A => TNode leaf A []) <$> ks.

(** C2 as the spec states it: any N >= 1 commits of one leaf path succeed
    and leave N siblings under the shared parent, in commit order. *)
Definition repeated_commits_yield_siblings : Prop :=
  ∀ r ps leaf (A : dict) (ks : list dict) fuel,
    Forall (fun n => startswith_underscore n = false) (ps ++ [leaf]) ->
    S (length ps) ≤ fuel ->
    ∃ h, commit_all fuel [__init__ r] (ps ++ [leaf]) (A :: ks) = Ok h
         ∧ tree_of h 0 (TNode r [] (nest ps (leaves leaf (A :: ks)))).

(** The store after [root.a(x=root)] on a fresh root. *)
Definition self_valued : heap :=
  [mkEasyXML None "root" [2] [] {["a" := 2]};
   mkEasyXML (Some 0) "a" [] [] ∅;
   mkEasyXML (Some 0) "a" [] [("x", VNode 0)] ∅].

Section path_shape.
Context (r : string) (ps : list string) (leaf : string).

(** The node of the path at depth [i] (the root at 0, the ancestors at
    1 to [length ps]), with the children [kids]; its map names the last
    of them. *)
Definition level_node (i : nat) (kids : list addr) : EasyXML :=
  {| _parent := match i with 0 => None | S j => Some j end;
     _name := default "" ((r :: ps ++ [leaf]) !! i);
     _elements := kids;
     _attributes := [];
     _element_map :=
       match last kids with
       | Some c => {[ default "" ((ps ++ [leaf]) !! i) := c ]}
       | None => ∅
       end |}.

Definition leaf_node (A : dict) : EasyXML :=
  mkEasyXML (Some (length ps)) leaf [] A ∅.

(** The children at depth [i] when the depths below [j] are still bare. *)
Definition level_kids (j : nat) (es : list addr) (i : nat) : list addr :=
  if decide (i < j) then [] else if decide (i < length ps) then [S i] else es.

Definition shape (j : nat) (es : list addr) (h : heap) : Prop :=
  ∀ i, i ≤ length ps -> h !! i = Some (level_node i (level_kids j es i)).

(** The store after some commits of the path: node [i] is the ancestor at
    depth [i], and the leaves [es] carry the mappings [ks]. *)
Record spine (h : heap) (es : list addr) (ks : list dict) : Prop := mkSpine {
  spine_shape : shape 0 es h;
  spine_leaves : Forall2 (fun e A => h !! e = Some (leaf_node A)) es ks;
  spine_below : Forall (fun e => length ps < e) es
}.

(** The node that the loop is at when the depths below [j] are bare. *)
Definition cursor_at (e' : addr) (j : nat) : addr :=
  if decide (j = S (length ps)) then e' else j.

End path_shape.


(** ** Ancestors, and what an operation leaves in place *)

(** [ancestor h a c]: [c] is reached from [a] by one or more [_parent] links. *)
Inductive ancestor (h : heap) : addr -> addr -> Prop :=
  | ancestor_parent a nd p :
      h !! a = Some nd -> _parent nd = Some p -> ancestor h a p
  | ancestor_link a nd p c :
      h !! a = Some nd -> _parent nd = Some p -> ancestor h p c ->
      ancestor h a c.

(** [grown P nd nd']: the object [nd'] is [nd] with, at most, more
    children appended and map entries set.  The name, the parent and the
    attributes are those of [nd]; the children of [nd] are the first
    children of [nd'], in the same order, and every further child
    satisfies [P]. *)
Definition grown (P : addr -> Prop) (nd nd' : EasyXML) : Prop :=
  _name nd' = _name nd ∧ _parent nd' = _parent nd
  ∧ _attributes nd' = _attributes nd
  ∧ ∃ more, _elements nd' = _elements nd ++ more ∧ Forall P more.

(** A cursor as [__getattr__] makes it: a parent, and nothing else yet. *)
Definition is_cursor (nd : EasyXML) : Prop :=
  is_Some (_parent nd) ∧ _elements nd = [] ∧ _attributes nd = []
  ∧ _element_map nd = ∅.

(** The first character of [s], if any. *)
Definition head_char (s : string) : option ascii :=
  match s with
  | EmptyString => None
  | String c _ => Some c
  end.

(** Neither the first nor the last character of [s] is white space. *)
Definition trimmed (s : string) : Prop :=
  (∀ c, head_char s = Some c -> is_space c = false)
  ∧ (∀ c, last_char s = Some c -> is_space c = false).

(** The loop of [__call__] stops at [p]: it has no parent, or it is an
    entry of its parent's map. *)
Definition settled (h : heap) (p : addr) : Prop :=
  ∃ pn, h !! p = Some pn ∧
    match _parent pn with
    | None => True
    | Some q => ∃ qn, h !! q = Some qn ∧ p ∈ dict_values (_element_map qn)
    end.

(** The state after [x = root.a; x(); y = root.a; y(); z = y.b]: [y] is
    the first [a], no longer the map entry, and [z] a cursor below it. *)
Definition stale_cursor : state :=
  match exec 1 (fresh "root")
          [Access 0 "a"; Commit 1 []; Access 0 "a"; Commit 2 []; Access 2 "b"] with
  | inr st => st
  | inl _ => fresh "root"
  end.

(** [held h p]: [p] is the root, or it is in the children list of its parent. *)
Definition held (h : heap) (p : addr) : Prop :=
  p = 0 ∨ ∃ pn q qn, h !! p = Some pn ∧ _parent pn = Some q
                     ∧ h !! q = Some qn ∧ p ∈ _elements qn.

(** [connected h a]: [a] is the root or is reached from the root through
    children lists; such a node is part of what the root prints. *)
Inductive connected (h : heap) : addr -> Prop :=
  | connected_root : connected h 0
  | connected_child p pn c :
      connected h p -> h !! p = Some pn -> c ∈ _elements pn -> connected h c.

(** No object has, as parent, a parentless object other than the root. *)
Definition parents_rooted (h : heap) : Prop :=
  ∀ a nd p, h !! a = Some nd -> _parent nd = Some p ->
            p = 0 ∨ ∃ pn q, h !! p = Some pn ∧ _parent pn = Some q.

(** Every object that has children is held. *)
Definition parents_held (h : heap) : Prop :=
  ∀ p pn, h !! p = Some pn -> _elements pn ≠ [] -> held h p.

(** A reference a program can hold: the root, or an object with a parent. *)
Definition rooted_ref (h : heap) (a : addr) : Prop :=
  a = 0 ∨ ∃ nd q, h !! a = Some nd ∧ _parent nd = Some q.

(** A store in which every attribute value prints by itself. *)
Definition scalar_store (h : heap) : Prop :=
  ∀ a nd, h !! a = Some nd ->
          Forall (fun kv => scalar kv.2 = true) (_attributes nd).

(** The state after [b = books.book; b(title='Example A', year=2010)]. *)
Definition one_book : state :=
  match exec 1 (fresh "books")
          [Access 0 "book";
           Commit 1 [("title", VStr "Example A"); ("year", VInt 2010)]] with
  | inr st => st
  | inl _ => fresh "books"
  end.

(** * Properties *)

(** ** The examples of the docstrings *)

(** The embedding prints the program of the docstring of [__call__] as
    the docstring says. *)
Example call_docstring_prints : call_docstring_example = Ok call_docstring_text.
Proof. by vm_compute. Qed.

(** The embedding prints the program of the class docstring as the
    docstring says. *)
Example class_docstring_prints : class_docstring_example = Ok class_docstring_text.
Proof. by vm_compute. Qed.

(** ** Basic facts about the result monad and the store *)

Lemma deref_Some (h : heap) a nd : h !! a = Some nd -> deref h a = Ok nd.
Proof. unfold deref. by intros ->. Qed.

Lemma deref_Ok (h : heap) a nd : deref h a = Ok nd -> h !! a = Some nd.
Proof. unfold deref. destruct (h !! a); by inversion 1. Qed.

Lemma bind_Ok {A B} (m : result A) (k : A -> result B) b :
  (x ← m; k x) = Ok b -> ∃ a, m = Ok a ∧ k a = Ok b.
Proof. destruct m as [e|a]; [by inversion 1|]. intros H. by exists a. Qed.

Lemma alter_last (f : EasyXML -> EasyXML) (h : heap) nd :
  alter f (length h) (h ++ [nd]) = h ++ [f nd].
Proof.
  induction h as [|x h IH]; [done|]. simpl. by rewrite <-IH.
Qed.

Lemma elem_of_dict_values (m : gmap string addr) a :
  a ∈ dict_values m ↔ ∃ k, m !! k = Some a.
Proof.
  unfold dict_values. rewrite list_elem_of_fmap. split.
  - intros [[k v] [-> Hin]]. exists k. by apply elem_of_map_to_list.
  - intros [k Hk]. exists (k, a). split; [done|]. by apply elem_of_map_to_list.
Qed.

Lemma call_counted_unfold fuel (h : heap) self nd kwargs :
  binds_self kwargs = false ->
  h !! self = Some nd ->
  call_counted fuel h self kwargs
  = attach fuel (h ++ [called_object nd kwargs]) (length h).
Proof.
  intros Hself Hnd. unfold call_counted. rewrite Hself, (deref_Some _ _ _ Hnd). simpl.
  by rewrite !alter_last.
Qed.

(** A keyword argument named [self] is rejected before anything is done. *)
Lemma call_binds_self fuel (h : heap) self kwargs :
  binds_self kwargs = true ->
  call_counted fuel h self kwargs = Raise TypeError
  ∧ __call__ fuel h self kwargs = Raise TypeError.
Proof. intros Hself. unfold __call__, call_counted. by rewrite Hself. Qed.

(** A call that returns was given no keyword argument named [self]. *)
Lemma call_counted_Ok fuel (h : heap) self kwargs out :
  call_counted fuel h self kwargs = Ok out -> binds_self kwargs = false.
Proof. unfold call_counted. by destruct (binds_self kwargs). Qed.

Lemma call_Ok fuel (h : heap) self kwargs h' :
  __call__ fuel h self kwargs = Ok h' -> binds_self kwargs = false.
Proof.
  unfold __call__. destruct (call_counted fuel h self kwargs) as [err|out] eqn:Hc;
    [done|]. intros _. by eapply call_counted_Ok.
Qed.

(** ** Fuel *)

(** More fuel never changes a result that has been reached. *)
Lemma attach_fuel_mono fuel fuel' (h : heap) e out :
  attach fuel h e = Ok out -> fuel ≤ fuel' -> attach fuel' h e = Ok out.
Proof.
  revert fuel' h e out.
  induction fuel as [|fuel IH]; intros fuel' h e out Hrun Hle.
  - destruct fuel'; [done|]. simpl in *.
    destruct (loop_test h e) as [err|[p|]]; simpl in *; by try done.
  - destruct fuel' as [|fuel']; [lia|]. simpl in *.
    destruct (loop_test h e) as [err|[p|]]; simpl in *; try done.
    destruct (loop_body h e p) as [err|h']; simpl in *; try done.
    destruct (attach fuel h' p) as [err|[h'' n]] eqn:Hrec; simpl in *; try done.
    rewrite (IH fuel' h' p (h'', n) Hrec); [done|lia].
Qed.

Lemma fold_children_ext (f g : addr -> result minidom.Element) l acc :
  (∀ e, e ∈ l -> f e = g e) ->
  fold_left (fun acc e => el ← acc; child ← f e; Ok (minidom.appendChild el child)) l acc
  = fold_left (fun acc e => el ← acc; child ← g e; Ok (minidom.appendChild el child)) l acc.
Proof.
  revert acc. induction l as [|x l IH]; intros acc Hfg; [done|]. simpl.
  rewrite (Hfg x) by left. apply IH. intros e He. apply Hfg. by right.
Qed.

Lemma fold_children_Raise (f : addr -> result minidom.Element) l err :
  fold_left (fun acc e => el ← acc; child ← f e; Ok (minidom.appendChild el child)) l (Raise err)
  = Raise err.
Proof. induction l as [|x l IH]; [done|]. simpl. apply IH. Qed.

(** When the fold over the children succeeds, every child was converted. *)
Lemma fold_children_Ok (f : addr -> result minidom.Element) l acc out :
  fold_left (fun acc e => el ← acc; child ← f e; Ok (minidom.appendChild el child)) l acc
  = Ok out ->
  ∀ e, e ∈ l -> ∃ c, f e = Ok c.
Proof.
  revert acc. induction l as [|x l IH]; intros acc Hrun e He.
  - by apply elem_of_nil in He.
  - simpl in Hrun. apply elem_of_cons in He as [->|He].
    + destruct acc as [err|el]; simpl in Hrun.
      { by rewrite fold_children_Raise in Hrun. }
      destruct (f x) as [err|c]; simpl in Hrun; [|by eexists].
      by rewrite fold_children_Raise in Hrun.
    + by eapply IH.
Qed.

Lemma py_str_mono (f g : addr -> result string) v s :
  (∀ a t, f a = Ok t -> g a = Ok t) -> py_str f v = Ok s -> py_str g v = Ok s.
Proof. intros Hfg. destruct v; simpl; try done. apply Hfg. Qed.

Lemma copy_attributes_Raise (f : value -> result string) (d : dict) ks err :
  fold_left
    (fun acc k =>
       el ← acc;
       match dict_get k d with
       | Some v => s ← f v; Ok (minidom.setAttribute k s el)
       | None => Ok el
       end) ks (Raise err)
  = Raise err.
Proof. induction ks as [|k ks IH]; [done|]. simpl. apply IH. Qed.

(** The first loop of [to_xml] gives the same element with any [str]
    that returns at least the texts the first one returned. *)
Lemma copy_attributes_mono (f g : value -> result string) (d : dict) element out :
  (∀ v s, f v = Ok s -> g v = Ok s) ->
  copy_attributes f d element = Ok out -> copy_attributes g d element = Ok out.
Proof.
  intros Hfg. unfold copy_attributes. generalize (dict_keys d). intros ks.
  revert element. induction ks as [|k ks IH]; intros element Hrun; [done|].
  simpl in *. destruct (dict_get k d) as [v|]; [|by apply IH].
  destruct (f v) as [err|t] eqn:Hv; simpl in Hrun.
  { by rewrite copy_attributes_Raise in Hrun. }
  rewrite (Hfg _ _ Hv). simpl. by apply IH.
Qed.

Lemma to_xml_fuel_mono fuel fuel' (h : heap) obj el :
  to_xml fuel h obj = Ok el -> fuel ≤ fuel' -> to_xml fuel' h obj = Ok el.
Proof.
  revert fuel' obj el.
  induction fuel as [|fuel IH]; intros fuel' obj el Hrun Hle; [done|].
  destruct fuel' as [|fuel']; [lia|]. simpl in *.
  destruct (deref h obj) as [err|nd]; simpl in *; [done|].
  destruct (copy_attributes _ _ _) as [err|element] eqn:Hattrs in Hrun;
    simpl in Hrun; [done|].
  assert (Hstr : ∀ a t, (doc ← to_xml fuel h a; Ok (render doc)) = Ok t ->
                         (doc ← to_xml fuel' h a; Ok (render doc)) = Ok t).
  { intros a t Ha. destruct (to_xml fuel h a) as [err|doc] eqn:Hdoc;
      simpl in Ha; [done|]. rewrite (IH fuel' a doc Hdoc) by lia. done. }
  rewrite (copy_attributes_mono _ _ _ _ _ (fun v s => py_str_mono _ _ v s Hstr) Hattrs).
  simpl. rewrite <-Hrun. symmetry. apply fold_children_ext.
  intros e He. destruct (fold_children_Ok _ _ _ _ Hrun e He) as [c Hc].
  rewrite Hc. symmetry. apply IH; [done|lia].
Qed.

(** ** Construction *)

(** C7: the spec and the docstring of [__init__] promise a root built from
    a name and an optional set of initial attributes.  The code accepts the
    name alone: a call without attributes gives a parentless, childless
    node with no attributes, and a call that supplies any attribute is
    rejected with [TypeError]. *)
Theorem construct_takes_no_attributes (name : string) :
  construct name [] = Ok (mkEasyXML None name [] [] ∅)
  ∧ ∀ kv kwargs, construct name (kv :: kwargs) = Raise TypeError.
Proof. split; [reflexivity|]. intros kv kwargs. reflexivity. Qed.

(** ** Invoking a parentless node *)

Lemma call_on_parentless fuel (h : heap) self nd kwargs :
  binds_self kwargs = false ->
  h !! self = Some nd ->
  _parent nd = None ->
  let h' := h ++ [called_object nd kwargs] in
  call_counted fuel h self kwargs = Ok (h', 0)
  ∧ __call__ fuel h self kwargs = Ok h'
  ∧ (∀ a x, h !! a = Some x -> h' !! a = Some x)
  ∧ (∀ a x, h' !! a = Some x -> length h ≤ a -> _parent x = None ∧ _elements x = []).
Proof.
  intros Hself Hnd Hpar h'.
  assert (Hcall : call_counted fuel h self kwargs = Ok (h', 0)).
  { rewrite (call_counted_unfold _ _ _ _ _ Hself Hnd). fold h'.
    assert (Hnew : h' !! length h = Some (called_object nd kwargs)).
    { unfold h'. by rewrite lookup_app_r, Nat.sub_diag. }
    destruct fuel; simpl; unfold loop_test;
      rewrite (deref_Some _ _ _ Hnew); simpl; by rewrite Hpar. }
  split; [done|]. split.
  { unfold __call__. by rewrite Hcall. }
  split.
  - intros a x Hx. unfold h'. by apply lookup_app_l_Some.
  - intros a x Hx Hge. unfold h' in Hx. rewrite lookup_app_r in Hx by done.
    destruct (a - length h) as [|k]; simpl in Hx; [|done].
    inversion Hx; subst x. by simpl.
Qed.

(** C4, counterexample: [root(self=1)] raises [TypeError]; a call on a
    parentless node does not succeed with every attribute mapping. *)
Lemma self_keyword_raises_on_root :
  __call__ 0 [__init__ "root"] 0 [("self", VInt 1)] = Raise TypeError
  ∧ ¬ parentless_call_succeeds.
Proof.
  split; [reflexivity|]. intros Hclaim.
  destruct (Hclaim 0 [__init__ "root"] 0 (__init__ "root") [("self", VInt 1)]
              eq_refl eq_refl) as [h' Hh'].
  discriminate Hh'.
Qed.

(** C4, amended: invoking a node whose parent is none with keyword
    arguments none of which is named [self] succeeds with any fuel, runs
    the loop body zero times, and leaves every object of the store as it
    was; the only effect is the allocation of one unattached object.  With
    a keyword argument named [self] the call raises [TypeError] instead,
    before anything is done. *)
Theorem call_parentless_is_noop fuel (h : heap) self nd kwargs :
  h !! self = Some nd ->
  _parent nd = None ->
  let h' := h ++ [called_object nd kwargs] in
  (binds_self kwargs = false ->
     call_counted fuel h self kwargs = Ok (h', 0)
     ∧ __call__ fuel h self kwargs = Ok h'
     ∧ (∀ a x, h !! a = Some x -> h' !! a = Some x)
     ∧ (∀ a x, h' !! a = Some x -> length h ≤ a ->
          _parent x = None ∧ _elements x = []))
  ∧ (binds_self kwargs = true ->
       __call__ fuel h self kwargs = Raise TypeError).
Proof.
  intros Hnd Hpar h'. split.
  - intros Hself. by apply call_on_parentless.
  - intros Hself. by apply call_binds_self.
Qed.

Lemma call_parentless_is_noop_witness :
  __call__ 0 [__init__ "root"] 0 [("x", VInt 1)]
  = Ok ([__init__ "root"] ++ [called_object (__init__ "root") [("x", VInt 1)]]).
Proof.
  exact (proj1 (proj2 (proj1 (call_parentless_is_noop 0 [__init__ "root"] 0
                                (__init__ "root") [("x", VInt 1)] eq_refl eq_refl)
                             eq_refl))).
Defined.

(** ** Reserved names *)

(** C8, counterexample: [root._foo] on a fresh root raises
    [AttributeError]; no internal state is returned. *)
Lemma reserved_name_may_raise :
  getattribute [__init__ "root"] 0 "_foo" = Raise AttributeError
  ∧ ¬ reserved_names_resolve_to_state.
Proof.
  split; [reflexivity|]. intros Hclaim.
  destruct (Hclaim [__init__ "root"] 0 (__init__ "root") "_foo" eq_refl eq_refl)
    as (v & Hv & _).
  discriminate Hv.
Qed.

(** C8, amended: for a name that begins with an underscore, [__getattr__]
    raises [AttributeError] without reading the store, so it neither
    builds a cursor nor consults or changes any child map.  The access as
    a whole leaves the store unchanged and never evaluates to a node: it
    gives the node's own field for the five field names, the member of
    the class or of its base [object] for the names that ordinary lookup
    finds there, and [AttributeError] for every other name. *)
Theorem reserved_names_bypass_children name :
  startswith_underscore name = true ->
  (∀ (h : heap) self, __getattr__ h self name = Raise AttributeError)
  ∧ ∀ (h : heap) self nd,
      h !! self = Some nd ->
      (∀ h' c, getattribute h self name ≠ Ok (h', Child c))
      ∧ match instance_dict nd name with
        | Some f => getattribute h self name = Ok (h, Field f)
        | None =>
            getattribute h self name
            = if bool_decide (name ∈ class_namespace)
              then Ok (h, ClassAttr name) else Raise AttributeError
        end.
Proof.
  intros Hus.
  assert (Hhook : ∀ (h : heap) self, __getattr__ h self name = Raise AttributeError).
  { intros h self. unfold __getattr__. by rewrite Hus. }
  split; [done|]. intros h self nd Hnd.
  unfold getattribute. rewrite (deref_Some _ _ _ Hnd). simpl.
  destruct (instance_dict nd name) as [f|]; [by split|].
  case_bool_decide; [by split|]. rewrite Hhook. by split.
Qed.

(** Names that the class inherits from [object] are found by ordinary
    lookup, like the fields and the methods of the class itself. *)
Example inherited_names_are_found :
  let h := [__init__ "root"] in
  getattribute h 0 "__class__" = Ok (h, ClassAttr "__class__")
  ∧ getattribute h 0 "__dict__" = Ok (h, ClassAttr "__dict__")
  ∧ getattribute h 0 "__repr__" = Ok (h, ClassAttr "__repr__")
  ∧ getattribute h 0 "__hash__" = Ok (h, ClassAttr "__hash__")
  ∧ getattribute h 0 "__eq__" = Ok (h, ClassAttr "__eq__")
  ∧ getattribute h 0 "__str__" = Ok (h, ClassAttr "__str__")
  ∧ getattribute h 0 "_name" = Ok (h, Field (FName "root")).
Proof. repeat split. Qed.

Lemma reserved_names_bypass_children_witness :
  __getattr__ [__init__ "root"] 0 "_foo" = Raise AttributeError.
Proof.
  exact (proj1 (reserved_names_bypass_children "_foo" eq_refl) [__init__ "root"] 0).
Defined.

(** ** Two commits of one path *)

Lemma call_fuel_mono fuel fuel' (h : heap) self kwargs h' :
  __call__ fuel h self kwargs = Ok h' -> fuel ≤ fuel' ->
  __call__ fuel' h self kwargs = Ok h'.
Proof.
  unfold __call__, call_counted. intros Hrun Hle.
  destruct (binds_self kwargs); [done|].
  destruct (deref h self) as [err|nd]; simpl in *; [done|].
  destruct (attach fuel _ _) as [err|[h'' n]] eqn:Hat; simpl in Hrun; [done|].
  by rewrite (attach_fuel_mono _ _ _ _ _ Hat Hle).
Qed.

Lemma commit_path_fuel_mono fuel fuel' (h : heap) path kwargs h' :
  commit_path fuel h path kwargs = Ok h' -> fuel ≤ fuel' ->
  commit_path fuel' h path kwargs = Ok h'.
Proof.
  unfold commit_path. intros Hrun Hle.
  destruct (resolve h 0 path) as [err|[h1 t]]; simpl in *; [done|].
  by eapply call_fuel_mono.
Qed.

(** C1: on a fresh root, [root.a.b.c(x=1)] then [root.a.b.c(x=2)] builds a
    tree in which [a] and [b] occur once each, the first commit creating
    them and the second reusing them, and [b] has exactly two children
    named [c], carrying [x="1"] and [x="2"] in commit order; for the root
    named [root] the printed text is the corresponding indented markup. *)
Theorem two_commits_share_ancestors (r : string) (fuel fuel' : nat) :
  3 ≤ fuel -> 4 ≤ fuel' ->
  ∃ h,
    commit_abc_twice fuel r = Ok h
    ∧ to_xml fuel' h 0
      = Ok (minidom.Elem r []
              [minidom.Elem "a" []
                 [minidom.Elem "b" []
                    [minidom.Elem "c" [("x", "1")] [];
                     minidom.Elem "c" [("x", "2")] []]]])
    ∧ (r = "root" -> __str__ fuel' h 0 = Ok abc_text).
Proof.
  intros Hfuel Hfuel'.
  destruct (commit_abc_twice 3 r) as [err|h] eqn:Hrun;
    [by vm_compute in Hrun|].
  exists h. split; [|split].
  - unfold commit_abc_twice in *.
    destruct (commit_path 3 [__init__ r] _ _) as [err|h1] eqn:H1;
      simpl in Hrun; [done|].
    rewrite (commit_path_fuel_mono _ _ _ _ _ _ H1 Hfuel). simpl.
    by apply (commit_path_fuel_mono 3).
  - apply (to_xml_fuel_mono 4); [|done].
    vm_compute in Hrun. inversion Hrun; subst h. vm_compute. reflexivity.
  - intros ->. unfold __str__.
    assert (Hdoc : to_xml fuel' h 0 = to_xml 4 h 0).
    { vm_compute in Hrun. inversion Hrun; subst h.
      apply (to_xml_fuel_mono 4); [by vm_compute|done]. }
    rewrite Hdoc. vm_compute in Hrun. inversion Hrun; subst h.
    vm_compute. reflexivity.
Qed.

Lemma two_commits_share_ancestors_witness :
  ∃ h, commit_abc_twice 3 "root" = Ok h ∧ __str__ 4 h 0 = Ok abc_text.
Proof.
  destruct (two_commits_share_ancestors "root" 3 4) as (h & Hrun & _ & Htext);
    [lia|lia|].
  exists h. split; [exact Hrun|exact (Htext eq_refl)].
Defined.

(** ** Well-formed stores *)

Section last_named.
Context (h : heap).

Lemma last_named_snoc n l e :
  last_named h n (l ++ [e])
  = if bool_decide (name_of h e = Some n) then Some e else last_named h n l.
Proof.
  induction l as [|c l IH]; simpl; [done|].
  rewrite IH. by case_bool_decide.
Qed.

Lemma last_named_ext h' n l :
  (∀ c, c ∈ l -> name_of h' c = name_of h c) ->
  last_named h' n l = last_named h n l.
Proof.
  induction l as [|c l IH]; intros Hext; simpl; [done|].
  rewrite IH by (intros; apply Hext; by right).
  by rewrite (Hext c) by left.
Qed.

Lemma last_named_None n l :
  last_named h n l = None ↔ ∀ c, c ∈ l -> name_of h c ≠ Some n.
Proof.
  induction l as [|c l IH]; simpl.
  - split; [|done]. intros _ c Hc. by apply elem_of_nil in Hc.
  - destruct (last_named h n l) as [b|].
    + split; [done|]. intros Hall. exfalso.
      assert (Hn : Some b = None); [|done].
      apply IH. intros x Hx. apply Hall. by right.
    + case_bool_decide as Hc.
      * split; [done|]. intros Hall. exfalso. by apply (Hall c); [left|].
      * split; [|done]. intros _ x [->|Hx]%elem_of_cons; [done|].
        by apply (proj1 IH).
Qed.

(** [last_named] spelled out: [b] occurs in [l], has the name [n], and
    nothing after that occurrence has the name [n]. *)
Lemma last_named_Some n l b :
  last_named h n l = Some b ↔
  ∃ l1 l2, l = l1 ++ b :: l2 ∧ name_of h b = Some n
           ∧ ∀ c, c ∈ l2 -> name_of h c ≠ Some n.
Proof.
  split.
  - induction l as [|c l IH]; simpl; [done|].
    destruct (last_named h n l) as [b'|] eqn:Hl.
    + intros [= ->]. destruct (IH eq_refl) as (l1 & l2 & -> & Hb & Hafter).
      by exists (c :: l1), l2.
    + case_bool_decide as Hc; [|done]. intros [= ->].
      exists [], l. split; [done|]. split; [done|]. by apply last_named_None.
  - intros (l1 & l2 & -> & Hb & Hafter).
    induction l1 as [|c l1 IH]; simpl.
    + rewrite (proj2 (last_named_None n l2) Hafter). by rewrite bool_decide_true.
    + by rewrite IH.
Qed.

Lemma last_named_elem n l b :
  last_named h n l = Some b -> b ∈ l ∧ name_of h b = Some n.
Proof.
  intros (l1 & l2 & -> & Hb & _)%last_named_Some. split; [|done].
  apply elem_of_app. right. by left.
Qed.
End last_named.

Lemma loop_body_eq (h : heap) e p nd pn :
  h !! e = Some nd -> h !! p = Some pn ->
  loop_body h e p = Ok (<[p := attached pn (_name nd) e]> h).
Proof.
  intros He Hp. unfold loop_body.
  by rewrite (deref_Some _ _ _ He), (deref_Some _ _ _ Hp).
Qed.

Lemma name_of_app (h l : heap) a :
  a < length h -> name_of (h ++ l) a = name_of h a.
Proof. intros Hlt. unfold name_of. by rewrite lookup_app_l. Qed.

Lemma name_of_insert (h : heap) p pn pn' a :
  h !! p = Some pn -> _name pn' = _name pn ->
  name_of (<[p := pn']> h) a = name_of h a.
Proof.
  intros Hp Hname. unfold name_of.
  destruct (decide (p = a)) as [->|Hne].
  - rewrite list_lookup_insert_eq by (by eapply lookup_lt_Some).
    rewrite Hp. simpl. by rewrite Hname.
  - by rewrite list_lookup_insert_ne.
Qed.

(** Allocation of an object without children keeps the store well formed. *)
Lemma wf_alloc (h : heap) nd :
  wf h ->
  (∀ p, _parent nd = Some p ->
        p < length h ∧ startswith_underscore (_name nd) = false) ->
  _elements nd = [] -> _element_map nd = ∅ ->
  wf (h ++ [nd]).
Proof.
  intros Hwf Hpar Hel Hmap. split.
  - destruct (wf_root _ Hwf) as (rt & Hrt & Hnone).
    exists rt. split; [by apply lookup_app_l_Some|done].
  - intros a x p [[Hlt Hx]|[-> <-]]%lookup_snoc_Some Hp.
    + by eapply wf_parent.
    + by destruct (Hpar _ Hp).
  - intros p pn c [[Hlt Hpn]|[-> <-]]%lookup_snoc_Some Hc.
    + destruct (wf_child _ Hwf _ _ _ Hpn Hc) as (cn & Hcn & Hcp).
      exists cn. split; [by apply lookup_app_l_Some|done].
    + rewrite Hel in Hc. by apply elem_of_nil in Hc.
  - intros p pn n [[Hlt Hpn]|[-> <-]]%lookup_snoc_Some.
    + rewrite (wf_map _ Hwf _ _ n Hpn). symmetry. apply last_named_ext.
      intros c Hc. apply name_of_app.
      destruct (wf_child _ Hwf _ _ _ Hpn Hc) as (cn & Hcn & _).
      by eapply lookup_lt_Some.
    + by rewrite Hel, Hmap.
  - intros a x p [[Hlt Hx]|[-> <-]]%lookup_snoc_Some Hp.
    + by eapply wf_name.
    + by destruct (Hpar _ Hp).
Qed.

(** One run of the loop body keeps the store well formed. *)
Lemma wf_attached (h : heap) e nd p pn :
  wf h -> h !! e = Some nd -> _parent nd = Some p -> h !! p = Some pn ->
  wf (<[p := attached pn (_name nd) e]> h).
Proof.
  intros Hwf He Hpar Hp.
  assert (Hpe : p < e) by (by eapply wf_parent).
  assert (Hplt : p < length h) by (by eapply lookup_lt_Some).
  assert (Hnames : ∀ a, name_of (<[p := attached pn (_name nd) e]> h) a = name_of h a).
  { intros a. by eapply name_of_insert. }
  split.
  - destruct (wf_root _ Hwf) as (rt & Hrt & Hnone).
    destruct (decide (p = 0)) as [->|Hne].
    + exists (attached pn (_name nd) e).
      split; [by apply list_lookup_insert_eq|]. simpl. congruence.
    + exists rt. by rewrite list_lookup_insert_ne.
  - intros a x q [(<- & <- & _)|[Hne Hx]]%list_lookup_insert_Some Hq.
    + simpl in Hq. by eapply wf_parent.
    + by eapply wf_parent.
  - assert (Hkeep : ∀ c cn q, h !! c = Some cn -> _parent cn = Some q ->
        ∃ cn', <[p := attached pn (_name nd) e]> h !! c = Some cn'
               ∧ _parent cn' = Some q).
    { intros c cn q Hc Hq. destruct (decide (p = c)) as [->|Hne].
      - exists (attached pn (_name nd) e).
        split; [by apply list_lookup_insert_eq|]. simpl. congruence.
      - exists cn. by rewrite list_lookup_insert_ne. }
    intros q qn c [(<- & <- & _)|[Hne Hq]]%list_lookup_insert_Some Hc.
    + simpl in Hc. apply elem_of_app in Hc as [Hc|Hc].
      * destruct (wf_child _ Hwf _ _ _ Hp Hc) as (cn & Hcn & Hcp). by eapply Hkeep.
      * apply list_elem_of_singleton in Hc as ->. by eapply Hkeep.
    + destruct (wf_child _ Hwf _ _ _ Hq Hc) as (cn & Hcn & Hcp). by eapply Hkeep.
  - intros q qn n [(<- & <- & _)|[Hne Hq]]%list_lookup_insert_Some.
    + simpl. rewrite (last_named_ext h) by done. rewrite last_named_snoc.
      assert (Hne : name_of h e = Some (_name nd)) by (unfold name_of; by rewrite He).
      rewrite Hne. case_bool_decide as Hn.
      * inversion Hn; subst n. by rewrite lookup_insert_eq.
      * rewrite lookup_insert_ne by congruence. by apply (wf_map _ Hwf _ _ n Hp).
    + rewrite (last_named_ext h) by done. by apply (wf_map _ Hwf _ _ n Hq).
  - intros a x q [(<- & <- & _)|[Hne Hx]]%list_lookup_insert_Some Hq.
    + simpl in *. by eapply wf_name.
    + by eapply wf_name.
Qed.

(** The loop keeps the store well formed and allocates nothing. *)
Lemma wf_attach fuel (h : heap) e h' k :
  wf h -> attach fuel h e = Ok (h', k) -> wf h' ∧ length h' = length h.
Proof.
  revert h e h' k. induction fuel as [|fuel IH]; intros h e h' k Hwf Hrun;
    simpl in Hrun.
  - destruct (loop_test h e) as [err|[p|]]; simpl in Hrun; try done.
    by inversion Hrun; subst.
  - destruct (loop_test h e) as [err|[p|]] eqn:Htest; simpl in Hrun; try done;
      [|by inversion Hrun; subst].
    unfold loop_test in Htest.
    destruct (deref h e) as [err|nd] eqn:He; simpl in Htest; [done|].
    destruct (_parent nd) as [p'|] eqn:Hpar; [|done].
    destruct (deref h p') as [err|pn] eqn:Hp; simpl in Htest; [done|].
    case_bool_decide; [done|]. inversion Htest; subst p'.
    apply deref_Ok in He, Hp.
    rewrite (loop_body_eq _ _ _ _ _ He Hp) in Hrun. simpl in Hrun.
    destruct (attach fuel _ p) as [err|[h'' n]] eqn:Hrec; simpl in Hrun; [done|].
    inversion Hrun; subst h'' k.
    destruct (IH _ _ _ _ (wf_attached _ _ _ _ _ Hwf He Hpar Hp) Hrec) as [Hwf' Hlen].
    split; [done|]. by rewrite Hlen, length_insert.
Qed.

Lemma not_reserved_lookup nd name :
  startswith_underscore name = false ->
  instance_dict nd name = None ∧ name ∉ class_namespace.
Proof.
  intros Hus. split.
  - unfold instance_dict. by repeat case_decide; subst.
  - unfold class_namespace. intros Hin.
    repeat (apply elem_of_cons in Hin as [->|Hin]; [done|]).
    by apply elem_of_nil in Hin.
Qed.

(** What an attribute access can do to the store. *)
Lemma getattribute_cases (h : heap) self name h' v :
  getattribute h self name = Ok (h', v) ->
  ∃ nd, h !! self = Some nd ∧
    ((h' = h ∧ ∃ f, v = Field f)
     ∨ (h' = h ∧ v = ClassAttr name)
     ∨ (h' = h ∧ startswith_underscore name = false
        ∧ ∃ c, v = Child c ∧ _element_map nd !! name = Some c)
     ∨ (h' = h ++ [set_parent (Some self) (__init__ name)]
        ∧ startswith_underscore name = false
        ∧ v = Child (length h) ∧ _element_map nd !! name = None)).
Proof.
  unfold getattribute. intros Hrun.
  destruct (deref h self) as [err|nd] eqn:Hnd; simpl in Hrun; [done|].
  apply deref_Ok in Hnd. exists nd. split; [done|].
  destruct (instance_dict nd name) as [f|].
  { inversion Hrun; subst. left. eauto. }
  case_bool_decide.
  { inversion Hrun; subst. right. left. eauto. }
  unfold __getattr__ in Hrun.
  destruct (startswith_underscore name) eqn:Hus; [done|].
  rewrite (deref_Some _ _ _ Hnd) in Hrun. simpl in Hrun.
  destruct (_element_map nd !! name) as [c|] eqn:Hc; simpl in Hrun;
    inversion Hrun; subst.
  - right. right. left. eauto.
  - right. right. right. eauto.
Qed.

Lemma wf_getattribute (h : heap) self name h' v :
  wf h -> getattribute h self name = Ok (h', v) ->
  wf h' ∧ length h ≤ length h' ∧ ∀ c, v = Child c -> c < length h'.
Proof.
  intros Hwf (nd & Hnd & Hcases)%getattribute_cases.
  destruct Hcases as [(-> & f & ->)|[(-> & ->)|[(-> & Hus & c & -> & Hc)
                       |(-> & Hus & -> & Hc)]]].
  - by split; [|split].
  - by split; [|split].
  - split; [done|]. split; [done|]. intros c' [= <-].
    rewrite (wf_map _ Hwf _ _ _ Hnd) in Hc.
    apply last_named_elem in Hc as [Hc _].
    destruct (wf_child _ Hwf _ _ _ Hnd Hc) as (cn & Hcn & _).
    by eapply lookup_lt_Some.
  - split; [|split].
    + apply wf_alloc; [done| |done|done]. simpl. intros p [= <-].
      split; [by eapply lookup_lt_Some|done].
    + rewrite length_app. lia.
    + intros c [= <-]. rewrite length_app. simpl. lia.
Qed.

Lemma wf_call_counted fuel (h : heap) self kwargs h' k :
  wf h -> call_counted fuel h self kwargs = Ok (h', k) ->
  wf h' ∧ length h' = S (length h).
Proof.
  intros Hwf Hrun. unfold call_counted in Hrun.
  destruct (binds_self kwargs); [done|].
  destruct (deref h self) as [err|nd] eqn:Hnd; simpl in Hrun; [done|].
  apply deref_Ok in Hnd. rewrite !alter_last in Hrun.
  apply wf_attach in Hrun as [Hwf' Hlen].
  - split; [done|]. rewrite Hlen, length_app. simpl. lia.
  - apply wf_alloc; [done| |done|done]. simpl. intros p Hp. split.
    + pose proof (wf_parent _ Hwf _ _ _ Hnd Hp).
      apply lookup_lt_Some in Hnd. lia.
    + by eapply wf_name.
Qed.

Lemma wf_call fuel (h : heap) self kwargs h' :
  wf h -> __call__ fuel h self kwargs = Ok h' ->
  wf h' ∧ length h' = S (length h).
Proof.
  unfold __call__. intros Hwf Hrun.
  destruct (call_counted fuel h self kwargs) as [err|[h'' k]] eqn:Hc;
    simpl in Hrun; [done|].
  inversion Hrun; subst. by eapply wf_call_counted.
Qed.

Lemma wf_fresh r : wf [__init__ r].
Proof.
  split.
  - by exists (__init__ r).
  - intros [|a] nd p Hnd Hp; simpl in *; [by inversion Hnd; subst|done].
  - intros [|a] pn c Hpn Hc; simpl in *; [|done].
    inversion Hpn; subst. by apply elem_of_nil in Hc.
  - intros [|a] pn n Hpn; simpl in *; [|done]. by inversion Hpn; subst.
  - intros [|a] nd p Hnd Hp; simpl in *; [by inversion Hnd; subst|done].
Qed.

(** Every reachable store is well formed, and every reference a program
    holds points into it. *)
Lemma reachable_wf r st :
  reachable r st ->
  wf (st_heap st) ∧ Forall (fun a => a < length (st_heap st)) (st_refs st).
Proof.
  induction 1 as [|st o fuel st' Hreach [Hwf Hrefs] Hstep].
  - split; [apply wf_fresh|]. simpl. by repeat constructor.
  - destruct o as [i name|i kwargs]; simpl in Hstep.
    + destruct (st_refs st !! i) as [a|] eqn:Hi; [|done].
      destruct (getattribute (st_heap st) a name) as [err|[h' v]] eqn:Hget;
        simpl in Hstep; [done|].
      destruct (wf_getattribute _ _ _ _ _ Hwf Hget) as (Hwf' & Hlen & Hv).
      assert (Hrefs' : Forall (fun a => a < length h') (st_refs st)).
      { eapply Forall_impl; [done|]. simpl. intros; lia. }
      destruct v as [c| |]; inversion Hstep; subst; simpl; split; try done.
      apply Forall_app. split; [done|]. constructor; [by apply Hv|constructor].
    + destruct (st_refs st !! i) as [a|] eqn:Hi; [|done].
      destruct (__call__ fuel (st_heap st) a kwargs) as [err|h'] eqn:Hcall;
        simpl in Hstep; [done|].
      inversion Hstep; subst; simpl.
      destruct (wf_call _ _ _ _ _ Hwf Hcall) as [Hwf' Hlen].
      split; [done|]. eapply Forall_impl; [done|]. simpl. intros; lia.
Qed.

(** ** Reachable states *)

Lemma exec_reachable r fuel prog st st' :
  reachable r st -> exec fuel st prog = Ok st' -> reachable r st'.
Proof.
  revert st. induction prog as [|o prog IH]; intros st Hreach Hrun; simpl in Hrun.
  - by inversion Hrun; subst.
  - destruct (exec_op fuel st o) as [err|st1] eqn:Hstep; simpl in Hrun; [done|].
    eapply IH; [|done]. by eapply reach_step.
Qed.

Lemma two_siblings_reachable : reachable "root" two_siblings.
Proof.
  apply (exec_reachable "root" 1
           [Access 0 "a"; Commit 1 []; Access 0 "a"; Commit 2 []] (fresh "root"));
    [apply reach_fresh|].
  by vm_compute.
Qed.

(** ** The child map names the newest sibling *)

(** C9: in every state reachable from a fresh root, an entry of a node's
    child map under a name [n] is the most recently appended element of
    that node's children list whose name is [n]: it occurs in the list
    with name [n] and no later element has that name.  A child access for
    [n] on that node therefore returns this newest sibling, leaving the
    store unchanged, so that later commits below it attach under it. *)
Theorem map_entry_is_newest_sibling r st p pn n b :
  reachable r st ->
  st_heap st !! p = Some pn ->
  _element_map pn !! n = Some b ->
  (∃ l1 l2, _elements pn = l1 ++ b :: l2
            ∧ name_of (st_heap st) b = Some n
            ∧ ∀ c, c ∈ l2 -> name_of (st_heap st) c ≠ Some n)
  ∧ getattribute (st_heap st) p n = Ok (st_heap st, Child b).
Proof.
  intros [Hwf _]%reachable_wf Hp Hb.
  rewrite (wf_map _ Hwf _ _ n Hp) in Hb.
  split; [by apply last_named_Some|].
  destruct (last_named_elem _ _ _ _ Hb) as [Hin Hname].
  destruct (wf_child _ Hwf _ _ _ Hp Hin) as (bn & Hbn & Hbp).
  assert (Hus : startswith_underscore n = false).
  { unfold name_of in Hname. rewrite Hbn in Hname. inversion Hname; subst n.
    by eapply wf_name. }
  destruct (not_reserved_lookup pn n Hus) as [Hinst Hclass].
  unfold getattribute. rewrite (deref_Some _ _ _ Hp). simpl. rewrite Hinst.
  rewrite bool_decide_false by done.
  unfold __getattr__. rewrite Hus, (deref_Some _ _ _ Hp). simpl.
  by rewrite (wf_map _ Hwf _ _ n Hp), Hb.
Qed.

Lemma map_entry_is_newest_sibling_witness :
  getattribute (st_heap two_siblings) 0 "a" = Ok (st_heap two_siblings, Child 3).
Proof.
  refine (proj2 (map_entry_is_newest_sibling "root" two_siblings 0
                   (mkEasyXML None "root" [2; 3] [] {["a" := 3]}) "a" 3
                   two_siblings_reachable _ _)).
  - vm_compute. reflexivity.
  - vm_compute. reflexivity.
Defined.

(** ** Cursors and committed nodes *)

(** C5, counterexample: after [root.a()] twice the first [a] is still in
    the children list of the root, but the map entry for [a] is the
    second one. *)
Lemma first_sibling_leaves_map :
  reachable "root" two_siblings ∧ ¬ cursor_or_mapped_child (st_heap two_siblings).
Proof.
  split; [apply two_siblings_reachable|]. intros Hclaim.
  destruct (Hclaim 2 (mkEasyXML (Some 0) "a" [] [] ∅)) as [[Hno _]|Hyes];
    [done|by vm_compute| |].
  - apply Hno. exists 0, (mkEasyXML None "root" [2; 3] [] {["a" := 3]}).
    split; [by vm_compute|]. apply elem_of_cons. by left.
  - destruct Hyes as (p & pn & Hp & Hin & Honly & Hmap).
    assert (Hp0 : 0 = p).
    { apply (Honly 0 (mkEasyXML None "root" [2; 3] [] {["a" := 3]}));
        [by vm_compute|]. apply elem_of_cons. by left. }
    subst p. vm_compute in Hp. inversion Hp; subst pn.
    simpl in Hmap. vm_compute in Hmap. discriminate Hmap.
Qed.

(** C5, amended: in every state reachable from a fresh root, a node other
    than the root is either an uncommitted cursor, in no children list and
    in no child map, or a committed node: it occurs in the children list
    of one node only, its parent, and the child map of that parent stores
    under the node's name the last element of that same children list
    which carries the name, that is, the node most recently appended
    under the name; this may be the node itself or another node of that
    name.  Every entry of a child map is the same object as an element of
    the children list of the same node and carries the name it is stored
    under. *)
Theorem cursor_or_committed r st :
  reachable r st ->
  let h := st_heap st in
  (∀ a nd, a ≠ 0 -> h !! a = Some nd ->
     uncommitted h a
     ∨ ∃ p pn, _parent nd = Some p ∧ h !! p = Some pn ∧ a ∈ _elements pn
               ∧ (∀ q qn, h !! q = Some qn -> a ∈ _elements qn -> q = p)
               ∧ ∃ b l1 l2, _element_map pn !! _name nd = Some b
                            ∧ _elements pn = l1 ++ b :: l2
                            ∧ name_of h b = Some (_name nd)
                            ∧ ∀ c, c ∈ l2 -> name_of h c ≠ Some (_name nd))
  ∧ (∀ p pn n b, h !! p = Some pn -> _element_map pn !! n = Some b ->
       b ∈ _elements pn ∧ name_of h b = Some n).
Proof.
  intros [Hwf _]%reachable_wf h. fold h in Hwf.
  assert (Hentries : ∀ p pn n b, h !! p = Some pn -> _element_map pn !! n = Some b ->
            b ∈ _elements pn ∧ name_of h b = Some n).
  { intros p pn n b Hp Hb. rewrite (wf_map _ Hwf _ _ n Hp) in Hb.
    by apply last_named_elem in Hb. }
  split; [|done]. intros a nd Ha Hnd.
  assert (Hown : ∀ q qn, h !! q = Some qn -> a ∈ _elements qn -> _parent nd = Some q).
  { intros q qn Hq Hin. destruct (wf_child _ Hwf _ _ _ Hq Hin) as (cn & Hcn & Hcp).
    congruence. }
  destruct (_parent nd) as [p|] eqn:Hpar.
  - assert (Hplt : p < length h).
    { pose proof (wf_parent _ Hwf _ _ _ Hnd Hpar). apply lookup_lt_Some in Hnd. lia. }
    destruct (lookup_lt_is_Some_2 _ _ Hplt) as [pn Hp].
    destruct (decide (a ∈ _elements pn)) as [Hin|Hnin].
    + right. exists p, pn. repeat split; try done.
      * intros q qn Hq Hq'. specialize (Hown _ _ Hq Hq'). congruence.
      * destruct (last_named h (_name nd) (_elements pn)) as [b|] eqn:Hlast.
        -- destruct (proj1 (last_named_Some _ _ _ _) Hlast) as (l1 & l2 & Hel & Hname & Hlater).
           exists b, l1, l2. by rewrite (wf_map _ Hwf _ _ _ Hp).
        -- exfalso. apply (proj1 (last_named_None h _ _) Hlast a Hin).
           unfold name_of. by rewrite Hnd.
    + left. split.
      * intros (q & qn & Hq & Hin). specialize (Hown _ _ Hq Hin).
        inversion Hown; subst q. congruence.
      * intros (q & qn & Hq & [n Hn]%elem_of_dict_values).
        destruct (Hentries _ _ _ _ Hq Hn) as [Hin _].
        specialize (Hown _ _ Hq Hin). inversion Hown; subst q. congruence.
  - left. split.
    + intros (q & qn & Hq & Hin). by specialize (Hown _ _ Hq Hin).
    + intros (q & qn & Hq & [n Hn]%elem_of_dict_values).
      destruct (Hentries _ _ _ _ Hq Hn) as [Hin _].
      by specialize (Hown _ _ Hq Hin).
Qed.

Lemma cursor_or_committed_witness :
  3 ∈ [2; 3] ∧ name_of (st_heap two_siblings) 3 = Some "a".
Proof.
  refine (proj2 (cursor_or_committed "root" two_siblings two_siblings_reachable)
                0 (mkEasyXML None "root" [2; 3] [] {["a" := 3]}) "a" 3 _ _).
  - vm_compute. reflexivity.
  - vm_compute. reflexivity.
Defined.

(** ** Termination of the attach loop *)

Lemma parent_chain_app (h l : heap) a n :
  parent_chain h a n -> parent_chain (h ++ l) a n.
Proof.
  induction 1 as [a nd Ha Hp|a nd p n Ha Hp _ IH].
  - eapply chain_top; [by apply lookup_app_l_Some|done].
  - eapply chain_link; [by apply lookup_app_l_Some|done|done].
Qed.

(** The loop body writes no [_parent] field, so it keeps every chain. *)
Lemma parent_chain_attached (h : heap) q qn nm e a n :
  h !! q = Some qn ->
  parent_chain h a n -> parent_chain (<[q := attached qn nm e]> h) a n.
Proof.
  intros Hq. induction 1 as [a nd Ha Hp|a nd p n Ha Hp _ IH].
  - destruct (decide (q = a)) as [->|Hne].
    + eapply (chain_top _ _ (attached qn nm e)).
      * apply list_lookup_insert_eq. by eapply lookup_lt_Some.
      * simpl. congruence.
    + eapply chain_top; [by rewrite list_lookup_insert_ne|done].
  - destruct (decide (q = a)) as [->|Hne].
    + eapply (chain_link _ _ (attached qn nm e)); [| |done].
      * apply list_lookup_insert_eq. by eapply lookup_lt_Some.
      * simpl. congruence.
    + eapply chain_link; [by rewrite list_lookup_insert_ne|done|done].
Qed.

Lemma parent_chain_lookup (h : heap) a n :
  parent_chain h a n -> ∃ nd, h !! a = Some nd.
Proof. destruct 1; eauto. Qed.

(** The three ways the loop test can go. *)
Lemma attach_stop_root fuel (h : heap) e nd :
  h !! e = Some nd -> _parent nd = None -> attach fuel h e = Ok (h, 0).
Proof.
  intros He Hp. destruct fuel; simpl; unfold loop_test;
    rewrite (deref_Some _ _ _ He); simpl; by rewrite Hp.
Qed.

Lemma attach_stop_mapped fuel (h : heap) e nd p pn :
  h !! e = Some nd -> _parent nd = Some p -> h !! p = Some pn ->
  e ∈ dict_values (_element_map pn) ->
  attach fuel h e = Ok (h, 0).
Proof.
  intros He Hp Hpn Hin. destruct fuel; simpl; unfold loop_test;
    rewrite (deref_Some _ _ _ He); simpl; rewrite Hp;
    rewrite (deref_Some _ _ _ Hpn); simpl; by rewrite bool_decide_true.
Qed.

Lemma attach_step fuel (h : heap) e nd p pn :
  h !! e = Some nd -> _parent nd = Some p -> h !! p = Some pn ->
  e ∉ dict_values (_element_map pn) ->
  attach (S fuel) h e
  = '(h', n) ← attach fuel (<[p := attached pn (_name nd) e]> h) p; Ok (h', S n).
Proof.
  intros He Hp Hpn Hin. simpl. unfold loop_test, loop_body.
  rewrite (deref_Some _ _ _ He). simpl. rewrite Hp.
  rewrite (deref_Some _ _ _ Hpn). simpl. rewrite bool_decide_false by done.
  simpl. by rewrite (deref_Some _ _ _ Hpn).
Qed.

(** On a chain of [n] links the loop ends within [n] iterations. *)
Lemma attach_terminates n : ∀ (h : heap) e fuel,
  parent_chain h e n -> n ≤ fuel ->
  ∃ h' k, attach fuel h e = Ok (h', k) ∧ k ≤ n.
Proof.
  induction n as [|n IH]; intros h e fuel Hchain Hfuel.
  - inversion Hchain as [a nd Ha Hp|]; subst.
    exists h, 0. split; [|done]. by eapply attach_stop_root.
  - inversion Hchain as [|a nd p n' Ha Hp Hrest]; subst.
    destruct (parent_chain_lookup _ _ _ Hrest) as [pn Hpn].
    destruct (decide (e ∈ dict_values (_element_map pn))) as [Hin|Hnin].
    { exists h, 0. split; [by eapply attach_stop_mapped|lia]. }
    destruct fuel as [|fuel]; [lia|].
    rewrite (attach_step _ _ _ _ _ _ Ha Hp Hpn Hnin).
    destruct (IH (<[p := attached pn (_name nd) e]> h) p fuel) as (h' & k & Hrun & Hk);
      [by apply parent_chain_attached|lia|].
    rewrite Hrun. simpl. exists h', (S k). split; [done|lia].
Qed.

(** In a well-formed store every object heads a parent chain. *)
Lemma wf_parent_chain (h : heap) :
  wf h -> ∀ a, a < length h -> ∃ n, parent_chain h a n.
Proof.
  intros Hwf a. induction (lt_wf a) as [a _ IH]. intros Hlt.
  destruct (lookup_lt_is_Some_2 _ _ Hlt) as [nd Hnd].
  destruct (_parent nd) as [p|] eqn:Hp.
  - pose proof (wf_parent _ Hwf _ _ _ Hnd Hp) as Hpa.
    destruct (IH p Hpa) as [n Hn]; [lia|].
    exists (S n). by eapply chain_link.
  - exists 0. by eapply chain_top.
Qed.

(** C10: a commit on a node whose parent chain is finite and acyclic, of
    [n] links, terminates: with fuel for [n] iterations the call returns,
    and its loop has run at most [n] times; a call that is given a keyword
    argument named [self] ends at once with [TypeError], before the loop.
    Every object of a state reachable from a fresh root has such a chain. *)
Theorem call_terminates :
  (∀ (h : heap) self n kwargs fuel,
     parent_chain h self n -> n ≤ fuel ->
     if binds_self kwargs
     then call_counted fuel h self kwargs = Raise TypeError
          ∧ __call__ fuel h self kwargs = Raise TypeError
     else ∃ h' k, call_counted fuel h self kwargs = Ok (h', k)
                  ∧ __call__ fuel h self kwargs = Ok h' ∧ k ≤ n)
  ∧ (∀ r st a, reachable r st -> a < length (st_heap st) ->
       ∃ n, parent_chain (st_heap st) a n).
Proof.
  split.
  - intros h self n kwargs fuel Hchain Hfuel.
    destruct (binds_self kwargs) eqn:Hself; [by apply call_binds_self|].
    assert (∃ nd, h !! self = Some nd ∧
              parent_chain (h ++ [called_object nd kwargs]) (length h) n)
      as (nd & Hnd & Hnew).
    { inversion Hchain as [a nd Ha Hp|a nd p n' Ha Hp Hrest]; subst;
        exists nd; (split; [done|]).
      - eapply chain_top; [by rewrite lookup_app_r, Nat.sub_diag|done].
      - eapply chain_link; [by rewrite lookup_app_r, Nat.sub_diag|done|].
        by apply parent_chain_app. }
    destruct (attach_terminates _ _ _ fuel Hnew Hfuel) as (h' & k & Hrun & Hk).
    exists h', k. unfold __call__.
    rewrite (call_counted_unfold _ _ _ _ _ Hself Hnd), Hrun. by simpl.
  - intros r st a [Hwf _]%reachable_wf Hlt. by apply wf_parent_chain.
Qed.

Lemma call_terminates_witness :
  ∃ h' k, call_counted 1 (st_heap two_siblings) 2 [("x", VInt 1)] = Ok (h', k)
          ∧ __call__ 1 (st_heap two_siblings) 2 [("x", VInt 1)] = Ok h' ∧ k ≤ 1.
Proof.
  refine (proj1 call_terminates (st_heap two_siblings) 2 1 [("x", VInt 1)] 1 _ _).
  - eapply chain_link; [vm_compute; reflexivity|reflexivity|].
    eapply chain_top; [vm_compute; reflexivity|reflexivity].
  - lia.
Defined.

(** ** Serialization *)

(** Induction on trees with the hypothesis for every child. *)
Lemma Tree_induction (P : Tree -> Prop) :
  (∀ name attrs kids, Forall P kids -> P (TNode name attrs kids)) ->
  ∀ t, P t.
Proof.
  intros Hnode. fix IH 1. intros [name attrs kids]. apply Hnode.
  induction kids as [|k kids IHkids]; constructor; [apply IH|apply IHkids].
Qed.

Lemma scalar_tree_children name attrs kids :
  scalar_tree (TNode name attrs kids) -> Forall scalar_tree kids.
Proof.
  simpl. intros [_ Hkids].
  induction kids as [|k kids IH]; constructor; simpl in Hkids; [tauto|].
  apply IH. tauto.
Qed.

Lemma dict_tree_children name attrs kids :
  dict_tree (TNode name attrs kids) -> Forall dict_tree kids.
Proof.
  simpl. intros [_ Hkids].
  induction kids as [|k kids IH]; constructor; simpl in Hkids; [tauto|].
  apply IH. tauto.
Qed.

Lemma height_child name attrs kids k :
  k ∈ kids -> height k < height (TNode name attrs kids).
Proof.
  simpl. induction kids as [|c kids IH]; intros Hin; [by apply elem_of_nil in Hin|].
  simpl. apply elem_of_cons in Hin as [->|Hin]; [lia|].
  specialize (IH Hin). lia.
Qed.

(** *** The element built by [to_xml] *)

Lemma dict_get_app_fresh k v (d1 d2 : dict) :
  k ∉ dict_keys d1 -> dict_get k (d1 ++ (k, v) :: d2) = Some v.
Proof.
  induction d1 as [|[k' v'] d1 IH]; simpl; intros Hk.
  - by rewrite decide_True.
  - apply not_elem_of_cons in Hk as [Hne Hk].
    rewrite decide_False by done. by apply IH.
Qed.

Lemma assign_fresh k v (attrs : list (string * string)) :
  k ∉ attrs.*1 -> minidom.assign k v attrs = attrs ++ [(k, v)].
Proof.
  induction attrs as [|[k' v'] attrs IH]; simpl; intros Hk; [done|].
  apply not_elem_of_cons in Hk as [Hne Hk].
  rewrite decide_False by done. by rewrite IH.
Qed.

Lemma str_pairs_keys (d : dict) : (str_pairs d).*1 = dict_keys d.
Proof.
  unfold str_pairs, dict_keys. rewrite <-list_fmap_compose.
  by apply list_fmap_ext.
Qed.

(** [str()] of a value that prints by itself. *)
Lemma py_str_scalar (f : addr -> result string) v :
  scalar v = true -> py_str f v = Ok (str v).
Proof. by destruct v as [| | | | |[s|]]. Qed.

Lemma dict_get_scalar k v (d : dict) :
  Forall (fun kv => scalar kv.2 = true) d -> dict_get k d = Some v ->
  scalar v = true.
Proof.
  induction 1 as [|[k' v'] d Hv _ IH]; simpl; [done|].
  case_decide; [|done]. by intros [= <-].
Qed.

(** When every value prints by itself the first loop of [to_xml] raises
    nothing. *)
Lemma copy_attributes_eq (f : addr -> result string) (d : dict) name :
  Forall (fun kv => scalar kv.2 = true) d ->
  copy_attributes (py_str f) d (minidom.createElement name)
  = Ok (minidom.Elem name (copied_attrs d) []).
Proof.
  intros Hd. unfold copy_attributes, copied_attrs, minidom.createElement.
  generalize (dict_keys d). intros ks.
  generalize (@nil (string * string)).
  induction ks as [|k ks IH]; intros attrs; simpl; [done|].
  destruct (dict_get k d) as [v|] eqn:Hk; simpl; [|apply IH].
  rewrite (py_str_scalar _ _ (dict_get_scalar _ _ _ Hd Hk)). simpl. apply IH.
Qed.

(** For a dict the first loop of [to_xml] assigns every pair once, in order. *)
Lemma copied_attrs_dict (d : dict) :
  is_dict d -> copied_attrs d = str_pairs d.
Proof.
  intros Hd. unfold copied_attrs.
  assert (Hgen : ∀ d2 d1, d = d1 ++ d2 ->
    fold_left (fun attrs k =>
                 match dict_get k d with
                 | Some v => minidom.assign k (str v) attrs
                 | None => attrs
                 end) (dict_keys d2) (str_pairs d1)
    = str_pairs d).
  { induction d2 as [|[k v] d2 IH]; intros d1 Heq.
    - simpl. by rewrite Heq, app_nil_r.
    - assert (Hk : k ∉ dict_keys d1).
      { unfold is_dict, dict_keys in *. rewrite Heq, fmap_app in Hd.
        apply NoDup_app in Hd as (_ & Hdisj & _). intros Hin.
        apply (Hdisj k Hin). simpl. by left. }
      simpl. rewrite Heq, (dict_get_app_fresh _ _ _ _ Hk), <-Heq.
      rewrite assign_fresh by (by rewrite str_pairs_keys).
      replace (str_pairs d1 ++ [(k, str v)]) with (str_pairs (d1 ++ [(k, v)]))
        by (unfold str_pairs; by rewrite fmap_app).
      apply IH. by rewrite <-app_assoc. }
  by apply (Hgen d []).
Qed.

(** The second loop of [to_xml], once every child converts. *)
Lemma fold_children_all (f : addr -> result minidom.Element) l cs name attrs ks :
  Forall2 (fun e c => f e = Ok c) l cs ->
  fold_left (fun acc e => el ← acc; child ← f e; Ok (minidom.appendChild el child))
            l (Ok (minidom.Elem name attrs ks))
  = Ok (minidom.Elem name attrs (ks ++ cs)).
Proof.
  intros Hall. revert ks. induction Hall as [|e c l cs He _ IH]; intros ks; simpl.
  - by rewrite app_nil_r.
  - rewrite He. simpl. rewrite IH. by rewrite <-app_assoc.
Qed.

(** [to_xml] builds the element of the tree below [obj], given fuel for
    the height of the tree, when every attribute value prints by itself. *)
Lemma to_xml_tree (h : heap) : ∀ t obj fuel,
  tree_of h obj t -> scalar_tree t -> height t ≤ fuel ->
  to_xml fuel h obj = Ok (dom_of t).
Proof.
  induction t as [name attrs kids IH] using Tree_induction.
  intros obj fuel Htree Hscalar Hfuel.
  pose proof (scalar_tree_children _ _ _ Hscalar) as Hkscalar.
  destruct Hscalar as [Hattrs _].
  inversion Htree as [a nd ts Hnd Hkids]; subst.
  destruct fuel as [|fuel]; [simpl in Hfuel; lia|].
  simpl. rewrite (deref_Some _ _ _ Hnd). simpl.
  rewrite (copy_attributes_eq _ _ _ Hattrs). simpl.
  rewrite (fold_children_all _ _ (map dom_of kids)); [done|].
  clear Hnd Htree Hattrs. revert Hfuel IH Hkscalar.
  induction Hkids as [|e t l ts He _ IHl]; intros Hfuel IH Hkscalar; simpl; constructor.
  - inversion IH as [|? ? IHt _]; inversion Hkscalar; subst. apply IHt; [done|done|].
    simpl in Hfuel. lia.
  - apply IHl.
    + simpl in *. lia.
    + by inversion IH.
    + by inversion Hkscalar.
Qed.

(** The store of a well-formed state unfolds to a tree at every address. *)
Lemma wf_tree_of (h : heap) :
  wf h -> ∀ a, a < length h -> ∃ t, tree_of h a t.
Proof.
  intros Hwf a Hlt.
  remember (length h - a) as m eqn:Hm.
  revert a Hlt Hm. induction (lt_wf m) as [m _ IH]. intros a Hlt Hm.
  destruct (lookup_lt_is_Some_2 _ _ Hlt) as [nd Hnd].
  assert (Hkids : ∃ ts, Forall2 (tree_of h) (_elements nd) ts).
  { assert (Hall : ∀ c, c ∈ _elements nd -> ∃ t, tree_of h c t).
    { intros c Hc. destruct (wf_child _ Hwf _ _ _ Hnd Hc) as (cn & Hcn & Hcp).
      pose proof (wf_parent _ Hwf _ _ _ Hcn Hcp) as Hac.
      pose proof (lookup_lt_Some _ _ _ Hcn) as Hclt.
      apply (IH (length h - c)); [lia|done|done]. }
    induction (_elements nd) as [|c l IHl].
    - by exists [].
    - destruct (Hall c) as [t Ht]; [by left|].
      destruct IHl as [ts Hts]; [intros; apply Hall; by right|].
      exists (t :: ts). by constructor. }
  destruct Hkids as [ts Hts].
  exists (TNode (_name nd) (_attributes nd) ts). by constructor.
Qed.

(** *** Strings *)

Lemma string_app_assoc (a b c : string) : (a +:+ b) +:+ c = a +:+ b +:+ c.
Proof. induction a as [|x a IH]; simpl; [done|]. by rewrite IH. Qed.

Lemma string_app_nil_r (a : string) : a +:+ "" = a.
Proof. induction a as [|x a IH]; simpl; [done|]. by rewrite IH. Qed.

(** Both sides of an equation between concatenations, brought to the
    right-nested form. *)
Ltac string_norm :=
  unfold newline, dquote;
  repeat (progress (cbn [String.append];
                    rewrite ?string_app_assoc, ?string_app_nil_r)).

Lemma lines_text_app l1 l2 :
  lines_text (l1 ++ l2) = lines_text l1 +:+ lines_text l2.
Proof.
  induction l1 as [|l l1 IH]; simpl; [done|].
  by rewrite IH, !string_app_assoc.
Qed.

Lemma write_attrs_str_pairs (d : dict) :
  minidom.write_attrs (str_pairs d) = attrs_text d.
Proof.
  induction d as [|[k v] d IH]; [done|].
  change (minidom.write_attr (k, str v) +:+ minidom.write_attrs (str_pairs d)
          = attr_text (k, v) +:+ attrs_text d).
  by rewrite IH.
Qed.

Lemma indent_of_S d : indent_of d +:+ "  " = indent_of (S d).
Proof.
  induction d as [|d IH]; [done|].
  change (indent_of (S d)) with ("  " +:+ indent_of d) at 1.
  rewrite string_app_assoc, IH. done.
Qed.

(** *** The pretty-printer writes the lines of the spec *)

Lemma writexml_lines : ∀ t d,
  dict_tree t ->
  minidom.writexml (indent_of d) "  " newline (dom_of t)
  = lines_text (spec_lines d t).
Proof.
  induction t as [name attrs kids IH] using Tree_induction.
  intros d Hdt.
  pose proof (dict_tree_children _ _ _ Hdt) as Hkids.
  destruct Hdt as [Hdict _].
  assert (Hrec : ∀ ks, Forall (fun t => ∀ d, dict_tree t ->
              minidom.writexml (indent_of d) "  " newline (dom_of t)
              = lines_text (spec_lines d t)) ks ->
            Forall dict_tree ks ->
            foldr (fun k acc =>
                     minidom.writexml (indent_of d +:+ "  ") "  " newline k +:+ acc)
                  "" (map dom_of ks)
            = lines_text (flat_map (spec_lines (S d)) ks)).
  { induction ks as [|k ks IHks]; intros Hall Hpl; [done|].
    inversion Hall as [|? ? Hk Hall']; inversion Hpl as [|? ? Hpk Hpl']; subst.
    cbn [map foldr flat_map]. rewrite lines_text_app, IHks by done.
    by rewrite indent_of_S, Hk. }
  destruct kids as [|k kids].
  - cbn. rewrite (copied_attrs_dict _ Hdict), write_attrs_str_pairs.
    by string_norm.
  - specialize (Hrec (k :: kids) IH Hkids).
    cbn [dom_of map minidom.writexml spec_lines] in *.
    rewrite Hrec, (copied_attrs_dict _ Hdict), write_attrs_str_pairs.
    rewrite !lines_text_app. cbn [lines_text foldr].
    by string_norm.
Qed.

(** *** Where the pattern matches nothing but the header *)

Lemma sub_from_pattern_free s : pattern_free s -> sub_from 0 s = s.
Proof.
  induction s as [|c s IH]; [done|]. intros [Hc Hs].
  cbn [sub_from]. rewrite Hc. by rewrite IH.
Qed.

(** On the printed document the substitution deletes the header line's
    content and then runs over the rest. *)
Lemma re_sub_header body :
  re_sub_declaration (minidom.xml_declaration +:+ newline +:+ body)
  = newline +:+ sub_from 0 body.
Proof. reflexivity. Qed.

Lemma line_of_newline s : line_of (s +:+ newline) = line_of s.
Proof.
  induction s as [|c s IH]; [done|]. cbn [String.append line_of].
  by rewrite IH.
Qed.

(** A newline at the end of a text neither adds nor removes a match. *)
Lemma match_length_newline s : match_length (s +:+ newline) = match_length s.
Proof.
  unfold match_length.
  destruct s as [|c1 [|c2 [|c3 [|c4 [|c5 s]]]]];
    cbn [String.append starts_with newline string_drop];
    repeat (case_bool_decide; cbn [andb]; try done).
  cbn [mbind option_bind]. change (String (ascii_of_nat 10) "") with newline.
  by rewrite line_of_newline.
Qed.

Lemma pattern_free_newline s : pattern_free s -> pattern_free (s +:+ newline).
Proof.
  induction s as [|c s IH]; [by split|]. intros [Hc Hs].
  cbn [String.append pattern_free]. split; [|by apply IH].
  change (String c (s +:+ newline)) with (String c s +:+ newline).
  by rewrite match_length_newline.
Qed.

(** *** [strip] removes the two outer newlines only *)

Lemma last_char_None s : last_char s = None -> s = "".
Proof. destruct s as [|c s]; [done|]. simpl. by destruct (last_char s). Qed.

Lemma last_char_app a b : b ≠ "" -> last_char (a +:+ b) = last_char b.
Proof.
  intros Hb. induction a as [|c a IH]; [done|]. cbn [String.append last_char].
  rewrite IH. destruct (last_char b) eqn:Hl; [done|].
  by apply last_char_None in Hl.
Qed.

Lemma rstrip_newline s : rstrip (s +:+ newline) = rstrip s.
Proof. induction s as [|c s IH]; [done|]. cbn [String.append rstrip]. by rewrite IH. Qed.

Lemma rstrip_visible s c :
  last_char s = Some c -> is_space c = false -> rstrip s = s.
Proof.
  revert c. induction s as [|a s IH]; [done|]. intros c Hlast Hc.
  cbn [rstrip last_char] in *.
  destruct (last_char s) as [c'|] eqn:Hl.
  - inversion Hlast; subst c'. rewrite (IH c) by done. by destruct s.
  - inversion Hlast; subst a. apply last_char_None in Hl as ->. simpl.
    by rewrite Hc.
Qed.

Lemma join_lines_cons l ls :
  ls ≠ [] -> join_lines (l :: ls) = l +:+ newline +:+ join_lines ls.
Proof. by destruct ls. Qed.

Lemma lines_text_join ls :
  ls ≠ [] -> lines_text ls = join_lines ls +:+ newline.
Proof.
  induction ls as [|l ls IH]; [done|]. intros _.
  destruct ls as [|l' ls].
  - cbn [lines_text foldr join_lines]. by string_norm.
  - rewrite join_lines_cons by done. cbn [lines_text foldr] in *.
    rewrite IH by done. by string_norm.
Qed.

Lemma last_char_join ls l :
  l ≠ "" -> last_char (join_lines (ls ++ [l])) = last_char l.
Proof.
  intros Hl. induction ls as [|x ls IH]; [done|].
  cbn [app]. rewrite join_lines_cons by (by destruct ls).
  rewrite last_char_app; [|unfold newline; by simpl].
  rewrite last_char_app; [done|].
  intros Hempty. rewrite Hempty in IH. simpl in IH.
  symmetry in IH. by apply last_char_None in IH.
Qed.

(** The lines of a tree begin with [<] and end with [>]. *)
Lemma spec_lines_shape t :
  (∃ s, lines_text (spec_lines 0 t) = String "<" s)
  ∧ spec_lines 0 t ≠ []
  ∧ last_char (join_lines (spec_lines 0 t)) = Some ">"%char.
Proof.
  destruct t as [name attrs kids]. destruct kids as [|k kids].
  - split; [|split].
    + cbn. by eexists.
    + done.
    + cbn [spec_lines join_lines].
      replace (indent_of 0 +:+ "<" +:+ name +:+ attrs_text attrs +:+ "/>")
        with ((indent_of 0 +:+ "<" +:+ name +:+ attrs_text attrs) +:+ "/>")
        by (by string_norm).
      by rewrite last_char_app.
  - split; [|split].
    + cbn. by eexists.
    + done.
    + cbn [spec_lines]. rewrite app_assoc, last_char_join.
      * replace (indent_of 0 +:+ "</" +:+ name +:+ ">")
          with ((indent_of 0 +:+ "</" +:+ name) +:+ ">")
          by (by string_norm).
        by rewrite last_char_app.
      * done.
Qed.

Lemma strip_printed t :
  strip (newline +:+ lines_text (spec_lines 0 t)) = spec_text t.
Proof.
  destruct (spec_lines_shape t) as ([s Hs] & Hne & Hlast).
  unfold strip, spec_text.
  assert (Hl : lstrip (newline +:+ lines_text (spec_lines 0 t))
               = lines_text (spec_lines 0 t)).
  { rewrite Hs. reflexivity. }
  rewrite Hl, (lines_text_join _ Hne), rstrip_newline.
  by apply (rstrip_visible _ ">"%char).
Qed.

(** *** The text of a tree *)

(** C6: serialization is to give, for every node, a start tag that
    carries its name, and to strip the leading header only.  The pattern
    [<\?xml.*\?>] is not anchored to the start of the document, so
    [re.sub] deletes every match of it, also inside the rendering of the
    tree: the root named [a<?xml?>] is printed as [<a/>], where the
    pre-order rendering is [<a<?xml?>/>]. *)
Theorem pattern_inside_name_is_deleted :
  __str__ 1 [__init__ "a<?xml?>"] 0 = Ok "<a/>"
  ∧ spec_text (TNode "a<?xml?>" [] []) = "<a<?xml?>/>"
  ∧ ¬ renders_every_tree.
Proof.
  split; [by vm_compute|]. split; [by vm_compute|]. intros Hclaim.
  assert (Hrun : __str__ 1 [__init__ "a<?xml?>"] 0
                 = Ok (spec_text (TNode "a<?xml?>" [] []))).
  { apply Hclaim.
    - apply (tree_of_node _ 0 (__init__ "a<?xml?>") []); [done|constructor].
    - split; [apply NoDup_nil_2|done].
    - split; [constructor|done].
    - done. }
  vm_compute in Hrun. discriminate Hrun.
Qed.

(** The text of a tree in whose rendering the pattern matches nowhere. *)
Lemma str_of_tree (h : heap) a t fuel :
  tree_of h a t -> dict_tree t -> scalar_tree t ->
  pattern_free (spec_text t) -> height t ≤ fuel ->
  __str__ fuel h a = Ok (spec_text t).
Proof.
  intros Htree Hdict Hscalar Hfree Hfuel. unfold __str__.
  rewrite (to_xml_tree _ _ _ _ Htree Hscalar Hfuel).
  pose proof (writexml_lines t 0 Hdict) as Hw.
  change (indent_of 0) with "" in Hw.
  cbn [mbind result_bind]. unfold render, minidom.toprettyxml.
  rewrite Hw, re_sub_header.
  rewrite sub_from_pattern_free.
  - by rewrite strip_printed.
  - destruct (spec_lines_shape t) as (_ & Hne & _).
    rewrite (lines_text_join _ Hne). by apply pattern_free_newline.
Qed.

(** X13: for every committed tree whose attribute mappings are dicts of
    values that print by themselves and in whose rendering the header
    pattern matches nowhere, serialization returns the depth-first
    pre-order rendering: each node gives a start tag with its name and
    all its attributes, values in string form and in the insertion order
    of the mapping supplied at commit, then its children in stored order,
    then an end tag, or the self-closing form when it has no children;
    lines are indented two spaces per nesting depth and separated by
    newlines; the header is gone and no white space is left at either
    end.  Every node of a state reachable from a fresh root has a finite
    tree. *)
Theorem str_renders_preorder :
  (∀ (h : heap) a t fuel,
     tree_of h a t -> dict_tree t -> scalar_tree t ->
     pattern_free (spec_text t) -> height t ≤ fuel ->
     __str__ fuel h a = Ok (spec_text t))
  ∧ (∀ r st a, reachable r st -> a < length (st_heap st) ->
       ∃ t, tree_of (st_heap st) a t).
Proof.
  split.
  - apply str_of_tree.
  - intros r st a [Hwf _]%reachable_wf Hlt. by apply wf_tree_of.
Qed.

Lemma str_renders_preorder_witness :
  __str__ 2 (st_heap two_siblings) 0
  = Ok (spec_text (TNode "root" [] [TNode "a" [] []; TNode "a" [] []])).
Proof.
  refine (proj1 str_renders_preorder (st_heap two_siblings) 0
            (TNode "root" [] [TNode "a" [] []; TNode "a" [] []]) 2 _ _ _ _ _).
  - apply (tree_of_node _ 0 (mkEasyXML None "root" [2; 3] [] {["a" := 3]})
             [TNode "a" [] []; TNode "a" [] []]); [vm_compute; reflexivity|].
    constructor; [|constructor; [|constructor]].
    + apply (tree_of_node _ 2 (mkEasyXML (Some 0) "a" [] [] ∅) []);
        [vm_compute; reflexivity|constructor].
    + apply (tree_of_node _ 3 (mkEasyXML (Some 0) "a" [] [] ∅) []);
        [vm_compute; reflexivity|constructor].
  - simpl. unfold is_dict. simpl. repeat split; constructor.
  - simpl. repeat split; constructor.
  - vm_compute. repeat split.
  - simpl. lia.
Defined.

(** ** Invoking the root *)

(** C3, counterexample: [root(x=1)] on the root named [r] prints [<r/>];
    and [root(self=1)] raises [TypeError]. *)
Lemma root_call_drops_attributes :
  (∃ h, __call__ 0 [__init__ "r"] 0 [("x", VInt 1)] = Ok h
        ∧ to_xml 1 h 0 = Ok (minidom.Elem "r" [] [])
        ∧ __str__ 1 h 0 = Ok "<r/>")
  ∧ __call__ 0 [__init__ "r"] 0 [("self", VInt 1)] = Raise TypeError
  ∧ ¬ root_call_sets_attributes.
Proof.
  split; [|split].
  - eexists. split; [|split]; by vm_compute.
  - reflexivity.
  - intros Hclaim.
    assert (Hd : is_dict [("x", VInt 1)]) by apply NoDup_singleton.
    assert (Hs : Forall (fun kv : string * value => scalar kv.2 = true) [("x", VInt 1)])
      by (by repeat constructor).
    specialize (Hclaim "r" [("x", VInt 1)] 0 _ Hd Hs eq_refl).
    vm_compute in Hclaim. discriminate Hclaim.
Qed.

(** C3, amended: for every root name [r] and every attribute mapping [A]
    without the key [self], [root(A)] on a freshly constructed root
    succeeds and leaves the root as it was; serializing the root then
    converts it to the single element named [r] without any attribute,
    whatever [A] holds, and when the header pattern matches nowhere in
    [<r/>] the text is that self-closing tag. *)
Theorem root_call_keeps_root_bare (r : string) (A : dict) (fuel fuel' : nat) :
  binds_self A = false ->
  1 ≤ fuel' ->
  ∃ h, __call__ fuel [__init__ r] 0 A = Ok h
       ∧ h !! 0 = Some (__init__ r)
       ∧ to_xml fuel' h 0 = Ok (minidom.Elem r [] [])
       ∧ (pattern_free ("<" +:+ r +:+ "/>") ->
            __str__ fuel' h 0 = Ok ("<" +:+ r +:+ "/>")).
Proof.
  intros Hself Hfuel.
  destruct (call_on_parentless fuel [__init__ r] 0 (__init__ r) A Hself eq_refl eq_refl)
    as (_ & Hcall & _ & _).
  eexists. split; [exact Hcall|]. split; [done|].
  assert (Htree : tree_of ([__init__ r] ++ [called_object (__init__ r) A]) 0
                    (TNode r [] [])).
  { apply (tree_of_node _ 0 (__init__ r) []); [done|constructor]. }
  assert (Hscalar : scalar_tree (TNode r [] [])) by (split; [constructor|done]).
  assert (Htext : spec_text (TNode r [] []) = "<" +:+ r +:+ "/>").
  { unfold spec_text. cbn. by string_norm. }
  split.
  - by apply (to_xml_tree _ _ _ _ Htree).
  - intros Hr. rewrite (str_of_tree _ _ _ _ Htree); [by rewrite Htext| |done| |done].
    + split; [apply NoDup_nil_2|done].
    + by rewrite Htext.
Qed.

Lemma root_call_keeps_root_bare_witness :
  ∃ h, __call__ 0 [__init__ "r"] 0 [("x", VInt 1)] = Ok h
       ∧ to_xml 1 h 0 = Ok (minidom.Elem "r" [] [])
       ∧ __str__ 1 h 0 = Ok "<r/>".
Proof.
  destruct (root_call_keeps_root_bare "r" [("x", VInt 1)] 0 1)
    as (h & Hcall & _ & Hdom & Htext); [reflexivity|lia|].
  exists h. split; [exact Hcall|]. split; [exact Hdom|].
  apply Htext. vm_compute. repeat split.
Defined.

(** ** Repeated commits of one path *)

Lemma getattribute_mapped (h : heap) a nd n c :
  h !! a = Some nd -> startswith_underscore n = false ->
  _element_map nd !! n = Some c ->
  getattribute h a n = Ok (h, Child c).
Proof.
  intros Ha Hus Hc. destruct (not_reserved_lookup nd n Hus) as [Hinst Hclass].
  unfold getattribute. rewrite (deref_Some _ _ _ Ha). cbn [mbind result_bind].
  rewrite Hinst, bool_decide_false by done.
  unfold __getattr__. rewrite Hus, (deref_Some _ _ _ Ha). cbn [mbind result_bind].
  by rewrite Hc.
Qed.

Lemma getattribute_cursor (h : heap) a nd n :
  h !! a = Some nd -> startswith_underscore n = false ->
  _element_map nd !! n = None ->
  getattribute h a n
  = Ok (h ++ [set_parent (Some a) (__init__ n)], Child (length h)).
Proof.
  intros Ha Hus Hc. destruct (not_reserved_lookup nd n Hus) as [Hinst Hclass].
  unfold getattribute. rewrite (deref_Some _ _ _ Ha). cbn [mbind result_bind].
  rewrite Hinst, bool_decide_false by done.
  unfold __getattr__. rewrite Hus, (deref_Some _ _ _ Ha). cbn [mbind result_bind].
  by rewrite Hc.
Qed.

Lemma dict_values_singleton n (c : addr) : dict_values {[n := c]} = [c].
Proof. unfold dict_values. by rewrite map_to_list_singleton. Qed.

Section same_path.
Context (r : string) (ps : list string) (leaf : string).
Hypothesis names_ok :
  Forall (fun n => startswith_underscore n = false) (ps ++ [leaf]).

Local Abbreviation level_node := (level_node r ps leaf).
Local Abbreviation leaf_node := (leaf_node ps leaf).
Local Abbreviation level_kids := (level_kids ps).
Local Abbreviation shape := (shape r ps leaf).
Local Abbreviation spine := (spine r ps leaf).
Local Abbreviation cursor_at := (cursor_at ps).

Lemma path_name_ok i n :
  (ps ++ [leaf]) !! i = Some n -> startswith_underscore n = false.
Proof.
  intros Hn. eapply (proj1 (Forall_forall _ _) names_ok).
  by eapply list_elem_of_lookup_2.
Qed.

Lemma path_lookup i :
  i ≤ length ps -> ∃ n, (ps ++ [leaf]) !! i = Some n.
Proof.
  intros Hi. apply lookup_lt_is_Some_2. rewrite length_app. simpl. lia.
Qed.

(** *** The first commit *)

(** Resolution on the fresh root allocates one cursor per name. *)
Lemma resolve_fresh m : ∀ i (h : heap),
  i + m = S (length ps) -> length h = S i ->
  (∀ i', i' ≤ i -> h !! i' = Some (level_node i' [])) ->
  ∃ h', resolve h i (drop i (ps ++ [leaf])) = Ok (h', S (length ps))
        ∧ length h' = S (S (length ps))
        ∧ ∀ i', i' ≤ S (length ps) -> h' !! i' = Some (level_node i' []).
Proof.
  induction m as [|m IH]; intros i h Him Hlen Hbare.
  - rewrite Nat.add_0_r in Him. subst i.
    rewrite drop_ge by (rewrite length_app; simpl; lia).
    exists h. by split; [|split].
  - destruct (path_lookup i) as [n Hn]; [lia|].
    rewrite (drop_S _ _ _ Hn). cbn [resolve].
    pose proof (path_name_ok _ _ Hn) as Hus.
    rewrite (getattribute_cursor h i _ n (Hbare i (le_n i)) Hus) by done.
    cbn [mbind result_bind]. rewrite Hlen.
    destruct (IH (S i) (h ++ [set_parent (Some i) (__init__ n)])) as (h' & Hres & Hlen' & Hall).
    + lia.
    + rewrite length_app. simpl. lia.
    + intros i' Hi'. destruct (decide (i' = S i)) as [->|Hne].
      * rewrite lookup_app_r by lia. rewrite Hlen, Nat.sub_diag. simpl.
        unfold level_node, set_parent. simpl. by rewrite Hn.
      * apply lookup_app_l_Some. apply Hbare. lia.
    + exists h'. by split; [|split].
Qed.

Lemma level_node_attached j (e' : addr) nm :
  j ≤ length ps ->
  (ps ++ [leaf]) !! j = Some nm ->
  attached (level_node j []) nm (cursor_at e' (S j))
  = level_node j (level_kids j [e'] j).
Proof.
  intros Hj Hnm. unfold attached, level_node, level_kids, cursor_at. simpl.
  rewrite insert_empty.
  repeat case_decide; try lia; simpl; by rewrite Hnm.
Qed.

(** The loop of the first commit links every depth, from the leaf up. *)
Lemma attach_links j : ∀ (h : heap) e' A fuel,
  j ≤ S (length ps) -> j ≤ fuel ->
  length ps < e' -> h !! e' = Some (leaf_node A) ->
  shape j [e'] h ->
  ∃ h', attach fuel h (cursor_at e' j) = Ok (h', j)
        ∧ shape 0 [e'] h' ∧ h' !! e' = Some (leaf_node A)
        ∧ length h' = length h.
Proof.
  induction j as [|j IH]; intros h e' A fuel Hj Hfuel He' Hleaf Hshape.
  - exists h. split; [|by split; [|split]].
    unfold cursor_at. rewrite decide_False by lia.
    by apply (attach_stop_root _ _ _ _ (Hshape 0 (Nat.le_0_l _))).
  - destruct fuel as [|fuel]; [lia|].
    assert (Hjk : j ≤ length ps) by lia.
    destruct (path_lookup j Hjk) as [nm Hnm].
    pose proof (Hshape j Hjk) as Hparent.
    unfold level_kids in Hparent. rewrite decide_True in Hparent by lia.
    assert (∃ nd, h !! cursor_at e' (S j) = Some nd
                  ∧ _parent nd = Some j ∧ _name nd = nm) as (nd & Hnd & Hpar & Hname).
    { unfold cursor_at. destruct (decide (S j = S (length ps))) as [Heq|Hne].
      - exists (leaf_node A). split; [done|]. simpl. split; [f_equal; lia|].
        assert (j = length ps) as -> by lia.
        rewrite lookup_app_r, Nat.sub_diag in Hnm by done. by inversion Hnm.
      - eexists. split; [apply Hshape; lia|]. simpl. split; [done|].
        rewrite lookup_app_l in Hnm by lia.
        rewrite lookup_app_l by lia. by rewrite Hnm. }
    rewrite (attach_step _ _ _ _ _ _ Hnd Hpar Hparent)
      by (simpl; apply not_elem_of_nil).
    rewrite Hname, (level_node_attached j e' nm Hjk Hnm).
    destruct (IH (<[j := level_node j (level_kids j [e'] j)]> h) e' A fuel)
      as (h' & Hrun & Hshape' & Hleaf' & Hlen); [lia|lia|done| | |].
    + rewrite list_lookup_insert_ne by lia. done.
    + intros i Hi. destruct (decide (i = j)) as [->|Hne].
      * apply list_lookup_insert_eq. by eapply lookup_lt_Some.
      * rewrite list_lookup_insert_ne by done. rewrite (Hshape i Hi).
        unfold level_kids.
        destruct (decide (i < S j)), (decide (i < j)); try done; lia.
    + assert (Hcur : cursor_at e' j = j)
        by (unfold cursor_at; by rewrite decide_False by lia).
      rewrite Hcur in Hrun. rewrite Hrun. cbn [mbind result_bind].
      exists h'. split; [done|]. split; [done|]. split; [done|].
      by rewrite Hlen, length_insert.
Qed.

(** The first commit on a fresh root builds the spine with one leaf. *)
Lemma first_commit A fuel :
  binds_self A = false ->
  S (length ps) ≤ fuel ->
  ∃ h e, commit_path fuel [__init__ r] (ps ++ [leaf]) A = Ok h
         ∧ spine h [e] [A].
Proof.
  intros Hself Hfuel. unfold commit_path.
  destruct (resolve_fresh (S (length ps)) 0 [__init__ r]) as (h1 & Hres & Hlen & Hbare);
    [done|done| |].
  { intros i' Hi'. assert (i' = 0) as -> by lia. done. }
  rewrite drop_0 in Hres. rewrite Hres. cbn [mbind result_bind].
  pose proof (Hbare (S (length ps)) (le_n _)) as Htarget.
  unfold __call__. rewrite (call_counted_unfold _ _ _ _ _ Hself Htarget).
  assert (Hnew : called_object (level_node (S (length ps)) []) A = leaf_node A).
  { unfold called_object, leaf_node, level_node. simpl. f_equal.
    rewrite lookup_app_r, Nat.sub_diag by done. done. }
  rewrite Hnew, Hlen.
  destruct (attach_links (S (length ps)) (h1 ++ [leaf_node A])
              (S (S (length ps))) A fuel) as (h' & Hrun & Hshape & Hleaf & _);
    [done|done|lia| | |].
  - by rewrite lookup_app_r, Hlen, Nat.sub_diag by lia.
  - intros i Hi. apply lookup_app_l_Some. rewrite (Hbare i) by lia.
    unfold level_kids. by rewrite decide_True by lia.
  - unfold cursor_at in Hrun. rewrite decide_True in Hrun by done.
    rewrite Hrun. cbn [mbind result_bind].
    exists h', (S (S (length ps))). split; [done|].
    split; [done| |].
    + constructor; [done|constructor].
    + constructor; [lia|constructor].
Qed.

(** *** Every further commit *)

(** On a spine the path resolves to the newest leaf without allocation. *)
Lemma resolve_spine (h : heap) es e m : ∀ i,
  shape 0 es h -> last es = Some e ->
  i + m = length ps ->
  resolve h i (drop i (ps ++ [leaf])) = Ok (h, e).
Proof.
  intros i Hshape Hlast. revert i.
  induction m as [|m IH]; intros i Him.
  - rewrite Nat.add_0_r in Him. subst i.
    rewrite drop_app_length. cbn [resolve].
    pose proof (Hshape (length ps) (le_n _)) as Hnode.
    unfold level_kids in Hnode. rewrite decide_False in Hnode by lia.
    rewrite decide_False in Hnode by lia.
    rewrite (getattribute_mapped _ _ _ leaf e Hnode).
    + done.
    + apply (path_name_ok (length ps)). by rewrite lookup_app_r, Nat.sub_diag.
    + simpl. rewrite Hlast, lookup_app_r, Nat.sub_diag by done. simpl.
      apply lookup_singleton_eq.
  - destruct (path_lookup i) as [n Hn]; [lia|].
    rewrite (drop_S _ _ _ Hn). cbn [resolve].
    pose proof (Hshape i ltac:(lia)) as Hnode.
    unfold level_kids in Hnode. rewrite decide_False in Hnode by lia.
    rewrite decide_True in Hnode by lia.
    rewrite (getattribute_mapped _ _ _ n (S i) Hnode).
    + cbn [mbind result_bind]. apply IH. lia.
    + by eapply path_name_ok.
    + simpl. rewrite Hn. simpl. apply lookup_singleton_eq.
Qed.

(** A further commit appends one leaf and changes nothing else. *)
Lemma next_commit (h : heap) es ks A fuel :
  binds_self A = false ->
  1 ≤ fuel -> es ≠ [] -> spine h es ks ->
  ∃ h', commit_path fuel h (ps ++ [leaf]) A = Ok h'
        ∧ spine h' (es ++ [length h]) (ks ++ [A]).
Proof.
  intros Hself Hfuel Hne [Hshape Hleaves Hbelow].
  assert (∃ e, last es = Some e) as [e Hlast].
  { destruct (last es) eqn:Hl; [by eexists|]. by apply last_None in Hl. }
  assert (Hein : e ∈ es).
  { apply last_Some in Hlast as [l' ->]. apply elem_of_app. right. by left. }
  assert (∃ Ae, h !! e = Some (leaf_node Ae)) as [Ae He].
  { apply list_elem_of_lookup in Hein as [n Hn].
    destruct (Forall2_lookup_l _ _ _ _ _ Hleaves Hn) as (Ae & _ & HAe). eauto. }
  pose proof (lookup_lt_Some _ _ _ He) as Helt.
  pose proof (Hshape (length ps) (le_n _)) as Hlast_node.
  unfold level_kids in Hlast_node. rewrite !decide_False in Hlast_node by lia.
  unfold commit_path.
  pose proof (resolve_spine h es e (length ps) 0 Hshape Hlast eq_refl) as Hres.
  rewrite drop_0 in Hres. rewrite Hres. cbn [mbind result_bind].
  unfold __call__. rewrite (call_counted_unfold _ _ _ _ _ Hself He).
  change (called_object (leaf_node Ae) A) with (leaf_node A).
  destruct fuel as [|fuel]; [lia|].
  set (h2 := h ++ [leaf_node A]).
  assert (Hnew : h2 !! length h = Some (leaf_node A)).
  { unfold h2. by rewrite lookup_app_r, Nat.sub_diag. }
  assert (Hk2 : h2 !! length ps = Some (level_node (length ps) es)).
  { unfold h2. by apply lookup_app_l_Some. }
  rewrite (attach_step _ _ _ _ _ _ Hnew eq_refl Hk2).
  2:{ simpl. rewrite Hlast, dict_values_singleton.
      intros Heq%list_elem_of_singleton. lia. }
  set (h3 := <[length ps := attached (level_node (length ps) es) (_name (leaf_node A)) (length h)]> h2).
  assert (Hupd : attached (level_node (length ps) es) (_name (leaf_node A)) (length h)
                 = level_node (length ps) (es ++ [length h])).
  { unfold attached, level_node. simpl. rewrite last_snoc, Hlast.
    rewrite lookup_app_r, Nat.sub_diag by done. simpl.
    by rewrite insert_singleton_eq. }
  assert (Hshape3 : shape 0 (es ++ [length h]) h3).
  { intros i Hi. unfold h3. destruct (decide (i = length ps)) as [->|Hneq].
    - rewrite list_lookup_insert_eq by (by eapply lookup_lt_Some).
      rewrite Hupd. unfold level_kids. repeat case_decide; try lia; done.
    - rewrite list_lookup_insert_ne by done. unfold h2.
      apply lookup_app_l_Some. rewrite (Hshape i Hi). unfold level_kids.
      repeat case_decide; try lia; done. }
  assert (Hstop : attach fuel h3 (length ps) = Ok (h3, 0)).
  { pose proof (Hshape3 (length ps) (le_n _)) as Hk3.
    destruct (length ps) as [|k] eqn:Hk.
    - by apply (attach_stop_root _ _ _ _ Hk3).
    - pose proof (Hshape3 k ltac:(lia)) as Hk3'.
      eapply (attach_stop_mapped _ _ _ _ k _ Hk3 eq_refl Hk3').
      unfold level_kids. rewrite decide_False by lia.
      rewrite decide_True by lia. simpl.
      rewrite dict_values_singleton. by apply list_elem_of_singleton. }
  fold h3. rewrite Hstop. cbn [mbind result_bind].
  exists h3. split; [done|]. split; [done| |].
  - apply Forall2_app.
    + eapply Forall2_impl; [done|]. simpl. intros x y Hx.
      unfold h3. rewrite list_lookup_insert_ne.
      * by apply lookup_app_l_Some.
      * intros <-. assert (Heq : leaf_node y = level_node (length ps) es) by congruence.
        apply (f_equal _elements) in Heq. simpl in Heq. congruence.
    + constructor; [|constructor]. unfold h3.
      rewrite list_lookup_insert_ne; [done|].
      pose proof (lookup_lt_Some _ _ _ Hlast_node). lia.
  - apply Forall_app. split; [done|]. constructor; [|constructor].
    pose proof (proj1 (Forall_forall _ _) Hbelow e Hein). simpl in *. lia.
Qed.

Lemma commit_all_spine fuel ks : ∀ (h : heap) es ks0,
  Forall (fun k => binds_self k = false) ks ->
  1 ≤ fuel -> es ≠ [] -> spine h es ks0 ->
  ∃ h' es', commit_all fuel h (ps ++ [leaf]) ks = Ok h'
            ∧ spine h' es' (ks0 ++ ks).
Proof.
  induction ks as [|A ks IH]; intros h es ks0 Hself Hfuel Hne Hspine.
  - exists h, es. split; [done|]. by rewrite app_nil_r.
  - inversion Hself as [|? ? HA Hks]; subst.
    destruct (next_commit h es ks0 A fuel HA Hfuel Hne Hspine) as (h1 & Hrun & Hspine1).
    cbn [commit_all]. rewrite Hrun. cbn [mbind result_bind].
    destruct (IH h1 (es ++ [length h]) (ks0 ++ [A]) Hks Hfuel)
      as (h' & es' & Hall & Hspine'); [by destruct es|done|].
    exists h', es'. split; [done|]. by rewrite <-app_assoc in Hspine'.
Qed.

(** *** The tree of a spine *)

Lemma spine_tree (h : heap) es ks m : ∀ i,
  spine h es ks -> i + m = length ps ->
  tree_of h i (TNode (default "" ((r :: ps ++ [leaf]) !! i)) []
                     (nest (drop i ps) (leaves leaf ks))).
Proof.
  intros i [Hshape Hleaves _]. revert i.
  induction m as [|m IH]; intros i Him.
  - rewrite Nat.add_0_r in Him. subst i. rewrite drop_all. cbn [nest].
    pose proof (Hshape (length ps) (le_n _)) as Hnode.
    unfold level_kids in Hnode. rewrite !decide_False in Hnode by lia.
    apply (tree_of_node _ _ _ _ Hnode). simpl. unfold leaves.
    apply Forall2_fmap_r. eapply Forall2_impl; [done|]. simpl.
    intros e A He. by apply (tree_of_node _ _ (leaf_node A) []).
  - pose proof (Hshape i ltac:(lia)) as Hnode.
    unfold level_kids in Hnode. rewrite decide_False in Hnode by lia.
    rewrite decide_True in Hnode by lia.
    destruct (lookup_lt_is_Some_2 ps i ltac:(lia)) as [p Hp].
    rewrite (drop_S _ _ _ Hp). cbn [nest].
    apply (tree_of_node _ _ _ _ Hnode). simpl.
    constructor; [|constructor].
    specialize (IH (S i) ltac:(lia)). simpl in IH.
    rewrite lookup_app_l in IH by lia. by rewrite Hp in IH.
Qed.

End same_path.

(** The store after [root.a(x=root)]: the attribute of the new node is
    the root itself. *)
Lemma self_valued_built :
  commit_path 1 [__init__ "root"] ["a"] [("x", VNode 0)] = Ok self_valued.
Proof. vm_compute. reflexivity. Qed.

(** A node that has no attributes and one child, whose attribute is the
    node itself, cannot be serialized with any fuel: the node prints its
    child, and the child prints the node as the value of its attribute. *)
Lemma to_xml_recurses (h : heap) a nd c cn k :
  h !! a = Some nd -> _attributes nd = [] -> _elements nd = [c] ->
  h !! c = Some cn -> _attributes cn = [(k, VNode a)] ->
  ∀ fuel, to_xml fuel h a = Raise OutOfFuel ∧ to_xml fuel h c = Raise OutOfFuel.
Proof.
  intros Ha Hattrs Hkids Hc Hcattrs.
  induction fuel as [|fuel [IHa IHc]]; [done|]. split.
  - cbn [to_xml]. rewrite (deref_Some _ _ _ Ha). cbn [mbind result_bind].
    rewrite Hattrs, Hkids. cbn -[to_xml render]. by rewrite IHc.
  - cbn [to_xml]. rewrite (deref_Some _ _ _ Hc). cbn [mbind result_bind].
    rewrite Hcattrs. unfold copy_attributes. cbn -[to_xml render].
    rewrite decide_True by done. cbn -[to_xml render]. by rewrite IHa.
Qed.

Lemma self_valued_recurses fuel :
  to_xml fuel self_valued 0 = Raise OutOfFuel.
Proof.
  by apply (to_xml_recurses self_valued 0
              (mkEasyXML None "root" [2] [] {["a" := 2]}) 2
              (mkEasyXML (Some 0) "a" [] [("x", VNode 0)] ∅) "x").
Qed.

(** C2, counterexample: a commit whose mapping has the key [self] raises
    [TypeError], so not every sequence of commits succeeds; and after
    [root.a(x=root)] serialization has no output, whatever the fuel. *)
Lemma self_keyword_stops_commits :
  commit_all 1 [__init__ "root"] ([] ++ ["a"]) [[("self", VInt 1)]] = Raise TypeError
  ∧ (∀ fuel, __str__ fuel self_valued 0 = Raise OutOfFuel)
  ∧ ¬ repeated_commits_yield_siblings.
Proof.
  split; [reflexivity|]. split.
  - intros fuel. unfold __str__. by rewrite self_valued_recurses.
  - intros Hclaim.
    destruct (Hclaim "root" [] "a" [("self", VInt 1)] [] 1) as (h & Hrun & _).
    + by repeat constructor.
    + simpl. lia.
    + discriminate Hrun.
Qed.

(** C2, amended: for every root, every path of names that do not begin
    with an underscore and every sequence of N >= 1 attribute mappings
    none of which has the key [self], N commits of that one path on a
    fresh root succeed and leave the tree in which every ancestor on the
    path occurs once and the shared parent has exactly N children with
    the leaf name, carrying the N mappings in the order of the commits.
    When every attribute value prints by itself, this is the tree that
    serialization converts; when moreover the mappings are dicts and the
    header pattern matches nowhere in the rendering of the tree, the text
    returned is that rendering. *)
Theorem repeated_commits_are_siblings
    (r : string) (ps : list string) (leaf : string) (A : dict) (ks : list dict)
    (fuel : nat) :
  Forall (fun n => startswith_underscore n = false) (ps ++ [leaf]) ->
  Forall (fun k => binds_self k = false) (A :: ks) ->
  S (length ps) ≤ fuel ->
  let t := TNode r [] (nest ps (leaves leaf (A :: ks))) in
  length (leaves leaf (A :: ks)) = S (length ks)
  ∧ ∃ h, commit_all fuel [__init__ r] (ps ++ [leaf]) (A :: ks) = Ok h
         ∧ tree_of h 0 t
         ∧ (∀ fuel', scalar_tree t -> height t ≤ fuel' ->
              to_xml fuel' h 0 = Ok (dom_of t))
         ∧ (∀ fuel', dict_tree t -> scalar_tree t ->
              pattern_free (spec_text t) -> height t ≤ fuel' ->
              __str__ fuel' h 0 = Ok (spec_text t)).
Proof.
  intros Hnames Hself Hfuel t. split.
  { unfold leaves. by rewrite length_fmap. }
  inversion Hself as [|? ? HA Hks]; subst.
  destruct (first_commit r ps leaf Hnames A fuel HA Hfuel) as (h1 & e & Hrun1 & Hspine1).
  destruct (commit_all_spine r ps leaf Hnames fuel ks h1 [e] [A])
    as (h & es & Hrun & Hspine); [done|lia|done|done|].
  exists h. split.
  { cbn [commit_all]. rewrite Hrun1. by cbn [mbind result_bind]. }
  assert (Htree : tree_of h 0 t).
  { pose proof (spine_tree r ps leaf h es ([A] ++ ks) (length ps) 0 Hspine eq_refl)
      as Ht.
    by rewrite drop_0 in Ht. }
  split; [done|]. split.
  - intros fuel' Hscalar Hh. by apply to_xml_tree.
  - intros fuel' Hdict Hscalar Hfree Hh. by apply str_of_tree.
Qed.

Lemma repeated_commits_are_siblings_witness :
  ∃ h, commit_all 2 [__init__ "root"] (["a"] ++ ["b"])
         ([("x", VInt 1)] :: [[("x", VInt 2)]; [("x", VInt 3)]]) = Ok h
       ∧ tree_of h 0
           (TNode "root" []
              [TNode "a" []
                 [TNode "b" [("x", VInt 1)] []; TNode "b" [("x", VInt 2)] [];
                  TNode "b" [("x", VInt 3)] []]]).
Proof.
  destruct (repeated_commits_are_siblings "root" ["a"] "b" [("x", VInt 1)]
              [[("x", VInt 2)]; [("x", VInt 3)]] 2)
    as (_ & h & Hrun & Htree & _).
  - repeat constructor.
  - repeat constructor.
  - simpl. lia.
  - exists h. split; [exact Hrun|exact Htree].
Defined.

(** * Further properties of the code *)

(** ** What an operation leaves in place *)

Lemma grown_refl P nd : grown P nd nd.
Proof. repeat split; try done. exists []. by rewrite app_nil_r. Qed.

Lemma grown_trans P nd1 nd2 nd3 : grown P nd1 nd2 -> grown P nd2 nd3 -> grown P nd1 nd3.
Proof.
  intros (Hn & Hp & Ha & m & He & Hm) (Hn' & Hp' & Ha' & m' & He' & Hm').
  repeat split; try congruence. exists (m ++ m'). split.
  - by rewrite He', He, app_assoc.
  - by apply Forall_app.
Qed.

Lemma grown_weaken (P Q : addr -> Prop) nd nd' :
  (∀ c, P c -> Q c) -> grown P nd nd' -> grown Q nd nd'.
Proof.
  intros HPQ (Hn & Hp & Ha & m & He & Hm). repeat split; try done.
  exists m. split; [done|]. by eapply Forall_impl.
Qed.

Lemma grown_attached (P : addr -> Prop) pn nm e : P e -> grown P pn (attached pn nm e).
Proof.
  intros He. repeat split; try done. exists [e]. split; [done|].
  by constructor.
Qed.

(** The loop body writes no [_parent] field, so it adds no ancestor. *)
Lemma ancestor_attached_inv (h : heap) q qn nm e a c :
  h !! q = Some qn ->
  ancestor (<[q := attached qn nm e]> h) a c -> ancestor h a c.
Proof.
  intros Hq. induction 1 as [a nd p Ha Hp|a nd p c Ha Hp _ IH].
  - apply list_lookup_insert_Some in Ha as [(<- & <- & _)|[Hne Ha]].
    + by eapply ancestor_parent.
    + by eapply ancestor_parent.
  - apply list_lookup_insert_Some in Ha as [(<- & <- & _)|[Hne Ha]].
    + by eapply ancestor_link.
    + by eapply ancestor_link.
Qed.

(** What the loop does to a store, whatever the store: it allocates
    nothing, it changes only ancestors of the object it starts at, and
    there it only appends children that lie on that parent chain. *)
Lemma attach_frame fuel : ∀ (h : heap) e h' k,
  attach fuel h e = Ok (h', k) ->
  length h' = length h
  ∧ ∀ a nd, h !! a = Some nd ->
      ∃ nd', h' !! a = Some nd'
             ∧ grown (fun c => c = e ∨ ancestor h e c) nd nd'
             ∧ (¬ ancestor h e a -> nd' = nd).
Proof.
  induction fuel as [|fuel IH]; intros h e h' k Hrun; simpl in Hrun.
  - destruct (loop_test h e) as [err|[p|]]; simpl in Hrun; try done.
    inversion Hrun; subst. split; [done|]. intros a nd Ha.
    exists nd. split; [done|]. split; [apply grown_refl|done].
  - destruct (loop_test h e) as [err|[p|]] eqn:Htest; simpl in Hrun; try done.
    2:{ inversion Hrun; subst. split; [done|]. intros a nd Ha.
        exists nd. split; [done|]. split; [apply grown_refl|done]. }
    unfold loop_test in Htest.
    destruct (deref h e) as [err|en] eqn:He; simpl in Htest; [done|].
    destruct (_parent en) as [p'|] eqn:Hpar; [|done].
    destruct (deref h p') as [err|pn] eqn:Hp; simpl in Htest; [done|].
    case_bool_decide; [done|]. inversion Htest; subst p'.
    apply deref_Ok in He, Hp.
    rewrite (loop_body_eq _ _ _ _ _ He Hp) in Hrun. simpl in Hrun.
    destruct (attach fuel _ p) as [err|[h'' n]] eqn:Hrec; simpl in Hrun; [done|].
    inversion Hrun; subst h'' k.
    destruct (IH _ _ _ _ Hrec) as [Hlen Hframe].
    split; [by rewrite Hlen, length_insert|].
    assert (Hanc : ancestor h e p) by (by eapply ancestor_parent).
    assert (Hup : ∀ c, c = p ∨ ancestor (<[p := attached pn (_name en) e]> h) p c ->
                       c = e ∨ ancestor h e c).
    { intros c [->|Hc]; [by right|]. right.
      eapply ancestor_link; [done|done|].
      exact (ancestor_attached_inv _ _ _ _ _ _ _ Hp Hc). }
    intros a nd Ha. destruct (decide (a = p)) as [->|Hne].
    + assert (nd = pn) as -> by congruence.
      destruct (Hframe p (attached pn (_name en) e)) as (nd' & Hnd' & Hgrown & _).
      { apply list_lookup_insert_eq. by eapply lookup_lt_Some. }
      exists nd'. split; [done|]. split; [|intros Hn; by destruct (Hn Hanc)].
      eapply grown_trans; [apply grown_attached; by left|].
      exact (grown_weaken _ _ _ _ Hup Hgrown).
    + destruct (Hframe a nd) as (nd' & Hnd' & Hgrown & Hsame).
      { by rewrite list_lookup_insert_ne. }
      exists nd'. split; [done|]. split; [exact (grown_weaken _ _ _ _ Hup Hgrown)|].
      intros Hna. apply Hsame. intros Hc. apply Hna.
      eapply ancestor_link; [done|done|].
      exact (ancestor_attached_inv _ _ _ _ _ _ _ Hp Hc).
Qed.

(** In a well-formed store an ancestor has a smaller address. *)
Lemma wf_ancestor_lt (h : heap) a c : wf h -> ancestor h a c -> c < a.
Proof.
  intros Hwf. induction 1 as [a nd p Ha Hp|a nd p c Ha Hp _ IH].
  - by eapply wf_parent.
  - pose proof (wf_parent _ Hwf _ _ _ Ha Hp). lia.
Qed.

Lemma wf_ancestor_app_inv (h : heap) x a c :
  wf (h ++ [x]) -> a < length h -> ancestor (h ++ [x]) a c -> ancestor h a c.
Proof.
  intros Hwf Hlt Hanc. revert Hlt.
  induction Hanc as [a nd p Ha Hp|a nd p c Ha Hp _ IH]; intros Hlt.
  - rewrite lookup_app_l in Ha by done. by eapply ancestor_parent.
  - pose proof (wf_parent _ Hwf _ _ _ Ha Hp) as Hpa.
    rewrite lookup_app_l in Ha by done.
    eapply ancestor_link; [done|done|]. apply IH. lia.
Qed.

(** The store that [__call__] starts its loop on is well formed. *)
Lemma wf_called_object (h : heap) self nd kwargs :
  wf h -> h !! self = Some nd -> wf (h ++ [called_object nd kwargs]).
Proof.
  intros Hwf Hnd. apply wf_alloc; [done| |done|done]. simpl. intros p Hp. split.
  - pose proof (wf_parent _ Hwf _ _ _ Hnd Hp).
    apply lookup_lt_Some in Hnd. lia.
  - by eapply wf_name.
Qed.

Lemma call_ok_inv fuel (h : heap) self kwargs h' :
  __call__ fuel h self kwargs = Ok h' ->
  ∃ nd k, h !! self = Some nd
          ∧ attach fuel (h ++ [called_object nd kwargs]) (length h) = Ok (h', k).
Proof.
  unfold __call__. intros Hrun.
  destruct (call_counted fuel h self kwargs) as [err|[h'' k]] eqn:Hc;
    simpl in Hrun; [done|]. inversion Hrun; subst h''.
  unfold call_counted in Hc. destruct (binds_self kwargs); [done|].
  destruct (deref h self) as [err|nd] eqn:Hnd; simpl in Hc; [done|].
  apply deref_Ok in Hnd. rewrite !alter_last in Hc. by exists nd, k.
Qed.

(** X2: in a state reachable from a fresh root, a commit allocates exactly
    one object, which has the name and the parent of the invoked node,
    the given mapping as attributes and no children.  Every object that
    is not an ancestor of the invoked node is left exactly as it was; an
    ancestor keeps its name, parent and attributes and its children in
    their order, and may only gain, at the end of its children list, the
    new object or ancestors of the invoked node. *)
Theorem commit_changes_only_ancestors r st self kwargs fuel (h' : heap) :
  reachable r st ->
  __call__ fuel (st_heap st) self kwargs = Ok h' ->
  let h := st_heap st in
  length h' = S (length h)
  ∧ (∃ nd, h !! self = Some nd ∧ h' !! length h = Some (called_object nd kwargs))
  ∧ ∀ a x, h !! a = Some x ->
      ∃ x', h' !! a = Some x'
            ∧ grown (fun c => c = length h ∨ ancestor h self c) x x'
            ∧ (¬ ancestor h self a -> x' = x).
Proof.
  intros [Hwf _]%reachable_wf (nd & k & Hnd & Hrun)%call_ok_inv h.
  fold h in Hwf, Hnd, Hrun.
  pose proof (wf_called_object _ _ _ kwargs Hwf Hnd) as Hwf1.
  destruct (attach_frame _ _ _ _ _ Hrun) as [Hlen Hframe].
  assert (Hnew : (h ++ [called_object nd kwargs]) !! length h
                 = Some (called_object nd kwargs)).
  { by rewrite lookup_app_r, Nat.sub_diag. }
  assert (Hup : ∀ c, ancestor (h ++ [called_object nd kwargs]) (length h) c ->
                     ancestor h self c).
  { intros c Hc. inversion Hc as [? y p Hy Hp|? y p ? Hy Hp Hrest]; subst;
      rewrite Hnew in Hy; inversion Hy; subst y; simpl in Hp.
    - by eapply ancestor_parent.
    - eapply ancestor_link; [done|done|].
      eapply wf_ancestor_app_inv; [done| |done].
      pose proof (wf_parent _ Hwf _ _ _ Hnd Hp).
      apply lookup_lt_Some in Hnd. lia. }
  split; [rewrite Hlen, length_app; simpl; lia|]. split.
  - exists nd. split; [done|].
    destruct (Hframe _ _ Hnew) as (x' & Hx' & _ & Hsame).
    rewrite Hx'. f_equal. apply Hsame. intros Hc.
    apply (wf_ancestor_lt _ _ _ Hwf1) in Hc. lia.
  - intros a x Ha.
    destruct (Hframe a x (lookup_app_l_Some _ _ _ _ Ha)) as (x' & Hx' & Hgrown & Hsame).
    exists x'. split; [done|]. split.
    + eapply grown_weaken; [|done]. intros c [->|Hc]; [by left|right; by apply Hup].
    + intros Hna. apply Hsame. intros Hc. by apply Hna, Hup.
Qed.

Lemma commit_changes_only_ancestors_witness :
  ∃ h', __call__ 1 (st_heap two_siblings) 3 [("x", VInt 1)] = Ok h'
        ∧ length h' = S (length (st_heap two_siblings)).
Proof.
  destruct (__call__ 1 (st_heap two_siblings) 3 [("x", VInt 1)]) as [err|h'] eqn:Hrun.
  { vm_compute in Hrun. discriminate Hrun. }
  exists h'. split; [reflexivity|].
  exact (proj1 (commit_changes_only_ancestors "root" two_siblings 3 [("x", VInt 1)] 1 h'
                  two_siblings_reachable Hrun)).
Defined.

(** ** Resolution is read-only *)

(** The element of a node does not depend on objects allocated later. *)
Lemma to_xml_app fuel : ∀ (h l : heap) a el,
  to_xml fuel h a = Ok el -> to_xml fuel (h ++ l) a = Ok el.
Proof.
  induction fuel as [|fuel IH]; intros h l a el Hrun; [done|].
  simpl in *. destruct (deref h a) as [err|nd] eqn:Hnd; simpl in Hrun; [done|].
  apply deref_Ok in Hnd.
  rewrite (deref_Some _ _ _ (lookup_app_l_Some _ l _ _ Hnd)). simpl.
  destruct (copy_attributes _ _ _) as [err|element] eqn:Hattrs in Hrun;
    simpl in Hrun; [done|].
  assert (Hstr : ∀ b t, (doc ← to_xml fuel h b; Ok (render doc)) = Ok t ->
                         (doc ← to_xml fuel (h ++ l) b; Ok (render doc)) = Ok t).
  { intros b t Hb. destruct (to_xml fuel h b) as [err|doc] eqn:Hdoc;
      simpl in Hb; [done|]. by rewrite (IH _ l _ _ Hdoc). }
  rewrite (copy_attributes_mono _ _ _ _ _ (fun v s => py_str_mono _ _ v s Hstr) Hattrs).
  simpl. rewrite <-Hrun. apply fold_children_ext. intros e He.
  destruct (fold_children_Ok _ _ _ _ Hrun e He) as [c Hc].
  rewrite Hc. by apply IH.
Qed.

Lemma str_app fuel (h l : heap) a s :
  __str__ fuel h a = Ok s -> __str__ fuel (h ++ l) a = Ok s.
Proof.
  unfold __str__. intros Hrun.
  destruct (to_xml fuel h a) as [err|el] eqn:Hel; simpl in Hrun; [done|].
  by rewrite (to_xml_app _ _ _ _ _ Hel).
Qed.

(** One access allocates at most one object, a cursor. *)
Lemma getattribute_frame (h : heap) self name h' v :
  getattribute h self name = Ok (h', v) ->
  ∃ new, h' = h ++ new ∧ length new ≤ 1 ∧ Forall is_cursor new.
Proof.
  intros (nd & Hnd & Hcases)%getattribute_cases.
  destruct Hcases as [(-> & _)|[(-> & _)|[(-> & _)|(-> & _)]]];
    try (exists []; rewrite app_nil_r;
         split; [done|]; split; [simpl; lia|constructor]).
  exists [set_parent (Some self) (__init__ name)].
  split; [done|]. split; [simpl; lia|].
  constructor; [|constructor]. by repeat split.
Qed.

Lemma resolve_app (h : heap) cur path h' t :
  resolve h cur path = Ok (h', t) ->
  ∃ cursors, h' = h ++ cursors ∧ length cursors ≤ length path
             ∧ Forall is_cursor cursors.
Proof.
  revert h cur. induction path as [|n path IH]; intros h cur Hrun; simpl in Hrun.
  - inversion Hrun; subst. exists []. rewrite app_nil_r. by repeat split.
  - destruct (getattribute h cur n) as [err|[h1 v]] eqn:Hget; simpl in Hrun; [done|].
    destruct v as [c| |]; try done.
    destruct (getattribute_frame _ _ _ _ _ Hget) as (new & -> & Hnew & Hcur).
    destruct (IH _ _ Hrun) as (cursors & -> & Hlen & Hall).
    exists (new ++ cursors). split; [by rewrite app_assoc|]. split.
    + rewrite length_app. simpl. lia.
    + by apply Forall_app.
Qed.

(** X1: a chain of attribute accesses, whatever the store, changes no
    existing object: the new store is the old one followed by at most one
    new object per name of the chain, each a cursor with a parent and
    with no children, attributes or map entries.  No cursor is attached,
    so the element and the text of every node are what they were. *)
Theorem resolve_is_read_only (h : heap) cur path h' t :
  resolve h cur path = Ok (h', t) ->
  ∃ cursors,
    h' = h ++ cursors
    ∧ length cursors ≤ length path
    ∧ Forall is_cursor cursors
    ∧ (∀ fuel a el, to_xml fuel h a = Ok el -> to_xml fuel h' a = Ok el)
    ∧ (∀ fuel a s, __str__ fuel h a = Ok s -> __str__ fuel h' a = Ok s).
Proof.
  intros Hrun.
  destruct (resolve_app _ _ _ _ _ Hrun) as (cursors & -> & Hlen & Hall).
  exists cursors. split; [done|]. split; [done|]. split; [done|]. split.
  - intros fuel a el. apply to_xml_app.
  - intros fuel a s. apply str_app.
Qed.

Lemma resolve_is_read_only_witness :
  ∃ h' t, resolve [__init__ "root"] 0 ["a"; "b"] = Ok (h', t)
          ∧ __str__ 1 h' 0 = Ok "<root/>".
Proof.
  destruct (resolve [__init__ "root"] 0 ["a"; "b"]) as [err|[h' t]] eqn:Hrun.
  { vm_compute in Hrun. discriminate Hrun. }
  exists h', t. split; [reflexivity|].
  destruct (resolve_is_read_only _ _ _ _ _ Hrun) as (cursors & _ & _ & _ & _ & Hstr).
  apply Hstr. vm_compute. reflexivity.
Defined.

(** ** Programs only add *)

(** One instruction keeps every object, grown at most. *)
Lemma exec_op_grows fuel st o st' :
  exec_op fuel st o = Ok st' ->
  st_refs st `prefix_of` st_refs st'
  ∧ ∀ a x, st_heap st !! a = Some x ->
      ∃ x', st_heap st' !! a = Some x' ∧ grown (fun _ => True) x x'.
Proof.
  destruct o as [i name|i kwargs]; simpl; intros Hstep.
  - destruct (st_refs st !! i) as [a|]; [|done].
    destruct (getattribute (st_heap st) a name) as [err|[h' v]] eqn:Hget;
      simpl in Hstep; [done|].
    destruct (getattribute_frame _ _ _ _ _ Hget) as (new & -> & _ & _).
    assert (Hkeep : ∀ a0 x, st_heap st !! a0 = Some x ->
              ∃ x', (st_heap st ++ new) !! a0 = Some x' ∧ grown (fun _ => True) x x').
    { intros a0 x Hx. exists x. split; [by apply lookup_app_l_Some|apply grown_refl]. }
    destruct v; inversion Hstep; subst; simpl; (split; [|done]);
      [by apply prefix_app_r|done|done].
  - destruct (st_refs st !! i) as [a|]; [|done].
    destruct (__call__ fuel (st_heap st) a kwargs) as [err|h'] eqn:Hcall;
      simpl in Hstep; [done|].
    inversion Hstep; subst; simpl. split; [done|].
    apply call_ok_inv in Hcall as (nd & k & Hnd & Hrun).
    destruct (attach_frame _ _ _ _ _ Hrun) as [_ Hframe].
    intros a0 x Hx.
    destruct (Hframe a0 x (lookup_app_l_Some _ _ _ _ Hx)) as (x' & Hx' & Hgrown & _).
    exists x'. split; [done|]. by eapply grown_weaken.
Qed.

(** X3: running any program from any state destroys and rewrites nothing:
    the references held are kept, and every object keeps its name, its
    parent and its attributes; its children list only grows at the end,
    so no child is removed, replaced or reordered. *)
Theorem programs_only_add fuel prog st st' :
  exec fuel st prog = Ok st' ->
  st_refs st `prefix_of` st_refs st'
  ∧ ∀ a x, st_heap st !! a = Some x ->
      ∃ x', st_heap st' !! a = Some x' ∧ grown (fun _ => True) x x'.
Proof.
  revert st. induction prog as [|o prog IH]; intros st Hrun; simpl in Hrun.
  - inversion Hrun; subst. split; [done|]. intros a x Hx.
    exists x. split; [done|apply grown_refl].
  - destruct (exec_op fuel st o) as [err|st1] eqn:Hstep; simpl in Hrun; [done|].
    destruct (exec_op_grows _ _ _ _ Hstep) as [Hrefs1 Hkeep1].
    destruct (IH _ Hrun) as [Hrefs Hkeep].
    split; [by etrans|]. intros a x Hx.
    destruct (Hkeep1 a x Hx) as (x1 & Hx1 & Hg1).
    destruct (Hkeep a x1 Hx1) as (x' & Hx' & Hg).
    exists x'. split; [done|]. by eapply grown_trans.
Qed.

Lemma programs_only_add_witness :
  ∃ x', st_heap two_siblings !! 0 = Some x'
        ∧ grown (fun _ => True) (__init__ "root") x'.
Proof.
  refine (proj2 (programs_only_add 1
            [Access 0 "a"; Commit 1 []; Access 0 "a"; Commit 2 []]
            (fresh "root") two_siblings _) 0 (__init__ "root") eq_refl).
  vm_compute. reflexivity.
Defined.

(** ** A commit and the accesses after it *)

Lemma attach_needs_fuel (h : heap) e nd p pn :
  h !! e = Some nd -> _parent nd = Some p -> h !! p = Some pn ->
  e ∉ dict_values (_element_map pn) ->
  attach 0 h e = Raise OutOfFuel.
Proof.
  intros He Hp Hpn Hin. simpl. unfold loop_test.
  rewrite (deref_Some _ _ _ He). simpl. rewrite Hp.
  rewrite (deref_Some _ _ _ Hpn). simpl. by rewrite bool_decide_false.
Qed.

(** In a well-formed store the values of a map are existing objects. *)
Lemma wf_values_lt (h : heap) p pn c :
  wf h -> h !! p = Some pn -> c ∈ dict_values (_element_map pn) -> c < length h.
Proof.
  intros Hwf Hp [n Hn]%elem_of_dict_values.
  rewrite (wf_map _ Hwf _ _ n Hp) in Hn.
  apply last_named_elem in Hn as [Hin _].
  destruct (wf_child _ Hwf _ _ _ Hp Hin) as (cn & Hcn & _).
  by eapply lookup_lt_Some.
Qed.

(** The first iteration of a commit below a parent [p], and what is left
    to run. *)
Lemma call_first_step r st self nd p kwargs fuel (h' : heap) k :
  reachable r st ->
  st_heap st !! self = Some nd -> _parent nd = Some p ->
  call_counted fuel (st_heap st) self kwargs = Ok (h', k) ->
  let h := st_heap st in
  ∃ pn fuel' k',
    h !! p = Some pn ∧ fuel = S fuel' ∧ k = S k'
    ∧ wf (<[p := attached pn (_name nd) (length h)]> (h ++ [called_object nd kwargs]))
    ∧ attach fuel' (<[p := attached pn (_name nd) (length h)]>
                      (h ++ [called_object nd kwargs])) p = Ok (h', k').
Proof.
  intros [Hwf _]%reachable_wf Hnd Hpar Hrun h. fold h in Hwf, Hnd, Hrun.
  pose proof (call_counted_Ok _ _ _ _ _ Hrun) as Hself.
  rewrite (call_counted_unfold _ _ _ _ _ Hself Hnd) in Hrun.
  pose proof (wf_called_object _ _ _ kwargs Hwf Hnd) as Hwf1.
  assert (Hplt : p < length h).
  { pose proof (wf_parent _ Hwf _ _ _ Hnd Hpar). apply lookup_lt_Some in Hnd. lia. }
  destruct (lookup_lt_is_Some_2 _ _ Hplt) as [pn Hp].
  assert (Hnew : (h ++ [called_object nd kwargs]) !! length h
                 = Some (called_object nd kwargs)).
  { by rewrite lookup_app_r, Nat.sub_diag. }
  assert (Hp1 : (h ++ [called_object nd kwargs]) !! p = Some pn)
    by (by apply lookup_app_l_Some).
  assert (Hfresh : length h ∉ dict_values (_element_map pn)).
  { intros Hin. pose proof (wf_values_lt _ _ _ _ Hwf Hp Hin). lia. }
  destruct fuel as [|fuel'].
  { by rewrite (attach_needs_fuel _ _ _ _ _ Hnew Hpar Hp1 Hfresh) in Hrun. }
  rewrite (attach_step _ _ _ _ _ _ Hnew Hpar Hp1 Hfresh) in Hrun.
  destruct (attach fuel' _ p) as [err|[h'' k']] eqn:Hrec; simpl in Hrun; [done|].
  inversion Hrun; subst h'' k.
  exists pn, fuel', k'. split; [done|]. split; [done|]. split; [done|].
  split; [|done]. by apply (wf_attached _ _ _ _ _ Hwf1 Hnew Hpar Hp1).
Qed.

(** A commit below a parent [p]: what [p] and the new object are afterwards. *)
Lemma call_links_parent r st self nd p kwargs fuel (h' : heap) :
  reachable r st ->
  st_heap st !! self = Some nd -> _parent nd = Some p ->
  __call__ fuel (st_heap st) self kwargs = Ok h' ->
  let h := st_heap st in
  ∃ pn pn',
    h !! p = Some pn ∧ h' !! p = Some pn'
    ∧ _elements pn' = _elements pn ++ [length h]
    ∧ h' !! length h = Some (mkEasyXML (Some p) (_name nd) [] kwargs ∅)
    ∧ getattribute h' p (_name nd) = Ok (h', Child (length h)).
Proof.
  intros Hreach Hnd Hpar Hcall h.
  pose proof (proj1 (reachable_wf _ _ Hreach)) as Hwf. fold h in Hwf.
  unfold __call__ in Hcall.
  destruct (call_counted fuel (st_heap st) self kwargs) as [err|[h'' k]] eqn:Hc;
    simpl in Hcall; [done|]. inversion Hcall; subst h''.
  destruct (call_first_step _ _ _ _ _ _ _ _ _ Hreach Hnd Hpar Hc)
    as (pn & fuel' & k' & Hp & _ & _ & Hwf2 & Hrec). fold h in Hp, Hwf2, Hrec.
  destruct (attach_frame _ _ _ _ _ Hrec) as [Hlen Hframe].
  assert (Hplt : p < length h) by (by eapply lookup_lt_Some).
  assert (Hkept : ∀ a x, <[p := attached pn (_name nd) (length h)]>
                           (h ++ [called_object nd kwargs]) !! a = Some x ->
                         p ≤ a -> h' !! a = Some x).
  { intros a x Hx Hle. destruct (Hframe a x Hx) as (x' & Hx' & _ & Hsame).
    rewrite Hx'. f_equal. apply Hsame. intros Hanc.
    apply (wf_ancestor_lt _ _ _ Hwf2) in Hanc. lia. }
  assert (Hp' : h' !! p = Some (attached pn (_name nd) (length h))).
  { apply Hkept; [|done]. apply list_lookup_insert_eq.
    rewrite length_app. simpl. lia. }
  exists pn, (attached pn (_name nd) (length h)).
  split; [done|]. split; [done|]. split; [done|]. split.
  - apply Hkept; [|lia]. rewrite list_lookup_insert_ne by lia.
    rewrite lookup_app_r, Nat.sub_diag by done. simpl.
    unfold called_object, set_attributes, set_parent. simpl. by rewrite Hpar.
  - apply (getattribute_mapped _ _ _ _ _ Hp').
    + exact (wf_name _ Hwf _ _ _ Hnd Hpar).
    + simpl. apply lookup_insert_eq.
Qed.

(** X4: in a state reachable from a fresh root, a commit on a node with a
    parent appends the new object as the last child of that parent; the
    new object has the name of the invoked node, the given mapping as
    attributes and no children; and the next access to that name on the
    parent returns the new object without changing the store. *)
Theorem commit_then_access r st self nd p kwargs fuel (h' : heap) :
  reachable r st ->
  st_heap st !! self = Some nd -> _parent nd = Some p ->
  __call__ fuel (st_heap st) self kwargs = Ok h' ->
  let h := st_heap st in
  ∃ pn pn',
    h !! p = Some pn ∧ h' !! p = Some pn'
    ∧ _elements pn' = _elements pn ++ [length h]
    ∧ h' !! length h = Some (mkEasyXML (Some p) (_name nd) [] kwargs ∅)
    ∧ getattribute h' p (_name nd) = Ok (h', Child (length h)).
Proof. apply call_links_parent. Qed.

Lemma commit_then_access_witness :
  ∃ h', __call__ 1 (st_heap two_siblings) 3 [("x", VInt 1)] = Ok h'
        ∧ getattribute h' 0 "a" = Ok (h', Child 4).
Proof.
  destruct (__call__ 1 (st_heap two_siblings) 3 [("x", VInt 1)]) as [err|h'] eqn:Hrun.
  { vm_compute in Hrun. discriminate Hrun. }
  exists h'. split; [reflexivity|].
  destruct (commit_then_access "root" two_siblings 3 (mkEasyXML (Some 0) "a" [] [] ∅)
              0 [("x", VInt 1)] 1 h' two_siblings_reachable)
    as (pn & pn' & _ & _ & _ & _ & Hget).
  - vm_compute. reflexivity.
  - reflexivity.
  - exact Hrun.
  - exact Hget.
Defined.


(** X5: in a state reachable from a fresh root, a commit, with no keyword
    argument named [self], on a node whose parent is settled (the root, or
    the entry of its own parent's map) returns with any fuel of at least
    one, runs the loop body exactly once and changes the parent alone:
    the new object is appended to the parent's children and entered in
    its map under the name. *)
Theorem commit_below_settled r st self nd p pn kwargs fuel :
  reachable r st ->
  st_heap st !! self = Some nd -> _parent nd = Some p ->
  st_heap st !! p = Some pn -> settled (st_heap st) p ->
  binds_self kwargs = false ->
  1 ≤ fuel ->
  let h := st_heap st in
  call_counted fuel h self kwargs
  = Ok (<[p := attached pn (_name nd) (length h)]> (h ++ [called_object nd kwargs]), 1).
Proof.
  intros Hreach Hnd Hpar Hp (pn0 & Hp0 & Hsettled) Hself Hfuel h.
  pose proof (proj1 (reachable_wf _ _ Hreach)) as Hwf.
  fold h in Hwf, Hnd, Hp, Hp0.
  assert (pn0 = pn) as -> by congruence.
  rewrite (call_counted_unfold _ _ _ _ _ Hself Hnd).
  assert (Hplt : p < length h) by (by eapply lookup_lt_Some).
  assert (Hnew : (h ++ [called_object nd kwargs]) !! length h
                 = Some (called_object nd kwargs)).
  { by rewrite lookup_app_r, Nat.sub_diag. }
  assert (Hp1 : (h ++ [called_object nd kwargs]) !! p = Some pn)
    by (by apply lookup_app_l_Some).
  assert (Hfresh : length h ∉ dict_values (_element_map pn)).
  { intros Hin. pose proof (wf_values_lt _ _ _ _ Hwf Hp Hin). lia. }
  destruct fuel as [|fuel]; [lia|].
  rewrite (attach_step _ _ _ _ _ _ Hnew Hpar Hp1 Hfresh).
  set (h2 := <[p := attached pn (_name (called_object nd kwargs)) (length h)]>
               (h ++ [called_object nd kwargs])).
  assert (Hp2 : h2 !! p = Some (attached pn (_name (called_object nd kwargs)) (length h))).
  { apply list_lookup_insert_eq. rewrite length_app. simpl. lia. }
  assert (Hstop : attach fuel h2 p = Ok (h2, 0)).
  { destruct (_parent pn) as [q|] eqn:Hq.
    - destruct Hsettled as (qn & Hqn & Hin).
      pose proof (wf_parent _ Hwf _ _ _ Hp Hq) as Hqp.
      eapply (attach_stop_mapped _ _ _ _ q qn Hp2); [done| |done].
      unfold h2. rewrite list_lookup_insert_ne by lia. by apply lookup_app_l_Some.
    - by eapply (attach_stop_root _ _ _ _ Hp2). }
  by rewrite Hstop.
Qed.

Lemma commit_below_settled_witness :
  ∃ h', call_counted 1 (st_heap two_siblings) 3 [("x", VInt 1)] = Ok (h', 1).
Proof.
  eexists.
  refine (commit_below_settled "root" two_siblings 3 (mkEasyXML (Some 0) "a" [] [] ∅)
            0 (mkEasyXML None "root" [2; 3] [] {["a" := 3]}) [("x", VInt 1)] 1
            two_siblings_reachable _ _ _ _ _ _).
  - vm_compute. reflexivity.
  - reflexivity.
  - vm_compute. reflexivity.
  - eexists. split; [vm_compute; reflexivity|]. exact I.
  - reflexivity.
  - lia.
Defined.

(** ** A reference to an older sibling *)

Lemma stale_cursor_reachable : reachable "root" stale_cursor.
Proof.
  apply (exec_reachable "root" 1
           [Access 0 "a"; Commit 1 []; Access 0 "a"; Commit 2 []; Access 2 "b"]
           (fresh "root")); [apply reach_fresh|].
  by vm_compute.
Qed.

(** X6: in a state reachable from a fresh root, let [a] be a child of [p]
    that is no longer the entry of [p]'s map for its name, because a
    later sibling of that name exists.  A commit on a node whose parent
    is [a] then appends [a] to the children of [p] once more, so that
    [a] occurs there again. *)
Theorem stale_reference_attaches_again r st t tn a an p pn b kwargs fuel (h' : heap) :
  reachable r st ->
  st_heap st !! t = Some tn -> _parent tn = Some a ->
  st_heap st !! a = Some an -> _parent an = Some p ->
  st_heap st !! p = Some pn -> a ∈ _elements pn ->
  _element_map pn !! _name an = Some b -> b ≠ a ->
  __call__ fuel (st_heap st) t kwargs = Ok h' ->
  ∃ pn', h' !! p = Some pn' ∧ _elements pn' = _elements pn ++ [a].
Proof.
  intros Hreach Ht Htpar Ha Hapar Hp Hin Hb Hba Hcall.
  pose proof (proj1 (reachable_wf _ _ Hreach)) as Hwf.
  unfold __call__ in Hcall.
  destruct (call_counted fuel (st_heap st) t kwargs) as [err|[h'' k]] eqn:Hc;
    simpl in Hcall; [done|]. inversion Hcall; subst h''.
  destruct (call_first_step _ _ _ _ _ _ _ _ _ Hreach Ht Htpar Hc)
    as (an0 & fuel' & k' & Ha0 & _ & _ & Hwf2 & Hrec).
  assert (an0 = an) as -> by congruence.
  set (h := st_heap st) in *.
  set (h2 := <[a := attached an (_name tn) (length h)]> (h ++ [called_object tn kwargs])) in *.
  pose proof (wf_parent _ Hwf _ _ _ Ha Hapar) as Hpa.
  assert (Halt : a < length h) by (by eapply lookup_lt_Some).
  assert (Ha2 : h2 !! a = Some (attached an (_name tn) (length h))).
  { apply list_lookup_insert_eq. rewrite length_app. simpl. lia. }
  assert (Hp2 : h2 !! p = Some pn).
  { unfold h2. rewrite list_lookup_insert_ne by lia. by apply lookup_app_l_Some. }
  assert (Hnot : a ∉ dict_values (_element_map pn)).
  { intros [n Hn]%elem_of_dict_values.
    pose proof Hn as Hn'. rewrite (wf_map _ Hwf _ _ n Hp) in Hn'.
    apply last_named_elem in Hn' as [_ Hname].
    unfold name_of in Hname. fold h in Hname. rewrite Ha in Hname.
    inversion Hname; subst n. congruence. }
  destruct fuel' as [|fuel''].
  { by rewrite (attach_needs_fuel _ _ _ _ _ Ha2 Hapar Hp2 Hnot) in Hrec. }
  rewrite (attach_step _ _ _ _ _ _ Ha2 Hapar Hp2 Hnot) in Hrec.
  destruct (attach fuel'' _ p) as [err|[h3 k3]] eqn:Hrec3; simpl in Hrec; [done|].
  inversion Hrec; subst h3 k'.
  pose proof (wf_attached _ _ _ _ _ Hwf2 Ha2 Hapar Hp2) as Hwf3.
  destruct (attach_frame _ _ _ _ _ Hrec3) as [_ Hframe].
  destruct (Hframe p (attached pn (_name (attached an (_name tn) (length h))) a))
    as (pn' & Hpn' & _ & Hsame).
  { apply list_lookup_insert_eq. unfold h2.
    rewrite length_insert, length_app. simpl.
    pose proof (lookup_lt_Some _ _ _ Hp) as Hplt. fold h in Hplt. lia. }
  exists pn'. split; [done|]. rewrite Hsame; [done|].
  intros Hanc. apply (wf_ancestor_lt _ _ _ Hwf3) in Hanc. lia.
Qed.

Lemma stale_reference_attaches_again_witness :
  ∃ h' pn', __call__ 2 (st_heap stale_cursor) 4 [] = Ok h'
            ∧ h' !! 0 = Some pn' ∧ _elements pn' = [2; 3] ++ [2].
Proof.
  destruct (__call__ 2 (st_heap stale_cursor) 4 []) as [err|h'] eqn:Hrun.
  { vm_compute in Hrun. discriminate Hrun. }
  destruct (stale_reference_attaches_again "root" stale_cursor
              4 (mkEasyXML (Some 2) "b" [] [] ∅)
              2 (mkEasyXML (Some 0) "a" [] [] ∅)
              0 (mkEasyXML None "root" [2; 3] [] {["a" := 3]}) 3 [] 2 h'
              stale_cursor_reachable) as (pn' & Hpn' & Hel).
  - vm_compute. reflexivity.
  - reflexivity.
  - vm_compute. reflexivity.
  - reflexivity.
  - vm_compute. reflexivity.
  - simpl. apply elem_of_cons. left. reflexivity.
  - vm_compute. reflexivity.
  - lia.
  - exact Hrun.
  - exists h', pn'. split; [reflexivity|]. split; [exact Hpn'|exact Hel].
Defined.

(** ** The root *)

(** X7: in every state reachable from a fresh root named [r], the root is
    still named [r], has no parent and no attributes, and occurs in no
    children list and in no child map: no sequence of accesses and
    commits renames the root, gives it attributes or attaches it. *)
Theorem root_stays_bare r st :
  reachable r st ->
  ∃ rt, st_heap st !! 0 = Some rt
        ∧ _name rt = r ∧ _parent rt = None ∧ _attributes rt = []
        ∧ ¬ in_some_children (st_heap st) 0
        ∧ ¬ in_some_map (st_heap st) 0.
Proof.
  intros Hreach.
  assert (∃ rt, st_heap st !! 0 = Some rt ∧ grown (fun _ => True) (__init__ r) rt)
    as (rt & Hrt & Hn & Hp & Ha & _).
  { induction Hreach as [|st o fuel st' _ (rt & Hrt & Hg) Hstep].
    - exists (__init__ r). split; [done|apply grown_refl].
    - destruct (proj2 (exec_op_grows _ _ _ _ Hstep) 0 rt Hrt) as (rt' & Hrt' & Hg').
      exists rt'. split; [done|]. by eapply grown_trans. }
  simpl in Hn, Hp, Ha.
  pose proof (proj1 (reachable_wf _ _ Hreach)) as Hwf.
  assert (Hnochild : ¬ in_some_children (st_heap st) 0).
  { intros (p & pn & Hpn & Hin).
    destruct (wf_child _ Hwf _ _ _ Hpn Hin) as (cn & Hcn & Hcp). congruence. }
  exists rt. repeat split; try done.
  intros (p & pn & Hpn & [n Hn']%elem_of_dict_values).
  apply Hnochild. exists p, pn. split; [done|].
  rewrite (wf_map _ Hwf _ _ n Hpn) in Hn'. by apply last_named_elem in Hn' as [? _].
Qed.

Lemma root_stays_bare_witness :
  ∃ rt, st_heap stale_cursor !! 0 = Some rt
        ∧ _name rt = "root" ∧ _parent rt = None ∧ _attributes rt = [].
Proof.
  destruct (root_stays_bare "root" stale_cursor stale_cursor_reachable)
    as (rt & Hrt & Hn & Hp & Ha & _).
  exists rt. split; [exact Hrt|]. split; [exact Hn|]. split; [exact Hp|exact Ha].
Defined.

(** ** Serialization always succeeds *)

(** In a well-formed store a tree is no taller than the number of objects
    from its node on. *)
Lemma wf_height (h : heap) : wf h -> ∀ t a, tree_of h a t -> height t ≤ length h - a.
Proof.
  intros Hwf. induction t as [name attrs kids IH] using Tree_induction.
  intros a Htree. inversion Htree as [a' nd ts Hnd Hkids]; subst.
  pose proof (lookup_lt_Some _ _ _ Hnd) as Halt.
  assert (Hbound : foldr (fun c acc => Nat.max (height c) acc) 0 kids
                   ≤ length h - S a).
  { assert (Hall : ∀ c, c ∈ _elements nd -> a < c).
    { intros c Hc. destruct (wf_child _ Hwf _ _ _ Hnd Hc) as (cn & Hcn & Hcp).
      by eapply wf_parent. }
    clear Htree Hnd. revert IH Hall.
    induction Hkids as [|c t l ts Hc _ IHl]; intros IH Hall; simpl; [lia|].
    inversion IH as [|? ? IHt IHts]; subst.
    pose proof (IHt _ Hc) as Ht. pose proof (Hall c ltac:(by left)) as Hac.
    specialize (IHl IHts ltac:(intros; apply Hall; by right)). lia. }
  simpl. lia.
Qed.

Lemma scalar_store_tree (h : heap) :
  scalar_store h -> ∀ t a, tree_of h a t -> scalar_tree t.
Proof.
  intros Hstore. induction t as [name attrs kids IH] using Tree_induction.
  intros a Htree. inversion Htree as [a' nd ts Hnd Hkids]; subst.
  split; [by eapply Hstore|].
  clear Htree Hnd. revert IH.
  induction Hkids as [|c t l ts Hc _ IHl]; intros IH; simpl; [done|].
  inversion IH as [|? ? IHt IHts]; subst. split; [by eapply IHt|by apply IHl].
Qed.

(** X8: in every state reachable from a fresh root in which every
    attribute value prints by itself, serializing any node returns a
    text; fuel for as many levels as there are objects from the node on
    is enough, because children are always allocated after their parents
    and the stored tree is therefore acyclic. *)
Theorem str_succeeds r st a fuel :
  reachable r st ->
  scalar_store (st_heap st) ->
  a < length (st_heap st) ->
  length (st_heap st) - a ≤ fuel ->
  ∃ t s, tree_of (st_heap st) a t
         ∧ to_xml fuel (st_heap st) a = Ok (dom_of t)
         ∧ __str__ fuel (st_heap st) a = Ok s.
Proof.
  intros [Hwf _]%reachable_wf Hstore Hlt Hfuel.
  destruct (wf_tree_of _ Hwf a Hlt) as [t Ht].
  pose proof (wf_height _ Hwf _ _ Ht) as Hh.
  assert (Hxml : to_xml fuel (st_heap st) a = Ok (dom_of t)).
  { apply to_xml_tree; [done| |lia]. by eapply scalar_store_tree. }
  exists t. eexists. split; [done|]. split; [done|].
  unfold __str__. rewrite Hxml. reflexivity.
Qed.

Lemma str_succeeds_witness :
  ∃ t s, tree_of (st_heap one_book) 0 t
         ∧ to_xml 3 (st_heap one_book) 0 = Ok (dom_of t)
         ∧ __str__ 3 (st_heap one_book) 0 = Ok s.
Proof.
  refine (str_succeeds "books" one_book 0 3 _ _ _ _).
  - apply (exec_reachable "books" 1
             [Access 0 "book";
              Commit 1 [("title", VStr "Example A"); ("year", VInt 2010)]]
             (fresh "books")); [apply reach_fresh|].
    vm_compute. reflexivity.
  - intros a nd Ha.
    destruct a as [|[|[|a]]]; vm_compute in Ha; inversion Ha; subst nd;
      simpl; repeat constructor.
  - vm_compute. lia.
  - vm_compute. lia.
Defined.

(** ** A node as the value of an attribute below it *)

Lemma dict_get_key k v (d : dict) : dict_get k d = Some v -> k ∈ dict_keys d.
Proof.
  induction d as [|[k' v'] d IH]; simpl; [done|].
  case_decide as Hk; [subst; intros _; by left|]. intros Hd. right. by apply IH.
Qed.

(** When the first loop of [to_xml] succeeds, [str] returned for every
    value of the dict. *)
Lemma copy_attributes_Ok (f : value -> result string) (d : dict) element out k v :
  copy_attributes f d element = Ok out -> dict_get k d = Some v ->
  ∃ s, f v = Ok s.
Proof.
  intros Hrun Hk. pose proof (dict_get_key _ _ _ Hk) as Hin.
  unfold copy_attributes in Hrun. revert element Hrun Hin.
  generalize (dict_keys d). intros ks.
  induction ks as [|k' ks IH]; intros element Hrun Hin.
  - by apply elem_of_nil in Hin.
  - simpl in Hrun. destruct (decide (k' = k)) as [->|Hne].
    + rewrite Hk in Hrun. destruct (f v) as [err|s]; [|by eexists].
      simpl in Hrun. by rewrite copy_attributes_Raise in Hrun.
    + apply elem_of_cons in Hin as [->|Hin]; [done|].
      destruct (dict_get k' d) as [v'|]; [|by eapply IH].
      destruct (f v') as [err|s]; simpl in Hrun; [|by eapply IH].
      by rewrite copy_attributes_Raise in Hrun.
Qed.

(** X14: a node that is the value of an attribute of one of its own
    children cannot be serialized: [to_xml] of the node converts the
    child, whose attribute asks for the text of the node again, so no
    amount of fuel gives a result. *)
Theorem own_value_never_prints (h : heap) a nd c cn k fuel :
  h !! a = Some nd -> c ∈ _elements nd ->
  h !! c = Some cn -> dict_get k (_attributes cn) = Some (VNode a) ->
  (∀ el, to_xml fuel h a ≠ Ok el) ∧ (∀ s, __str__ fuel h a ≠ Ok s).
Proof.
  intros Ha Hc Hcn Hk.
  assert (Hxml : ∀ fuel el, to_xml fuel h a ≠ Ok el).
  { clear fuel. intros fuel. induction (lt_wf fuel) as [fuel _ IH]. intros el Hrun.
    destruct fuel as [|fuel]; [done|]. simpl in Hrun.
    rewrite (deref_Some _ _ _ Ha) in Hrun. simpl in Hrun.
    destruct (copy_attributes _ _ _) as [err|element] in Hrun; simpl in Hrun; [done|].
    destruct (fold_children_Ok _ _ _ _ Hrun c Hc) as [elc Hchild].
    destruct fuel as [|fuel]; [done|]. simpl in Hchild.
    rewrite (deref_Some _ _ _ Hcn) in Hchild. simpl in Hchild.
    destruct (copy_attributes _ _ _) as [err|element'] eqn:Hattrs in Hchild;
      simpl in Hchild; [done|].
    destruct (copy_attributes_Ok _ _ _ _ _ _ Hattrs Hk) as [s Hs]. simpl in Hs.
    destruct (to_xml fuel h a) as [err|doc] eqn:Hdoc; simpl in Hs; [done|].
    apply (IH fuel ltac:(lia) doc Hdoc). }
  split; [apply Hxml|]. intros s Hrun. unfold __str__ in Hrun.
  destruct (to_xml fuel h a) as [err|doc] eqn:Hdoc; simpl in Hrun; [done|].
  by apply (Hxml fuel doc).
Qed.

Lemma own_value_never_prints_witness :
  commit_path 1 [__init__ "root"] ["a"] [("x", VNode 0)] = Ok self_valued
  ∧ ∀ s, __str__ 1000 self_valued 0 ≠ Ok s.
Proof.
  split; [vm_compute; reflexivity|].
  refine (proj2 (own_value_never_prints self_valued 0
                   (mkEasyXML None "root" [2] [] {["a" := 2]}) 2
                   (mkEasyXML (Some 0) "a" [] [("x", VNode 0)] ∅) "x" 1000 _ _ _ _)).
  - reflexivity.
  - apply elem_of_cons. left. reflexivity.
  - reflexivity.
  - reflexivity.
Defined.

(** ** The text has no white space around it *)

Lemma lstrip_head s c : head_char (lstrip s) = Some c -> is_space c = false.
Proof.
  induction s as [|a s IH]; [done|]. simpl.
  destruct (is_space a) eqn:Ha; [done|]. simpl. by intros [= <-].
Qed.

Lemma rstrip_head s c : head_char (rstrip s) = Some c -> head_char s = Some c.
Proof.
  destruct s as [|a s]; [done|]. simpl.
  destruct (rstrip s); [|done]. by destruct (is_space a).
Qed.

Lemma rstrip_last s c : last_char (rstrip s) = Some c -> is_space c = false.
Proof.
  induction s as [|a s IH]; [done|]. simpl.
  destruct (rstrip s) as [|b r] eqn:Hr.
  - destruct (is_space a) eqn:Ha; [done|]. simpl. by intros [= <-].
  - change (last_char (String a (String b r)))
      with (match last_char (String b r) with Some c' => Some c' | None => Some a end).
    destruct (last_char (String b r)) as [c'|] eqn:Hl.
    + intros [= <-]. by apply IH.
    + by apply last_char_None in Hl.
Qed.

(** X9: whatever the store and the node, a text that [__str__] returns
    neither begins nor ends with a white-space character. *)
Theorem str_is_trimmed fuel (h : heap) a s :
  __str__ fuel h a = Ok s -> trimmed s.
Proof.
  unfold __str__. intros Hrun.
  destruct (to_xml fuel h a) as [err|el]; simpl in Hrun; [done|].
  inversion Hrun; subst s. unfold strip. split.
  - intros c Hc. by apply rstrip_head, lstrip_head in Hc.
  - intros c. apply rstrip_last.
Qed.

Lemma str_is_trimmed_witness : is_space "<"%char = false.
Proof.
  exact (proj1 (str_is_trimmed 1 [__init__ "root"] 0 "<root/>" eq_refl)
               "<"%char eq_refl).
Defined.

(** ** Everything attached hangs off the root *)

Lemma held_attached (h : heap) q qn nm e x :
  h !! q = Some qn -> held h x -> held (<[q := attached qn nm e]> h) x.
Proof.
  intros Hq [->|(xn & p & pn & Hx & Hxp & Hp & Hin)]; [by left|]. right.
  assert (Hlook : ∀ a y, h !! a = Some y ->
            ∃ y', <[q := attached qn nm e]> h !! a = Some y'
                  ∧ _parent y' = _parent y
                  ∧ ∀ c, c ∈ _elements y -> c ∈ _elements y').
  { intros a y Hy. destruct (decide (q = a)) as [->|Hne].
    - exists (attached qn nm e). split.
      + apply list_lookup_insert_eq. by eapply lookup_lt_Some.
      + assert (y = qn) as -> by congruence. split; [done|].
        intros c Hc. simpl. apply elem_of_app. by left.
    - exists y. by rewrite list_lookup_insert_ne. }
  destruct (Hlook _ _ Hx) as (xn' & Hx' & Hxp' & _).
  destruct (Hlook _ _ Hp) as (pn' & Hp' & _ & Hin').
  exists xn', p, pn'. split; [done|]. split; [congruence|]. split; [done|].
  by apply Hin'.
Qed.

Lemma parents_rooted_attached (h : heap) q qn nm e :
  h !! q = Some qn -> parents_rooted h ->
  parents_rooted (<[q := attached qn nm e]> h).
Proof.
  intros Hq Hroot a nd p Ha Hp.
  assert (∃ nd0, h !! a = Some nd0 ∧ _parent nd0 = Some p) as (nd0 & Ha0 & Hp0).
  { apply list_lookup_insert_Some in Ha as [(<- & <- & _)|[Hne Ha]]; eauto. }
  destruct (Hroot _ _ _ Ha0 Hp0) as [->|(pn & g & Hpn & Hg)]; [by left|]. right.
  destruct (decide (q = p)) as [->|Hne].
  - exists (attached qn nm e), g. split.
    + apply list_lookup_insert_eq. by eapply lookup_lt_Some.
    + simpl. congruence.
  - exists pn, g. by rewrite list_lookup_insert_ne.
Qed.

(** Where the loop test says stop, the object is held or has no children. *)
Lemma loop_stop_held (h : heap) e en :
  wf h -> parents_rooted h ->
  loop_test h e = Ok None -> h !! e = Some en -> _elements en ≠ [] ->
  held h e.
Proof.
  intros Hwf Hroot Htest He Hne.
  unfold loop_test in Htest. rewrite (deref_Some _ _ _ He) in Htest. simpl in Htest.
  destruct (_parent en) as [q|] eqn:Hq.
  - destruct (deref h q) as [err|qn] eqn:Hqn; simpl in Htest; [done|].
    apply deref_Ok in Hqn. case_bool_decide as Hin; [|done].
    apply elem_of_dict_values in Hin as [n Hn].
    rewrite (wf_map _ Hwf _ _ n Hqn) in Hn. apply last_named_elem in Hn as [Hin _].
    right. by exists en, q, qn.
  - destruct (_elements en) as [|c l] eqn:Hel; [done|].
    destruct (wf_child _ Hwf e en c He) as (cn & Hcn & Hcp); [rewrite Hel; by left|].
    destruct (Hroot _ _ _ Hcn Hcp) as [->|(pn' & g & Hpn' & Hg)]; [by left|].
    congruence.
Qed.

(** The loop restores [parents_held]: it may start at an object [e] that
    is not held although it has children, and it ends only at an object
    that is held or has no children. *)
Lemma attach_holds fuel : ∀ (h : heap) e h' k,
  wf h -> parents_rooted h ->
  (∀ p pn, p ≠ e -> h !! p = Some pn -> _elements pn ≠ [] -> held h p) ->
  attach fuel h e = Ok (h', k) ->
  parents_rooted h' ∧ parents_held h'.
Proof.
  assert (Hstop : ∀ (h : heap) e,
            wf h -> parents_rooted h ->
            (∀ p pn, p ≠ e -> h !! p = Some pn -> _elements pn ≠ [] -> held h p) ->
            loop_test h e = Ok None -> parents_rooted h ∧ parents_held h).
  { intros h e Hwf Hroot Hheld Htest. split; [done|].
    intros p pn Hp Hne. destruct (decide (p = e)) as [->|Hpe]; [|by eapply Hheld].
    by eapply loop_stop_held. }
  induction fuel as [|fuel IH]; intros h e h' k Hwf Hroot Hheld Hrun;
    simpl in Hrun;
    destruct (loop_test h e) as [err|[p|]] eqn:Htest; simpl in Hrun; try done;
    try (inversion Hrun; subst h' k; by eapply Hstop).
  unfold loop_test in Htest.
  destruct (deref h e) as [err|en] eqn:He; simpl in Htest; [done|].
  destruct (_parent en) as [p'|] eqn:Hpar; [|done].
  destruct (deref h p') as [err|pn] eqn:Hp; simpl in Htest; [done|].
  case_bool_decide; [done|]. inversion Htest; subst p'.
  apply deref_Ok in He, Hp.
  rewrite (loop_body_eq _ _ _ _ _ He Hp) in Hrun. simpl in Hrun.
  destruct (attach fuel _ p) as [err|[h'' n]] eqn:Hrec; simpl in Hrun; [done|].
  inversion Hrun; subst h'' k.
  pose proof (wf_parent _ Hwf _ _ _ He Hpar) as Hpe.
  eapply (IH _ p);
    [exact (wf_attached _ _ _ _ _ Hwf He Hpar Hp)
    |exact (parents_rooted_attached _ _ _ _ _ Hp Hroot)| |done].
  intros x xn Hxp Hx Hne.
  rewrite list_lookup_insert_ne in Hx by done.
  destruct (decide (x = e)) as [->|Hxe].
  - right. exists en, p, (attached pn (_name en) e).
    split; [by rewrite list_lookup_insert_ne by lia|]. split; [done|]. split.
    + apply list_lookup_insert_eq. by eapply lookup_lt_Some.
    + simpl. apply elem_of_app. right. by left.
  - apply held_attached; [done|]. by eapply Hheld.
Qed.

Lemma held_app (h : heap) x p : held h p -> held (h ++ [x]) p.
Proof.
  intros [->|(pn & q & qn & Hp & Hpq & Hq & Hin)]; [by left|]. right.
  exists pn, q, qn. by split; [apply lookup_app_l_Some|split; [|split; [apply lookup_app_l_Some|]]].
Qed.

(** Allocation of a childless object below the root or below an object
    that has a parent. *)
Lemma rooted_held_alloc (h : heap) x :
  parents_rooted h -> parents_held h ->
  (∀ p, _parent x = Some p -> p = 0 ∨ ∃ pn q, h !! p = Some pn ∧ _parent pn = Some q) ->
  _elements x = [] ->
  parents_rooted (h ++ [x]) ∧ parents_held (h ++ [x]).
Proof.
  intros Hroot Hheld Hx Hel. split.
  - intros a nd p [[_ Ha]|[-> <-]]%lookup_snoc_Some Hp.
    + destruct (Hroot _ _ _ Ha Hp) as [->|(pn & q & Hpn & Hq)]; [by left|]. right.
      exists pn, q. split; [by apply lookup_app_l_Some|done].
    + destruct (Hx _ Hp) as [->|(pn & q & Hpn & Hq)]; [by left|]. right.
      exists pn, q. split; [by apply lookup_app_l_Some|done].
  - intros p pn [[_ Hp]|[-> <-]]%lookup_snoc_Some Hne; [|done].
    apply held_app. by eapply Hheld.
Qed.

Lemma rooted_ref_app (h l : heap) a : rooted_ref h a -> rooted_ref (h ++ l) a.
Proof.
  intros [->|(nd & q & Ha & Hq)]; [by left|]. right.
  exists nd, q. split; [by apply lookup_app_l_Some|done].
Qed.

(** The invariants behind X10, for every reachable state. *)
Lemma reachable_held r st :
  reachable r st ->
  parents_rooted (st_heap st) ∧ parents_held (st_heap st)
  ∧ Forall (rooted_ref (st_heap st)) (st_refs st).
Proof.
  induction 1 as [|st o fuel st' Hreach (Hroot & Hheld & Hrefs) Hstep].
  - split; [|split].
    + intros [|a] nd p Ha Hp; simpl in Ha; [by inversion Ha; subst|done].
    + intros [|p] pn Hp Hne; simpl in Hp; [by left|done].
    + repeat constructor.
  - pose proof (proj1 (reachable_wf _ _ Hreach)) as Hwf.
    destruct o as [i name|i kwargs]; simpl in Hstep.
    + destruct (st_refs st !! i) as [a|] eqn:Hi; [|done].
      destruct (getattribute (st_heap st) a name) as [err|[h' v]] eqn:Hget;
        simpl in Hstep; [done|].
      pose proof (proj1 (Forall_lookup _ _) Hrefs _ _ Hi) as Ha.
      destruct (getattribute_cases _ _ _ _ _ Hget) as (nd & Hnd & Hcases).
      destruct Hcases as [(-> & f & ->)|[(-> & ->)|[(-> & Hus & c & -> & Hc)
                           |(-> & Hus & -> & Hc)]]];
        inversion Hstep; subst; simpl; try done.
      * split; [done|]. split; [done|]. apply Forall_app. split; [done|].
        constructor; [|constructor]. right.
        rewrite (wf_map _ Hwf _ _ _ Hnd) in Hc.
        apply last_named_elem in Hc as [Hin _].
        destruct (wf_child _ Hwf _ _ _ Hnd Hin) as (cn & Hcn & Hcp). eauto.
      * destruct (rooted_held_alloc (st_heap st) (set_parent (Some a) (__init__ name))
                    Hroot Hheld) as [Hroot' Hheld']; [|done|].
        { simpl. intros p [= <-]. destruct Ha as [->|(x & q & Hx & Hq)]; eauto. }
        split; [done|]. split; [done|]. apply Forall_app. split.
        -- eapply Forall_impl; [done|]. intros x. apply rooted_ref_app.
        -- constructor; [|constructor]. right.
           exists (set_parent (Some a) (__init__ name)), a.
           split; [by rewrite lookup_app_r, Nat.sub_diag|done].
    + destruct (st_refs st !! i) as [a|] eqn:Hi; [|done].
      destruct (__call__ fuel (st_heap st) a kwargs) as [err|h'] eqn:Hcall;
        simpl in Hstep; [done|].
      inversion Hstep; subst; simpl.
      pose proof Hcall as (nd & k & Hnd & Hrun)%call_ok_inv.
      destruct (rooted_held_alloc (st_heap st) (called_object nd kwargs) Hroot Hheld)
        as [Hroot1 Hheld1]; [|done|].
      { simpl. intros p Hp. by eapply Hroot. }
      destruct (attach_holds _ _ _ _ _ (wf_called_object _ _ _ kwargs Hwf Hnd)
                  Hroot1 (fun p pn _ => Hheld1 p pn) Hrun) as [Hroot' Hheld'].
      split; [done|]. split; [done|].
      destruct (attach_frame _ _ _ _ _ Hrun) as [_ Hframe].
      eapply Forall_impl; [done|]. intros x [->|(xn & q & Hx & Hq)]; [by left|].
      right. destruct (Hframe x xn (lookup_app_l_Some _ _ _ _ Hx))
        as (xn' & Hx' & (_ & Hp' & _) & _).
      exists xn', q. split; [done|congruence].
Qed.

(** X10: in every state reachable from a fresh root, a node that is in
    some children list, and the owner of that list, are reached from the
    root through children lists: a commit attaches the whole chain of
    cursors above the new node, so nothing that has been attached is
    left hanging below an unattached ancestor, and all of it is part of
    the tree of the root. *)
Theorem attached_nodes_hang_off_root r st p pn c :
  reachable r st ->
  st_heap st !! p = Some pn -> c ∈ _elements pn ->
  connected (st_heap st) p ∧ connected (st_heap st) c.
Proof.
  intros Hreach Hp Hc.
  pose proof (proj1 (reachable_wf _ _ Hreach)) as Hwf.
  destruct (reachable_held _ _ Hreach) as (_ & Hheld & _).
  assert (Hconn : ∀ x xn, st_heap st !! x = Some xn -> _elements xn ≠ [] ->
                          connected (st_heap st) x).
  { intros x. induction (lt_wf x) as [x _ IH]. intros xn Hx Hne.
    destruct (Hheld _ _ Hx Hne) as [->|(xn' & q & qn & Hx' & Hxq & Hq & Hin)].
    - apply connected_root.
    - pose proof (wf_parent _ Hwf _ _ _ Hx' Hxq) as Hlt.
      eapply connected_child; [|done|done].
      eapply (IH q Hlt); [done|]. intros Hnil. rewrite Hnil in Hin.
      by apply elem_of_nil in Hin. }
  assert (Hcp : connected (st_heap st) p).
  { eapply Hconn; [done|]. intros Hnil. rewrite Hnil in Hc. by apply elem_of_nil in Hc. }
  split; [done|]. by eapply connected_child.
Qed.

Lemma attached_nodes_hang_off_root_witness :
  connected (st_heap stale_cursor) 0 ∧ connected (st_heap stale_cursor) 3.
Proof.
  refine (attached_nodes_hang_off_root "root" stale_cursor 0
            (mkEasyXML None "root" [2; 3] [] {["a" := 3]}) 3
            stale_cursor_reachable _ _).
  - vm_compute. reflexivity.
  - simpl. apply elem_of_cons. right. apply elem_of_cons. left. reflexivity.
Defined.

(** X11: in every state reachable from a fresh root, no node in a children
    list has a name that begins with an underscore: attribute syntax
    cannot build an element with such a name, whatever the root is
    called. *)
Theorem children_have_public_names r st p pn c :
  reachable r st ->
  st_heap st !! p = Some pn -> c ∈ _elements pn ->
  ∃ cn, st_heap st !! c = Some cn ∧ _parent cn = Some p
        ∧ startswith_underscore (_name cn) = false.
Proof.
  intros [Hwf _]%reachable_wf Hp Hc.
  destruct (wf_child _ Hwf _ _ _ Hp Hc) as (cn & Hcn & Hcp).
  exists cn. split; [done|]. split; [done|]. by eapply wf_name.
Qed.

Lemma children_have_public_names_witness :
  ∃ cn, st_heap stale_cursor !! 3 = Some cn ∧ _parent cn = Some 0
        ∧ startswith_underscore (_name cn) = false.
Proof.
  refine (children_have_public_names "root" stale_cursor 0
            (mkEasyXML None "root" [2; 3] [] {["a" := 3]}) 3
            stale_cursor_reachable _ _).
  - vm_compute. reflexivity.
  - simpl. apply elem_of_cons. right. apply elem_of_cons. left. reflexivity.
Defined.

(** ** A commit and the same chain of accesses after it *)

Lemma ancestor_app (h l : heap) a c : ancestor h a c -> ancestor (h ++ l) a c.
Proof.
  induction 1 as [a nd p Ha Hp|a nd p c Ha Hp _ IH].
  - eapply ancestor_parent; [by apply lookup_app_l_Some|done].
  - eapply ancestor_link; [by apply lookup_app_l_Some|done|done].
Qed.

Lemma ancestor_trans (h : heap) a b c :
  ancestor h a b -> ancestor h b c -> ancestor h a c.
Proof.
  induction 1 as [a nd p Ha Hp|a nd p b Ha Hp _ IH]; intros Hbc.
  - by eapply ancestor_link.
  - eapply ancestor_link; [done|done|]. by apply IH.
Qed.

(** The ancestors of an object form one chain. *)
Lemma ancestor_linear (h : heap) q x y :
  ancestor h q x -> ancestor h q y -> x = y ∨ ancestor h x y ∨ ancestor h y x.
Proof.
  induction 1 as [q nd p Hq Hp|q nd p x Hq Hp Hpx IH]; intros Hy.
  - inversion Hy as [? nd' p' Hq' Hp'|? nd' p' ? Hq' Hp' Hrest]; simplify_eq.
    + by left.
    + right. by left.
  - inversion Hy as [? nd' p' Hq' Hp'|? nd' p' ? Hq' Hp' Hrest]; simplify_eq.
    + right. by right.
    + by apply IH.
Qed.

(** On the chain above [q], at most one object has the parent [a]. *)
Lemma chain_child_unique (h : heap) q x c a xn cn :
  wf h ->
  x = q ∨ ancestor h q x -> c = q ∨ ancestor h q c ->
  h !! x = Some xn -> _parent xn = Some a ->
  h !! c = Some cn -> _parent cn = Some a ->
  x = c.
Proof.
  intros Hwf Hx Hc Hxn Hxa Hcn Hca.
  assert (Hno : ∀ u v un, h !! u = Some un -> _parent un = Some a ->
                          h !! v = Some cn -> ancestor h u v -> False).
  { intros u v un Hu Hua Hv Huv.
    pose proof (wf_parent _ Hwf _ _ _ Hv Hca) as Hav.
    inversion Huv as [? un' p Hu' Hp|? un' p ? Hu' Hp Hrest]; simplify_eq; [lia|].
    pose proof (wf_ancestor_lt _ _ _ Hwf Hrest). lia. }
  assert (Hno' : ∀ u v vn, h !! u = Some cn -> h !! v = Some vn ->
                           _parent vn = Some a -> ancestor h u v -> False).
  { intros u v vn Hu Hv Hva Huv.
    pose proof (wf_parent _ Hwf _ _ _ Hv Hva) as Hav.
    inversion Huv as [? un' p Hu' Hp|? un' p ? Hu' Hp Hrest]; simplify_eq; [lia|].
    pose proof (wf_ancestor_lt _ _ _ Hwf Hrest). lia. }
  destruct Hx as [->|Hx], Hc as [->|Hc]; [done| | |].
  - exfalso. by eapply (Hno q c xn).
  - exfalso. by eapply (Hno' q x xn).
  - destruct (ancestor_linear _ _ _ _ Hx Hc) as [?|[Hxc|Hcx]]; [done| |].
    + exfalso. by eapply (Hno x c xn).
    + exfalso. by eapply (Hno' c x xn).
Qed.

(** What one access that gives a node tells about that node. *)
Lemma getattribute_child (h : heap) a n h0 c :
  wf h -> getattribute h a n = Ok (h0, Child c) ->
  ∃ an cn l,
    h !! a = Some an ∧ h0 = h ++ l ∧ wf h0
    ∧ h0 !! c = Some cn ∧ _parent cn = Some a ∧ _name cn = n
    ∧ startswith_underscore n = false
    ∧ (_element_map an !! n = Some c
       ∨ (_element_map an !! n = None ∧ c = length h)).
Proof.
  intros Hwf Hget.
  pose proof (proj1 (wf_getattribute _ _ _ _ _ Hwf Hget)) as Hwf0.
  destruct (getattribute_cases _ _ _ _ _ Hget) as (an & Han & Hcases).
  destruct Hcases as [(_ & f & [=])|[(_ & [=])|[(-> & Hus & c' & [= <-] & Hc)
                       |(-> & Hus & [= ->] & Hc)]]].
  - pose proof Hc as Hc'. rewrite (wf_map _ Hwf _ _ _ Han) in Hc'.
    apply last_named_elem in Hc' as [Hin Hname].
    destruct (wf_child _ Hwf _ _ _ Han Hin) as (cn & Hcn & Hcp).
    exists an, cn, []. rewrite app_nil_r.
    do 5 (split; [done|]). split; [|split; [done|by left]].
    unfold name_of in Hname. rewrite Hcn in Hname. by inversion Hname.
  - exists an, (set_parent (Some a) (__init__ n)), [set_parent (Some a) (__init__ n)].
    do 3 (split; [done|]). split; [by rewrite lookup_app_r, Nat.sub_diag|].
    do 3 (split; [done|]). by right.
Qed.

(** The node that a non-empty chain resolves to has a parent on the
    chain, at or below the start. *)
Lemma resolve_target (h1 : heap) t : ∀ rest c (h : heap),
  wf h -> rest ≠ [] -> resolve h c rest = Ok (h1, t) ->
  ∃ tn q, h1 !! t = Some tn ∧ _parent tn = Some q
          ∧ (q = c ∨ ancestor h1 q c).
Proof.
  induction rest as [|m rest IH]; intros c h Hwf Hne Hres; [done|].
  simpl in Hres.
  destruct (getattribute h c m) as [err|[h0 v]] eqn:Hget; simpl in Hres; [done|].
  destruct v as [d| |]; try done.
  destruct (getattribute_child _ _ _ _ _ Hwf Hget)
    as (cn & dn & l & Hc & -> & Hwf0 & Hd & Hdp & _).
  destruct rest as [|m' rest].
  - simpl in Hres. inversion Hres; subst. exists dn, c. by split; [|split; [|left]].
  - destruct (IH d _ Hwf0 ltac:(done) Hres) as (tn & q & Ht & Hq & Hchain).
    destruct (resolve_app _ _ _ _ _ Hres) as (l' & -> & _).
    assert (Hdc : ancestor ((h ++ l) ++ l') d c).
    { eapply ancestor_parent; [by apply lookup_app_l_Some|done]. }
    exists tn, q. split; [done|]. split; [done|]. right.
    destruct Hchain as [->|Hchain]; [done|]. by eapply ancestor_trans.
Qed.

Lemma last_named_all_same (h : heap) n l more c :
  Forall (fun x => x = c) more -> name_of h c = Some n ->
  (more = [] -> last_named h n l = Some c) ->
  last_named h n (l ++ more) = Some c.
Proof.
  intros Hall Hname. induction more as [|x more IH] using rev_ind; intros Hl.
  - rewrite app_nil_r. by apply Hl.
  - apply Forall_app in Hall as [_ Hx]. inversion Hx; subst.
    rewrite app_assoc, last_named_snoc. by rewrite bool_decide_true.
Qed.

(** After a commit on the node that a chain resolved to, the chain
    resolves to the new object. *)
Lemma resolve_after_commit (h1 h' : heap) t tn kwargs :
  wf h1 -> wf h' -> parents_held h' ->
  h1 !! t = Some tn ->
  (∀ a x, (h1 ++ [called_object tn kwargs]) !! a = Some x ->
     ∃ x', h' !! a = Some x'
           ∧ grown (fun c => c = length h1
                             ∨ ancestor (h1 ++ [called_object tn kwargs]) (length h1) c)
                   x x') ->
  (∀ p, _parent tn = Some p ->
     ∃ pn', h' !! p = Some pn' ∧ _element_map pn' !! _name tn = Some (length h1)) ->
  ∀ path a (h : heap),
    path ≠ [] -> wf h -> resolve h a path = Ok (h1, t) ->
    resolve h' a path = Ok (h', length h1).
Proof.
  intros Hwf1 Hwf' Hheld' Ht Hframe Hbase.
  set (H := h1 ++ [called_object tn kwargs]) in *.
  assert (HwfH : wf H) by exact (wf_called_object _ _ _ kwargs Hwf1 Ht).
  assert (Hnew : H !! length h1 = Some (called_object tn kwargs)).
  { unfold H. by rewrite lookup_app_r, Nat.sub_diag. }
  induction path as [|n rest IH]; intros a h Hne Hwf Hres; [done|].
  simpl in Hres.
  destruct (getattribute h a n) as [err|[h0 v]] eqn:Hget; simpl in Hres; [done|].
  destruct v as [c| |]; try done.
  destruct (getattribute_child _ _ _ _ _ Hwf Hget)
    as (an & cn & l & Ha & -> & Hwf0 & Hc & Hcp & Hcname & Hus & Hmap).
  destruct rest as [|m rest].
  { simpl in Hres. inversion Hres; subst h1 t.
    assert (tn = cn) as -> by congruence.
    destruct (Hbase a Hcp) as (pn' & Hpn' & Hentry).
    simpl. rewrite (getattribute_mapped _ _ _ n (length (h ++ l)) Hpn' Hus)
      by (by rewrite <-Hcname). done. }
  specialize (IH c (h ++ l) ltac:(done) Hwf0 Hres).
  destruct (resolve_app _ _ _ _ _ Hres) as (l' & Hh1 & _).
  assert (Ha1 : H !! a = Some an).
  { unfold H. rewrite Hh1. by do 3 apply lookup_app_l_Some. }
  assert (Hc1 : H !! c = Some cn).
  { unfold H. rewrite Hh1. by do 2 apply lookup_app_l_Some. }
  destruct (Hframe _ _ Ha1) as (an' & Han' & _ & _ & _ & more & Hel & Hmore).
  destruct (Hframe _ _ Hc1) as (cn' & Hcn' & Hcname' & Hcp' & _ & _).
  pose proof (wf_parent _ HwfH _ _ _ Hc1 Hcp) as Hac.
  assert (Hnames : ∀ x xn, h !! x = Some xn -> name_of h' x = name_of h x).
  { intros x xn Hx. assert (Hx1 : H !! x = Some xn).
    { unfold H. rewrite Hh1. by do 3 apply lookup_app_l_Some. }
    destruct (Hframe _ _ Hx1) as (xn' & Hxn' & Hn & _).
    unfold name_of. rewrite Hxn', Hx. simpl. by rewrite Hn. }
  destruct (resolve_target _ _ (m :: rest) _ _ Hwf0 ltac:(done) Hres)
    as (tn0 & q & Ht0 & Hq & Hchain).
  assert (tn0 = tn) as -> by congruence.
  assert (HchainH : c = q ∨ ancestor H q c).
  { destruct Hchain as [->|Hchain]; [by left|right]. by apply ancestor_app. }
  assert (Hall : Forall (fun x => x = c) more).
  { apply Forall_forall. intros x Hx.
    assert (Hxin : x ∈ _elements an') by (rewrite Hel; apply elem_of_app; by right).
    destruct (wf_child _ Hwf' _ _ _ Han' Hxin) as (xn' & Hxn' & Hxp').
    pose proof (proj1 (Forall_forall _ _) Hmore x Hx) as [->|Hanc].
    - exfalso. destruct (Hframe _ _ Hnew) as (en' & Hen' & _ & Hep & _).
      simpl in Hep. assert (q = a) by congruence. subst q.
      destruct HchainH as [Hcq|Hqc]; [lia|].
      pose proof (wf_ancestor_lt _ _ _ HwfH Hqc). lia.
    - pose proof (wf_ancestor_lt _ _ _ HwfH Hanc) as Hxlt.
      assert (∃ xn, H !! x = Some xn) as [xn Hxn].
      { apply lookup_lt_is_Some_2. unfold H. rewrite length_app. simpl. lia. }
      destruct (Hframe _ _ Hxn) as (xn0 & Hxn0 & _ & Hxp0 & _).
      assert (Hxa : _parent xn = Some a) by congruence.
      assert (Hxq : x = q ∨ ancestor H q x).
      { inversion Hanc as [? en p He Hp|? en p ? He Hp Hrest];
          rewrite Hnew in He; inversion He; subst en; simpl in Hp;
          assert (p = q) by congruence; subst; [by left|by right]. }
      exact (chain_child_unique H q x c a xn cn HwfH Hxq HchainH Hxn Hxa Hc1 Hcp). }
  assert (Hcname_h' : name_of h' c = Some n).
  { unfold name_of. rewrite Hcn'. simpl. by rewrite Hcname', Hcname. }
  assert (Hentry : _element_map an' !! n = Some c).
  { rewrite (wf_map _ Hwf' _ _ n Han'), Hel.
    apply last_named_all_same; [done|done|]. intros ->.
    destruct Hmap as [Hmapped|[Hnone ->]].
    - rewrite (last_named_ext h).
      + by rewrite <-(wf_map _ Hwf _ _ n Ha).
      + intros x Hx. destruct (wf_child _ Hwf _ _ _ Ha Hx) as (xn & Hxn & _).
        by eapply Hnames.
    - exfalso.
      simpl in IH.
      destruct (getattribute h' (length h) m) as [err|[h0' v]] eqn:Hget';
        simpl in IH; [done|].
      destruct v as [d| |]; try done.
      destruct (getattribute_cases _ _ _ _ _ Hget') as (cn0 & Hcn0 & Hcases).
      assert (cn0 = cn') as -> by congruence.
      destruct Hcases as [(_ & f & [=])|[(_ & [=])|[(-> & _ & d' & [= <-] & Hd)
                           |(-> & _ & _ & _)]]].
      + rewrite (wf_map _ Hwf' _ _ _ Hcn') in Hd.
        apply last_named_elem in Hd as [Hin _].
        destruct (Hheld' _ _ Hcn') as [Hzero|(cn1 & a1 & an1 & Hc2 & Hcp2 & Ha2 & Hin2)].
        * intros Hnil. rewrite Hnil in Hin. by apply elem_of_nil in Hin.
        * lia.
        * assert (a1 = a) by congruence. subst a1.
          assert (an1 = an') as -> by congruence.
          rewrite Hel, app_nil_r in Hin2.
          destruct (wf_child _ Hwf _ _ _ Ha Hin2) as (y & Hy & _).
          apply lookup_lt_Some in Hy. lia.
      + destruct (resolve_app _ _ _ _ _ IH) as (l2 & Heq & _).
        apply (f_equal length) in Heq. rewrite !length_app in Heq. simpl in Heq. lia. }
  simpl. rewrite (getattribute_mapped _ _ _ n c Han' Hus Hentry). done.
Qed.

(** A chain of accesses from a held reference is a program. *)
Lemma resolve_reachable r : ∀ path st a h1 t,
  reachable r st -> a ∈ st_refs st ->
  resolve (st_heap st) a path = Ok (h1, t) ->
  ∃ st1, reachable r st1 ∧ st_heap st1 = h1 ∧ t ∈ st_refs st1.
Proof.
  induction path as [|n path IH]; intros st a h1 t Hreach Ha Hres; simpl in Hres.
  - inversion Hres; subst. by exists st.
  - destruct (getattribute (st_heap st) a n) as [err|[h0 v]] eqn:Hget;
      simpl in Hres; [done|].
    destruct v as [c| |]; try done.
    apply list_elem_of_lookup in Ha as [i Hi].
    apply (IH {| st_heap := h0; st_refs := st_refs st ++ [c] |} c); [| |done].
    + apply (reach_step r st (Access i n) 0); [done|].
      simpl. by rewrite Hi, Hget.
    + simpl. apply elem_of_app. right. apply elem_of_cons. by left.
Qed.

(** X12: a statement [a.n1...nk(...)] with k > 0, run in a reachable state
    from a held reference [a], makes the same chain of accesses lead to
    the object it has just created: afterwards [a.n1...nk] creates
    nothing and gives the new object. *)
Theorem commit_then_resolve r st a path fuel kwargs (h1 h' : heap) t :
  reachable r st -> a ∈ st_refs st -> path ≠ [] ->
  resolve (st_heap st) a path = Ok (h1, t) ->
  __call__ fuel h1 t kwargs = Ok h' ->
  resolve h' a path = Ok (h', length h1).
Proof.
  intros Hreach Ha Hne Hres Hcall.
  pose proof (proj1 (reachable_wf _ _ Hreach)) as Hwf.
  destruct (resolve_reachable _ _ _ _ _ _ Hreach Ha Hres) as (st1 & Hreach1 & <- & Ht).
  pose proof (proj1 (reachable_wf _ _ Hreach1)) as Hwf1.
  apply list_elem_of_lookup in Ht as [j Hj].
  assert (Hreach' : reachable r {| st_heap := h'; st_refs := st_refs st1 |}).
  { apply (reach_step r st1 (Commit j kwargs) fuel); [done|].
    simpl. by rewrite Hj, Hcall. }
  pose proof (proj1 (reachable_wf _ _ Hreach')) as Hwf'. simpl in Hwf'.
  destruct (reachable_held _ _ Hreach') as (_ & Hheld' & _). simpl in Hheld'.
  destruct (call_ok_inv _ _ _ _ _ Hcall) as (tn & k & Htn & Hattach).
  destruct (attach_frame _ _ _ _ _ Hattach) as [_ Hframe].
  apply (resolve_after_commit (st_heap st1) h' t tn kwargs Hwf1 Hwf' Hheld' Htn)
    with (h := st_heap st); [| |done|done|done].
  - intros x xn Hx. destruct (Hframe _ _ Hx) as (xn' & Hxn' & Hgrown & _). by exists xn'.
  - intros p Hp.
    destruct (call_links_parent _ _ _ _ _ _ _ _ Hreach1 Htn Hp Hcall)
      as (pn & pn' & Hpn & Hpn' & Hel & Hnew & _).
    exists pn'. split; [done|].
    rewrite (wf_map _ Hwf' _ _ _ Hpn'), Hel, last_named_snoc.
    unfold name_of. rewrite Hnew. simpl. by rewrite bool_decide_true.
Qed.

Lemma commit_then_resolve_witness :
  ∃ h1 t h',
    resolve (st_heap two_siblings) 0 ["a"; "b"] = Ok (h1, t)
    ∧ __call__ 2 h1 t [("x", VInt 1)] = Ok h'
    ∧ resolve h' 0 ["a"; "b"] = Ok (h', length h1).
Proof.
  destruct (resolve (st_heap two_siblings) 0 ["a"; "b"]) as [err|[h1 t]] eqn:Hres.
  { vm_compute in Hres. discriminate Hres. }
  destruct (__call__ 2 h1 t [("x", VInt 1)]) as [err|h'] eqn:Hcall.
  { vm_compute in Hres. inversion Hres; subst h1 t.
    vm_compute in Hcall. discriminate Hcall. }
  exists h1, t, h'. split; [reflexivity|]. split; [exact Hcall|].
  refine (commit_then_resolve "root" two_siblings 0 ["a"; "b"] 2 [("x", VInt 1)] h1 h' t
            two_siblings_reachable _ _ Hres Hcall).
  - apply elem_of_cons. left. reflexivity.
  - discriminate.
Defined.
